(** * Epoch sequencer of the Key Transparency directory

    A shallow embedding of [core/sequencer/sequencer.go] and the
    properties of its epoch builder, initializer, tick generator and
    driver loop.

    Remote calls, transactions and channel sends are steps of a state
    and error monad over an outside world, each recorded in a trace.
    Logging, the Prometheus counters and histograms, and the deadlines
    of the [context] are left out: none of them feeds back into the
    values computed or the calls made. A deadline that expires shows as
    a call that answers with an error. *)

From Stdlib Require Import ZArith Lia.
From stdpp Require Import gmap strings list fin_maps.
From stdpp Require Import sorting.

Local Open Scope Z_scope.

(** ** Bytes and indexes *)

Abbreviation bytes := (list Byte.byte).

#[global] Instance byte_eq_dec : EqDecision Byte.byte := Byte.byte_eq_dec.

#[global] Instance byte_countable : Countable Byte.byte :=
  inj_countable Byte.to_N Byte.of_N Byte.of_to_N.

(** [toArray] copies [b] into a zeroed [[32]byte]: Go's [copy] moves
    [min(32, len b)] bytes and leaves the rest at zero. *)
Definition toArray (b : bytes) : bytes :=
  take 32 b ++ replicate (32 - length b)%nat Byte.x00.

(** ** Protocol messages

    Message pointers that the code reads through nil-safe getters are
    options; the getters return the zero value on [None]. *)

Inductive PublicKey :=
| Ed25519 (k : bytes)
| RsaVerifyingSha256_3072 (k : bytes)
| EcdsaVerifyingP256 (k : bytes).

Record Entry := mkEntry {
  Commitment : bytes;
  AuthorizedKeys : list PublicKey;
  Previous : bytes
}.

Record KeyValue := mkKeyValue {
  Key : bytes;
  Value : bytes
}.

Record SignedKV := mkSignedKV {
  KeyValue_ : option KeyValue;
  Signatures : list (string * bytes)
}.

Definition GetKey (kv : option KeyValue) : bytes :=
  match kv with Some kv => Key kv | None => [] end.

Definition GetKeyValue (m : SignedKV) : option KeyValue := KeyValue_ m.

Record MapLeaf := mkMapLeaf {
  Index : bytes;
  LeafValue : bytes
}.

Definition GetLeafValue (l : MapLeaf) : bytes := LeafValue l.

#[global] Instance PublicKey_eq_dec : EqDecision PublicKey.
Proof. solve_decision. Defined.
#[global] Instance Entry_eq_dec : EqDecision Entry.
Proof. solve_decision. Defined.
#[global] Instance KeyValue_eq_dec : EqDecision KeyValue.
Proof. solve_decision. Defined.
#[global] Instance SignedKV_eq_dec : EqDecision SignedKV.
Proof. solve_decision. Defined.
#[global] Instance MapLeaf_eq_dec : EqDecision MapLeaf.
Proof. solve_decision. Defined.

(** ** Errors and outcomes

    A Go call either returns a value, returns a non-nil [error], or
    panics (index out of range, nil dereference). *)

Inductive error :=
| ErrExternal (msg : string)
| ErrWrap (ctx : string) (e : error)
| ErrGrpcInternal (msg : string).

Inductive outcome (A : Type) :=
| Ret (a : A)
| Fail (e : error)
| Panic.
Arguments Ret {A} a.
Arguments Fail {A} e.
Arguments Panic {A}.

(** ** applyMutations *)

Section ApplyMutations.

(** [entry.FromLeafValue] and the [mutator.Mutator] interface are
    collaborators of the sequencer. [FromLeafValue] yields a possibly
    nil [*Entry] or an error; [Mutate] yields the serialized new
    entry or an error. *)
Variable FromLeafValue : bytes -> error + option Entry.
Variable Mutate : option Entry -> SignedKV -> error + bytes.

(** The order in which Go ranges over a map is unspecified: it is
    some rearrangement of the map's values. *)
Variable range_order : list MapLeaf -> list MapLeaf.

(** First loop: [leafMap[toArray(l.Index)] = l]; a nil leaf pointer
    panics on [l.Index]. *)
Fixpoint build_leafMap (leaves : list (option MapLeaf))
    (leafMap : gmap bytes MapLeaf) : option (gmap bytes MapLeaf) :=
  match leaves with
  | [] => Some leafMap
  | None :: _ => None
  | Some l :: rest => build_leafMap rest (<[toArray (Index l) := l]> leafMap)
  end.

(** The [leafMap] that the first loop builds from non-nil leaves. *)
Definition leafMap_of (leaves : list MapLeaf) : gmap bytes MapLeaf :=
  fold_left (fun lm l => <[toArray (Index l) := l]> lm) leaves ∅.

(** State of the second loop: the map of leaves to return and the
    calls made to the Mutator so far, oldest first. *)
Record loop_state := mkLoop {
  retMap : gmap bytes MapLeaf;
  mutate_calls : list (option Entry * SignedKV)
}.

(** [oldValue] for mutation [m]: nil when no leaf was fetched for its
    index, else the fetched leaf deserialized, which may fail. *)
Definition prior_of (leafMap : gmap bytes MapLeaf) (m : SignedKV)
    : error + option Entry :=
  match leafMap !! toArray (GetKey (GetKeyValue m)) with
  | Some leaf => FromLeafValue (GetLeafValue leaf)
  | None => inr None
  end.

(** Body of the second loop for one mutation [m]. *)
Definition apply_one (leafMap : gmap bytes MapLeaf)
    (st : loop_state) (m : SignedKV) : loop_state :=
  let index := GetKey (GetKeyValue m) in
  match prior_of leafMap m with
  | inl _ => st
  | inr oldValue =>
      let calls := mutate_calls st ++ [(oldValue, m)] in
      match Mutate oldValue m with
      | inl _ => mkLoop (retMap st) calls
      | inr newValue =>
          mkLoop (<[toArray index := mkMapLeaf index newValue]> (retMap st))
                 calls
      end
  end.

Definition apply_loop (leafMap : gmap bytes MapLeaf)
    (mutations : list SignedKV) (st : loop_state) : loop_state :=
  fold_left (apply_one leafMap) mutations st.

Definition map_values (m : gmap bytes MapLeaf) : list MapLeaf :=
  (map_to_list m).*2.

(** [applyMutations] with the trace of Mutator calls it made. *)
Definition applyMutations_run (mutations : list SignedKV)
    (leaves : list (option MapLeaf))
    : outcome (list MapLeaf) * list (option Entry * SignedKV) :=
  match build_leafMap leaves ∅ with
  | None => (Panic, [])
  | Some leafMap =>
      let st := apply_loop leafMap mutations (mkLoop ∅ []) in
      (Ret (range_order (map_values (retMap st))), mutate_calls st)
  end.

Definition applyMutations (mutations : list SignedKV)
    (leaves : list (option MapLeaf)) : outcome (list MapLeaf) :=
  fst (applyMutations_run mutations leaves).

(** The leaf that mutation [m] puts into [retMap], if it gets that far. *)
Definition written (leafMap : gmap bytes MapLeaf) (m : SignedKV)
    : option MapLeaf :=
  match prior_of leafMap m with
  | inl _ => None
  | inr oldValue =>
      match Mutate oldValue m with
      | inl _ => None
      | inr newValue => Some (mkMapLeaf (GetKey (GetKeyValue m)) newValue)
      end
  end.

(** The Mutator call that mutation [m] causes, if any. *)
Definition mutator_call (leafMap : gmap bytes MapLeaf) (m : SignedKV)
    : option (option Entry * SignedKV) :=
  match prior_of leafMap m with
  | inl _ => None
  | inr oldValue => Some (oldValue, m)
  end.

End ApplyMutations.

(** The per-epoch fold as the design document words it: one mutable
    mapping [cur], initialised from the fetched leaves, read for the
    prior entry and overwritten on success. Kept apart from the code's
    [applyMutations] above, to be compared with it. *)
Section ApplyMutationsCur.

Variable FromLeafValue : bytes -> error + option Entry.
Variable Mutate : option Entry -> SignedKV -> error + bytes.

Definition cur_one (st : loop_state) (m : SignedKV) : loop_state :=
  let index := GetKey (GetKeyValue m) in
  let old :=
    match retMap st !! toArray index with
    | Some leaf => FromLeafValue (GetLeafValue leaf)
    | None => inr None
    end in
  match old with
  | inl _ => st
  | inr oldValue =>
      let calls := mutate_calls st ++ [(oldValue, m)] in
      match Mutate oldValue m with
      | inl _ => mkLoop (retMap st) calls
      | inr newValue =>
          mkLoop (<[toArray index := mkMapLeaf index newValue]> (retMap st))
                 calls
      end
  end.

Definition cur_fold_calls (mutations : list SignedKV)
    (leaves : list (option MapLeaf)) : list (option Entry * SignedKV) :=
  match build_leafMap leaves ∅ with
  | None => []
  | Some cur => mutate_calls (fold_left cur_one mutations (mkLoop cur []))
  end.

End ApplyMutationsCur.

(** ** Map and log messages *)

Record MapperMetadata := mkMapperMetadata {
  HighestFullyCompletedSeq : Z
}.

Record SignedMapRoot := mkSignedMapRoot {
  TimestampNanos : Z;
  RootHash : bytes;
  Metadata : option MapperMetadata;
  MapId : Z;
  MapRevision : Z
}.

Record SignedLogRoot := mkSignedLogRoot {
  LogTimestampNanos : Z;
  LogRootHash : bytes;
  TreeSize : Z
}.

Record MapLeafInclusion := mkMapLeafInclusion {
  Leaf : option MapLeaf;
  Inclusion : list bytes
}.

Record Mutation := mkMutation {
  Update : SignedKV;
  Proof_ : option MapLeafInclusion
}.

Record GetMutationsResponse := mkGetMutationsResponse {
  Epoch : Z;
  Smr : option SignedMapRoot;
  LogRoot : option SignedLogRoot;
  LogConsistency : list bytes;
  LogInclusion : list bytes;
  Mutations : list Mutation
}.

Definition GetMetadata (r : option SignedMapRoot) : option MapperMetadata :=
  match r with Some r => Metadata r | None => None end.
Definition GetHighestFullyCompletedSeq (md : option MapperMetadata) : Z :=
  match md with Some md => HighestFullyCompletedSeq md | None => 0 end.
Definition GetMapRevision (r : option SignedMapRoot) : Z :=
  match r with Some r => MapRevision r | None => 0 end.
Definition GetTimestampNanos (r : option SignedMapRoot) : Z :=
  match r with Some r => TimestampNanos r | None => 0 end.
Definition GetTreeSize (r : option SignedLogRoot) : Z :=
  match r with Some r => TreeSize r | None => 0 end.

(** 64-bit conversions: [uint64(x)] and [int64(x)] keep the low 64 bits. *)
Definition to_uint64 (x : Z) : Z := x mod 2 ^ 64.
Definition to_int64 (x : Z) : Z := (x + 2 ^ 63) mod 2 ^ 64 - 2 ^ 63.

(** ** Calls to the collaborators

    Every remote call and transaction step of a run is recorded with
    its answer, and every channel send with the value sent, oldest
    first. *)
Inductive Event :=
| EvGetSignedMapRoot (map_id : Z) (resp : error + option SignedMapRoot)
| EvGetLeaves (map_id : Z) (indexes : list bytes) (revision : Z)
    (resp : error + list MapLeafInclusion)
| EvSetLeaves (map_id : Z) (leaves : list MapLeaf) (mapper : MapperMetadata)
    (resp : error + option SignedMapRoot)
| EvGetLatestSignedLogRoot (log_id : Z) (resp : error + option SignedLogRoot)
| EvQueueLeaf (log_id : Z) (leaf_value leaf_identity_hash : bytes)
    (resp : error + unit)
| EvGetConsistencyProof (log_id first_tree_size second_tree_size : Z)
    (resp : error + list bytes)
| EvGetInclusionProof (log_id leaf_index tree_size : Z)
    (resp : error + list bytes)
| EvNewTxn (resp : error + unit)
| EvReadAll (start_sequence : Z) (resp : error + Z * list SignedKV)
| EvRollback (resp : error + unit)
| EvCommit (resp : error + unit)
| EvChanSend (ch : nat) (m : option GetMutationsResponse).

Definition is_SetLeaves (e : Event) : bool :=
  match e with EvSetLeaves _ _ _ _ => true | _ => false end.
Definition is_GetLeaves (e : Event) : bool :=
  match e with EvGetLeaves _ _ _ _ => true | _ => false end.
Definition is_QueueLeaf (e : Event) : bool :=
  match e with EvQueueLeaf _ _ _ _ => true | _ => false end.
Definition is_ChanSend (e : Event) : bool :=
  match e with EvChanSend _ _ => true | _ => false end.

(** The collaborators, as transitions of an outside world [W]. *)
Record Services (W : Type) := mkServices {
  tmap_GetSignedMapRoot : Z -> W -> (error + option SignedMapRoot) * W;
  tmap_GetLeaves : Z -> list bytes -> Z -> W -> (error + list MapLeafInclusion) * W;
  tmap_SetLeaves : Z -> list MapLeaf -> MapperMetadata -> W ->
                   (error + option SignedMapRoot) * W;
  tlog_GetLatestSignedLogRoot : Z -> W -> (error + option SignedLogRoot) * W;
  tlog_QueueLeaf : Z -> bytes -> bytes -> W -> (error + unit) * W;
  tlog_GetConsistencyProof : Z -> Z -> Z -> W -> (error + list bytes) * W;
  tlog_GetInclusionProof : Z -> Z -> Z -> W -> (error + list bytes) * W;
  factory_NewTxn : W -> (error + unit) * W;
  mutations_ReadAll : Z -> W -> (error + Z * list SignedKV) * W;
  txn_Rollback : W -> (error + unit) * W;
  txn_Commit : W -> (error + unit) * W;
  json_Marshal : option SignedMapRoot -> error + bytes;
  sha256_Sum256 : bytes -> bytes;
  entry_FromLeafValue : bytes -> error + option Entry;
  mutator_Mutate : option Entry -> SignedKV -> error + bytes;
  map_range_order : list MapLeaf -> list MapLeaf
}.
Arguments tmap_GetSignedMapRoot {W}.
Arguments tmap_GetLeaves {W}.
Arguments tmap_SetLeaves {W}.
Arguments tlog_GetLatestSignedLogRoot {W}.
Arguments tlog_QueueLeaf {W}.
Arguments tlog_GetConsistencyProof {W}.
Arguments tlog_GetInclusionProof {W}.
Arguments factory_NewTxn {W}.
Arguments mutations_ReadAll {W}.
Arguments txn_Rollback {W}.
Arguments txn_Commit {W}.
Arguments json_Marshal {W}.
Arguments sha256_Sum256 {W}.
Arguments entry_FromLeafValue {W}.
Arguments mutator_Mutate {W}.
Arguments map_range_order {W}.

(** ** The monad of sequencer code: world state, call trace, errors *)

Definition M (W A : Type) : Type := W -> outcome A * W * list Event.

Definition ret {W A} (a : A) : M W A := fun w => (Ret a, w, []).
Definition fail {W A} (e : error) : M W A := fun w => (Fail e, w, []).
Definition panic {W A} : M W A := fun w => (Panic, w, []).

Definition bind {W A B} (m : M W A) (f : A -> M W B) : M W B :=
  fun w =>
    match m w with
    | (Ret a, w1, t1) =>
        match f a w1 with (b, w2, t2) => (b, w2, t1 ++ t2) end
    | (Fail e, w1, t1) => (Fail e, w1, t1)
    | (Panic, w1, t1) => (Panic, w1, t1)
    end.

(** [try m] is the Go idiom [x, err := m(); if err != nil { ... }]: the
    error becomes a value, a panic still unwinds. *)
Definition try {W A} (m : M W A) : M W (error + A) :=
  fun w =>
    match m w with
    | (Ret a, w1, t1) => (Ret (inr a), w1, t1)
    | (Fail e, w1, t1) => (Ret (inl e), w1, t1)
    | (Panic, w1, t1) => (Panic, w1, t1)
    end.

(** One call to a collaborator, recorded as [ev]. *)
Definition call {W A} (ev : error + A -> Event)
    (step : W -> (error + A) * W) : M W (error + A) :=
  fun w => match step w with (r, w1) => (Ret r, w1, [ev r]) end.

Definition emit {W} (ev : Event) : M W unit := fun w => (Ret tt, w, [ev]).

Declare Scope seq_scope.
Delimit Scope seq_scope with seq.
Notation "'let*' x ':=' m 'in' k" := (bind m (fun x => k))
  (at level 10, x name, m at level 100, k at level 200) : seq_scope.
Notation "'do*' m 'in' k" := (bind m (fun _ => k))
  (at level 10, m at level 100, k at level 200) : seq_scope.

(** ** The sequencer *)

Record Sequencer := mkSequencer {
  mapID : Z;
  logID : Z;
  mChannels : list nat
}.

Section SequencerCode.

Context {W : Type}.
Variable svc : Services W.
Variable s : Sequencer.

Local Open Scope seq_scope.

(** [queueLogLeaf]: marshal the root to JSON, hash it, queue it. *)
Definition queueLogLeaf (log_id : Z) (smr : option SignedMapRoot) : M W unit :=
  match json_Marshal svc smr with
  | inl err => fail err
  | inr smrJSON =>
      let idHash := sha256_Sum256 svc smrJSON in
      let* r := call (EvQueueLeaf log_id smrJSON idHash)
                     (tlog_QueueLeaf svc log_id smrJSON idHash) in
      match r with
      | inl err => fail (ErrWrap "trillianLog.QueueLeaf" err)
      | inr _ => ret tt
      end
  end.

Definition Initialize : M W unit :=
  let* logRoot := call (EvGetLatestSignedLogRoot (logID s))
                       (tlog_GetLatestSignedLogRoot svc (logID s)) in
  match logRoot with
  | inl err => fail (ErrWrap "GetLatestSignedLogRoot" err)
  | inr logRoot =>
      let* mapRoot := call (EvGetSignedMapRoot (mapID s))
                           (tmap_GetSignedMapRoot svc (mapID s)) in
      match mapRoot with
      | inl err => fail (ErrWrap "GetSignedMapRoot" err)
      | inr mapRoot =>
          if (GetTreeSize logRoot =? 0) && (GetMapRevision mapRoot =? 0)
          then queueLogLeaf (logID s) mapRoot
          else ret tt
      end
  end.

(** [newMutations]: one read transaction against the mutation source. *)
Definition newMutations (startSequence : Z) : M W (list SignedKV * Z) :=
  let* txn := call EvNewTxn (factory_NewTxn svc) in
  match txn with
  | inl err => fail (ErrWrap "NewDBTxn()" err)
  | inr _ =>
      let* r := call (EvReadAll (to_uint64 startSequence))
                     (mutations_ReadAll svc (to_uint64 startSequence)) in
      match r with
      | inl err =>
          do* call EvRollback (txn_Rollback svc) in
          fail (ErrWrap "ReadAll" err)
      | inr (maxSequence, mutations) =>
          let* c := call EvCommit (txn_Commit svc) in
          match c with
          | inl err => fail (ErrWrap "txn.Commit()" err)
          | inr _ => ret (mutations, to_int64 maxSequence)
          end
      end
  end.

(** [mutations[i].Proof = m] for the i-th inclusion of the answer;
    an answer longer than the batch indexes out of range. *)
Fixpoint bind_proofs (mutations : list Mutation)
    (inclusions : list MapLeafInclusion) : option (list Mutation) :=
  match inclusions, mutations with
  | [], _ => Some mutations
  | _ :: _, [] => None
  | m :: ms, mu :: mus =>
      option_map (cons (mkMutation (Update mu) (Some m))) (bind_proofs mus ms)
  end.

Definition logProofs (firstTreeSize epoch : Z)
    : M W (option SignedLogRoot * list bytes * list bytes) :=
  let* logRoot := call (EvGetLatestSignedLogRoot (logID s))
                       (tlog_GetLatestSignedLogRoot svc (logID s)) in
  match logRoot with
  | inl _ => fail (ErrGrpcInternal "Cannot fetch SignedLogRoot")
  | inr logRoot =>
      let secondTreeSize := GetTreeSize logRoot in
      let* logConsistency :=
        (if firstTreeSize =? 0 then ret []
         else
           let* c := call (EvGetConsistencyProof (logID s)
                                      firstTreeSize secondTreeSize)
                          (tlog_GetConsistencyProof svc (logID s)
                             firstTreeSize secondTreeSize) in
           match c with
           | inl _ => fail (ErrGrpcInternal "Cannot fetch log consistency proof")
           | inr hashes => ret hashes
           end) in
      let* logInclusion := call (EvGetInclusionProof (logID s)
                                            epoch secondTreeSize)
                                (tlog_GetInclusionProof svc (logID s)
                                   epoch secondTreeSize) in
      match logInclusion with
      | inl _ => fail (ErrGrpcInternal "Cannot fetch log inclusion proof")
      | inr hashes => ret (logRoot, logConsistency, hashes)
      end
  end.

(** The part of [CreateEpoch] after the batch was read and found
    worth an epoch. *)
Definition buildEpoch (mRange : list SignedKV) (seq : Z)
    : M W (option GetMutationsResponse) :=
  let mutations := map (fun m => mkMutation m None) mRange in
  let indexes := map (fun m => GetKey (GetKeyValue m)) mRange in
  let* getResp := call (EvGetLeaves (mapID s) indexes (-1))
                       (tmap_GetLeaves svc (mapID s) indexes (-1)) in
  match getResp with
  | inl err => fail err
  | inr inclusions =>
      let leaves := map Leaf inclusions in
      match bind_proofs mutations inclusions with
      | None => panic
      | Some mutations =>
          match applyMutations (entry_FromLeafValue svc) (mutator_Mutate svc)
                  (map_range_order svc) mRange leaves with
          | Panic => panic
          | Fail err => fail err
          | Ret newLeaves =>
              let mapper := mkMapperMetadata seq in
              let* setResp := call (EvSetLeaves (mapID s) newLeaves mapper)
                                   (tmap_SetLeaves svc (mapID s) newLeaves mapper) in
              match setResp with
              | inl err => fail err
              | inr mapRoot =>
                  let revision := GetMapRevision mapRoot in
                  do* queueLogLeaf (logID s) mapRoot in
                  let respEpoch := to_int64 (GetMapRevision mapRoot - 1) in
                  let* proofs := logProofs 0 respEpoch in
                  let '(logRoot, logConsistency, logInclusion) := proofs in
                  ret (Some (mkGetMutationsResponse revision mapRoot logRoot
                               logConsistency logInclusion mutations))
              end
          end
      end
  end.

Definition CreateEpoch (forceNewEpoch : bool)
    : M W (option GetMutationsResponse) :=
  let* rootResp := call (EvGetSignedMapRoot (mapID s))
                        (tmap_GetSignedMapRoot svc (mapID s)) in
  match rootResp with
  | inl err => fail (ErrWrap "GetSignedMapRoot" err)
  | inr mapRoot =>
      let startSequence := GetHighestFullyCompletedSeq (GetMetadata mapRoot) in
      let* r := try (newMutations startSequence) in
      match r with
      | inl err => fail (ErrWrap "newMutations" err)
      | inr (mRange, seq) =>
          if (length mRange =? 0)%nat && negb forceNewEpoch
          then ret None
          else buildEpoch mRange seq
      end
  end.

(** [RegisterMutationsChannel] appends the channel to [mChannels]. *)
Definition RegisterMutationsChannel (ch : nat) : Sequencer :=
  mkSequencer (mapID s) (logID s) (mChannels s ++ [ch]).

(** [disseminateMutations]: one send per registered channel, in
    registration order. *)
Fixpoint send_all (chans : list nat) (m : option GetMutationsResponse)
    : M W unit :=
  match chans with
  | [] => ret tt
  | ch :: rest => do* emit (EvChanSend ch m) in send_all rest m
  end.

Definition disseminateMutations (m : option GetMutationsResponse) : M W unit :=
  send_all (mChannels s) m.

(** Body of the driver loop of [StartSigning] for one tick [f]: the
    error of [CreateEpoch] is logged, and whatever [CreateEpoch]
    returned (nil on error) goes to the channels. *)
Definition epochTick (f : bool) : M W unit :=
  let* r := try (CreateEpoch f) in
  let mutations := match r with inl _ => None | inr m => m end in
  disseminateMutations mutations.

Fixpoint epochTicks (fs : list bool) : M W unit :=
  match fs with
  | [] => ret tt
  | f :: rest => do* epochTick f in epochTicks rest
  end.

End SequencerCode.

(** ** The tick generator *)

(** Instants are nanoseconds since the Unix epoch; a [time.Duration] is
    an [int64] count of nanoseconds. [Time.Sub] saturates at the ends
    of the [Duration] range, and [+] on durations wraps. *)
Definition minDuration : Z := - 2 ^ 63.
Definition maxDuration : Z := 2 ^ 63 - 1.

Definition time_Sub (t u : Z) : Z :=
  Z.max minDuration (Z.min maxDuration (t - u)).

(** [(now.Sub(last) + minElapsed) >= maxElapsed] *)
Definition tick_due (now last minElapsed maxElapsed : Z) : bool :=
  maxElapsed <=? to_int64 (time_Sub now last + minElapsed).

Section Ticks.

(** A [util.TimeSource]: each call of [Now] reads the clock again. *)
Context {Clock : Type}.
Variable Now : Clock -> Z * Clock.

(** The test before the loop; gives the values sent, [last] and the
    clock afterwards. *)
Definition ticks_start (clk : Clock) (last minElapsed maxElapsed : Z)
    : list bool * Z * Clock :=
  let (now, clk1) := Now clk in
  if tick_due now last minElapsed maxElapsed
  then let (now', clk2) := Now clk1 in ([true], now', clk2)
  else ([], last, clk1).

(** [for now := range minTick]. *)
Fixpoint ticks_loop (last : Z) (minTick : list Z) (minElapsed maxElapsed : Z)
    : list bool * Z :=
  match minTick with
  | [] => ([], last)
  | now :: rest =>
      if tick_due now last minElapsed maxElapsed
      then let (bs, l) := ticks_loop now rest minElapsed maxElapsed in
           (true :: bs, l)
      else let (bs, l) := ticks_loop last rest minElapsed maxElapsed in
           (false :: bs, l)
  end.

(** What the goroutine of [genEpochTicks] has sent on [enforce], and
    its [last], once the firings [minTick] have been consumed. *)
Definition genEpochTicks (clk : Clock) (last : Z) (minTick : list Z)
    (minElapsed maxElapsed : Z) : list bool * Z * Clock :=
  let '(b0, last1, clk') := ticks_start clk last minElapsed maxElapsed in
  let (bs, lastn) := ticks_loop last1 minTick minElapsed maxElapsed in
  (b0 ++ bs, lastn, clk').

End Ticks.

(** ** StartSigning *)

Section Driver.

Context {W Clock : Type}.
Variable svc : Services W.
Variable s : Sequencer.
Variable Now : Clock -> Z * Clock.

Local Open Scope seq_scope.

(** [time.NewTicker d]: Go panics on a non-positive interval; otherwise
    the ticker's channel delivers the firings [firings]. *)
Definition time_NewTicker (d : Z) (firings : list Z) : M W (list Z) :=
  if d <=? 0 then panic else ret firings.

(** [StartSigning] up to the ticker firings [minTick]. *)
Definition StartSigning (clk : Clock) (minTick : list Z)
    (minInterval maxInterval : Z) : M W unit :=
  do* try (Initialize svc s) in
  let* rootResp := call (EvGetSignedMapRoot (mapID s))
                        (tmap_GetSignedMapRoot svc (mapID s)) in
  let* mapRoot :=
    match rootResp with
    | inr mapRoot => ret mapRoot
    | inl _ =>
        do* try (CreateEpoch svc s true) in
        let* again := call (EvGetSignedMapRoot (mapID s))
                           (tmap_GetSignedMapRoot svc (mapID s)) in
        ret (match again with inr mapRoot => mapRoot | inl _ => None end)
    end in
  let last := GetTimestampNanos mapRoot in
  let* tc := time_NewTicker minInterval minTick in
  let '(fs, _, _) := genEpochTicks Now clk last tc minInterval maxInterval in
  epochTicks svc s fs.

End Driver.

(** ** A small directory to run the code on *)

Module Sample.

(** A leaf value starting with [0xff] does not parse; an empty one
    stands for "no entry yet". *)
Definition FromLeafValue (v : bytes) : error + option Entry :=
  match v with
  | [] => inr None
  | Byte.xff :: _ => inl (ErrExternal "proto: cannot parse")
  | _ => inr (Some (mkEntry v [] []))
  end.

(** A mutation with an empty value is refused; otherwise the new leaf
    value is the mutation's value followed by the commitment of the
    entry it replaces. *)
Definition Mutate (old : option Entry) (m : SignedKV) : error + bytes :=
  match GetKeyValue m with
  | Some (mkKeyValue _ (b :: v)) =>
      inr (b :: v ++ match old with Some e => Commitment e | None => [] end)
  | _ => inl (ErrExternal "invalid mutation")
  end.

Definition range_order (l : list MapLeaf) : list MapLeaf := l.

Definition kv (k v : bytes) : SignedKV := mkSignedKV (Some (mkKeyValue k v)) [].

Definition keyA : bytes := [Byte.x0a].
Definition keyB : bytes := [Byte.x0b].
(** Two keys longer than 32 bytes with the same first 32 bytes. *)
Definition keyLong1 : bytes := replicate 32 Byte.x0c ++ [Byte.x01].
Definition keyLong2 : bytes := replicate 32 Byte.x0c ++ [Byte.x02].

(** The outside world: the map head, the log's leaves, and what the
    mutation source holds. *)
Record World := mkWorld {
  w_root : option SignedMapRoot;
  w_log : list bytes;
  w_pending : list SignedKV;
  w_maxseq : Z
}.

Definition marshal (smr : option SignedMapRoot) : error + bytes :=
  inr (Byte.x7b :: replicate (Z.to_nat (GetMapRevision smr)) Byte.x31
         ++ [Byte.x7d]).

Definition digest (b : bytes) : bytes := Byte.x00 :: b.

Definition svc : Services World := {|
  tmap_GetSignedMapRoot := fun _ w => (inr (w_root w), w);
  tmap_GetLeaves := fun _ idx _ w =>
    (inr (map (fun i => mkMapLeafInclusion (Some (mkMapLeaf i [])) []) idx), w);
  tmap_SetLeaves := fun id _ md w =>
    let r := Some (mkSignedMapRoot 0 [] (Some md) id (GetMapRevision (w_root w) + 1)) in
    (inr r, mkWorld r (w_log w) (w_pending w) (w_maxseq w));
  tlog_GetLatestSignedLogRoot := fun _ w =>
    (inr (Some (mkSignedLogRoot 0 [] (Z.of_nat (length (w_log w))))), w);
  tlog_QueueLeaf := fun _ v _ w =>
    (inr tt, mkWorld (w_root w) (w_log w ++ [v]) (w_pending w) (w_maxseq w));
  tlog_GetConsistencyProof := fun _ _ _ w => (inr [], w);
  tlog_GetInclusionProof := fun _ _ _ w => (inr [], w);
  factory_NewTxn := fun w => (inr tt, w);
  mutations_ReadAll := fun _ w => (inr (w_maxseq w, w_pending w), w);
  txn_Rollback := fun w => (inr tt, w);
  txn_Commit := fun w => (inr tt, w);
  json_Marshal := marshal;
  sha256_Sum256 := digest;
  entry_FromLeafValue := FromLeafValue;
  mutator_Mutate := Mutate;
  map_range_order := range_order
|}.

Definition seq1 : Sequencer := mkSequencer 1 2 [0%nat; 1%nat].

(** Empty map at revision 0, empty log. *)
Definition fresh (pending : list SignedKV) (maxseq : Z) : World :=
  mkWorld (Some (mkSignedMapRoot 0 [] None 1 0)) [] pending maxseq.

(** A map at revision 3 over a log that is still empty. *)
Definition behind : World :=
  mkWorld (Some (mkSignedMapRoot 0 [] (Some (mkMapperMetadata 12)) 1 3))
          [] [] 12.

(** A clock that advances by one nanosecond per reading. *)
Definition Now (c : Z) : Z * Z := (c, c + 1).

End Sample.

(** ** The sample directory with faults injected *)

Module Faulty.

(** Which collaborators are down, and whether the map answers GetLeaves
    with one inclusion too many, holding no leaf. *)
Record Faults := mkFaults {
  root_down : bool;
  read_down : bool;
  set_down : bool;
  queue_down : bool;
  logroot_down : bool;
  long_answer : bool
}.

Definition none : Faults := mkFaults false false false false false false.

Definition down : error := ErrExternal "rpc error: code = Unavailable".

Definition svc (f : Faults) : Services Sample.World := {|
  tmap_GetSignedMapRoot := fun id w =>
    if root_down f then (inl down, w)
    else tmap_GetSignedMapRoot Sample.svc id w;
  tmap_GetLeaves := fun id idx rev w =>
    if long_answer f
    then (inr (map (fun i => mkMapLeafInclusion (Some (mkMapLeaf i [])) []) idx
               ++ [mkMapLeafInclusion None []]), w)
    else tmap_GetLeaves Sample.svc id idx rev w;
  tmap_SetLeaves := fun id leaves md w =>
    if set_down f then (inl down, w)
    else tmap_SetLeaves Sample.svc id leaves md w;
  tlog_GetLatestSignedLogRoot := fun id w =>
    if logroot_down f then (inl down, w)
    else tlog_GetLatestSignedLogRoot Sample.svc id w;
  tlog_QueueLeaf := fun id v h w =>
    if queue_down f then (inl down, w)
    else tlog_QueueLeaf Sample.svc id v h w;
  tlog_GetConsistencyProof := tlog_GetConsistencyProof Sample.svc;
  tlog_GetInclusionProof := tlog_GetInclusionProof Sample.svc;
  factory_NewTxn := factory_NewTxn Sample.svc;
  mutations_ReadAll := fun start w =>
    if read_down f then (inl down, w)
    else mutations_ReadAll Sample.svc start w;
  txn_Rollback := txn_Rollback Sample.svc;
  txn_Commit := txn_Commit Sample.svc;
  json_Marshal := json_Marshal Sample.svc;
  sha256_Sum256 := sha256_Sum256 Sample.svc;
  entry_FromLeafValue := entry_FromLeafValue Sample.svc;
  mutator_Mutate := mutator_Mutate Sample.svc;
  map_range_order := map_range_order Sample.svc
|}.

End Faulty.

(** ** Vocabulary of the design document *)

(** The distinct elements of a list, in the order of their first
    occurrence. *)
Fixpoint first_occurrences (seen l : list bytes) : list bytes :=
  match l with
  | [] => []
  | x :: rest =>
      if decide (x ∈ seen) then first_occurrences seen rest
      else x :: first_occurrences (x :: seen) rest
  end.

Definition distinct_indexes (batch : list SignedKV) : list bytes :=
  first_occurrences [] (map (fun m => GetKey (GetKeyValue m)) batch).

(** The index lists of the [GetLeaves] requests of a run. *)
Definition GetLeaves_requests (tr : list Event) : list (list bytes) :=
  omap (fun e => match e with
                 | EvGetLeaves _ indexes _ _ => Some indexes
                 | _ => None
                 end) tr.

(** "Both trees agree on emptiness or both are non-empty". *)
Definition trees_agree (tree_size map_revision : Z) : Prop :=
  (tree_size = 0 ∧ map_revision = 0) ∨ (tree_size ≠ 0 ∧ map_revision ≠ 0).

(** Outcome, final world and trace of a run. *)
Definition outcome_of {W A} (r : outcome A * W * list Event) : outcome A := r.1.1.
Definition trace_of {W A} (r : outcome A * W * list Event) : list Event := r.2.

(** A stretch of trace without [GetLeaves], [SetLeaves], [QueueLeaf]
    and channel sends. *)
Definition quiet (tr : list Event) : Prop :=
  Forall (fun e => is_SetLeaves e = false ∧ is_QueueLeaf e = false ∧
                   is_ChanSend e = false ∧ is_GetLeaves e = false) tr.

(** The trace of [disseminateMutations m]. *)
Definition sends (chans : list nat) (m : option GetMutationsResponse)
    : list Event :=
  map (fun ch => EvChanSend ch m) chans.

(** ** Further vocabulary for the traces and the batch *)

Definition is_GetConsistencyProof (e : Event) : bool :=
  match e with EvGetConsistencyProof _ _ _ _ => true | _ => false end.
Definition is_GetInclusionProof (e : Event) : bool :=
  match e with EvGetInclusionProof _ _ _ _ => true | _ => false end.
Definition is_Commit (e : Event) : bool :=
  match e with EvCommit _ => true | _ => false end.
Definition is_Rollback (e : Event) : bool :=
  match e with EvRollback _ => true | _ => false end.
Definition sent_to (ch : nat) (e : Event) : bool :=
  match e with EvChanSend c _ => Nat.eqb c ch | _ => false end.

(** The normalized indexes of the mutations of a batch that get as far
    as writing a leaf, in batch order, with repetitions. *)
Definition accepted_indexes (FromLeafValue : bytes -> error + option Entry)
    (Mutate : option Entry -> SignedKV -> error + bytes)
    (leafMap : gmap bytes MapLeaf) (mutations : list SignedKV) : list bytes :=
  omap (fun m => match written FromLeafValue Mutate leafMap m with
                 | Some _ => Some (toArray (GetKey (GetKeyValue m)))
                 | None => None
                 end) mutations.

(** The firings of a ticker that started at [start] and fires every
    [step]: [start + step], [start + 2 step], ... *)
Definition regular_ticks (start step : Z) (n : nat) : list Z :=
  map (fun i => start + Z.of_nat i * step) (seq 1 n).

(** ** Lookup and deduplication, stated on the lists *)

(** What the two maps of [applyMutations] achieve, said without them.
    The first loop stores each fetched leaf under [toArray] of its
    index, a later leaf replacing an earlier one: the fetched leaf for a
    32-byte index [k] is the last leaf of the answer whose index has the
    32-byte form [k]. *)
Definition fetched_for (leaves : list MapLeaf) (k : bytes) : option MapLeaf :=
  last (filter (fun l => toArray (Index l) = k) leaves).

(** The prior entry of mutation [m]: the fetched leaf for the 32-byte
    form of its key, parsed; nil when no such leaf was fetched. *)
Definition fetched_prior (FromLeafValue : bytes -> error + option Entry)
    (leaves : list MapLeaf) (m : SignedKV) : error + option Entry :=
  match fetched_for leaves (toArray (GetKey (GetKeyValue m))) with
  | Some leaf => FromLeafValue (GetLeafValue leaf)
  | None => inr None
  end.

(** The Mutator call due for [m]: none when its fetched leaf does not
    parse. *)
Definition fetched_call (FromLeafValue : bytes -> error + option Entry)
    (leaves : list MapLeaf) (m : SignedKV) : option (option Entry * SignedKV) :=
  match fetched_prior FromLeafValue leaves m with
  | inl _ => None
  | inr oldValue => Some (oldValue, m)
  end.

(** The leaf of an accepted mutation: its fetched leaf parses (or there
    is none) and the Mutator accepts it; the leaf has the mutation's key
    as it came and the Mutator's answer as its value. *)
Definition accepted (FromLeafValue : bytes -> error + option Entry)
    (Mutate : option Entry -> SignedKV -> error + bytes)
    (leaves : list MapLeaf) (m : SignedKV) : option MapLeaf :=
  match fetched_prior FromLeafValue leaves m with
  | inl _ => None
  | inr oldValue =>
      match Mutate oldValue m with
      | inl _ => None
      | inr newValue => Some (mkMapLeaf (GetKey (GetKeyValue m)) newValue)
      end
  end.

(** ** The tick sequence in the words of the design document *)

(** One reading [now] of the clock at startup, [last := now] after the
    single true, and the comparisons [t - last + minInterval >=
    maxInterval] over the integers. Kept apart from the code's
    [genEpochTicks] above, to be compared with it. *)
Fixpoint documented_loop (last : Z) (minTick : list Z)
    (minInterval maxInterval : Z) : list bool :=
  match minTick with
  | [] => []
  | t :: rest =>
      if maxInterval <=? t - last + minInterval
      then true :: documented_loop t rest minInterval maxInterval
      else false :: documented_loop last rest minInterval maxInterval
  end.

Definition documented_ticks (now last : Z) (minTick : list Z)
    (minInterval maxInterval : Z) : list bool :=
  if maxInterval <=? now - last + minInterval
  then true :: documented_loop now minTick minInterval maxInterval
  else documented_loop last minTick minInterval maxInterval.

(** * Properties *)

(** ** toArray *)

Lemma toArray_length (b : bytes) : length (toArray b) = 32%nat.
Proof.
  unfold toArray. rewrite length_app, length_take, length_replicate. lia.
Qed.

Lemma toArray_short (b : bytes) :
  (length b <= 32)%nat → toArray b = b ++ replicate (32 - length b)%nat Byte.x00.
Proof. intros Hb. unfold toArray. by rewrite take_ge. Qed.

Lemma toArray_long (b : bytes) :
  (32 <= length b)%nat → toArray b = take 32 b.
Proof.
  intros Hb. unfold toArray.
  replace (32 - length b)%nat with 0%nat by lia. apply app_nil_r.
Qed.

Lemma toArray_take (b1 b2 : bytes) :
  take 32 b1 = take 32 b2 → toArray b1 = toArray b2.
Proof.
  intros Ht. unfold toArray. rewrite Ht. f_equal. f_equal.
  assert (Hl : length (take 32 b1) = length (take 32 b2)) by by rewrite Ht.
  rewrite !length_take in Hl. lia.
Qed.

(** ** applyMutations *)

Section ApplyMutationsTheory.

Variable FromLeafValue : bytes -> error + option Entry.
Variable Mutate : option Entry -> SignedKV -> error + bytes.
Variable range_order : list MapLeaf -> list MapLeaf.

Local Abbreviation idx m := (toArray (GetKey (GetKeyValue m))).
Local Abbreviation prior := (prior_of FromLeafValue).
Local Abbreviation wr := (written FromLeafValue Mutate).
Local Abbreviation mcall := (mutator_call FromLeafValue).
Local Abbreviation loop := (apply_loop FromLeafValue Mutate).
Local Abbreviation one := (apply_one FromLeafValue Mutate).
Local Abbreviation run := (applyMutations_run FromLeafValue Mutate range_order).

Lemma build_leafMap_Some (ls : list MapLeaf) (lm0 : gmap bytes MapLeaf) :
  build_leafMap (Some <$> ls) lm0
  = Some (fold_left (fun lm l => <[toArray (Index l) := l]> lm) ls lm0).
Proof.
  revert lm0. induction ls as [|l ls IH]; intros lm0; simpl; [done|].
  apply IH.
Qed.

Lemma build_leafMap_of (ls : list MapLeaf) :
  build_leafMap (Some <$> ls) ∅ = Some (leafMap_of ls).
Proof. apply build_leafMap_Some. Qed.

(** One turn of the loop, said through [written] and [mutator_call]. *)
Lemma apply_one_eq lm st m :
  one lm st m
  = mkLoop (match wr lm m with
            | Some leaf => <[idx m := leaf]> (retMap st)
            | None => retMap st
            end)
           (mutate_calls st ++ option_list (mcall lm m)).
Proof.
  unfold apply_one, written, mutator_call.
  destruct (prior lm m) as [e|old]; simpl.
  - rewrite app_nil_r. by destruct st.
  - by destruct (Mutate old m).
Qed.

Lemma apply_loop_cons lm m muts st :
  loop lm (m :: muts) st = loop lm muts (one lm st m).
Proof. reflexivity. Qed.

Lemma apply_loop_snoc lm muts m st :
  loop lm (muts ++ [m]) st = one lm (loop lm muts st) m.
Proof. unfold apply_loop. by rewrite fold_left_app. Qed.

Lemma apply_loop_app lm l1 l2 st :
  loop lm (l1 ++ l2) st = loop lm l2 (loop lm l1 st).
Proof. unfold apply_loop. by rewrite fold_left_app. Qed.

Lemma mutate_calls_loop lm muts st :
  mutate_calls (loop lm muts st) = mutate_calls st ++ omap (mcall lm) muts.
Proof.
  revert st. induction muts as [|m muts IH]; intros st.
  - simpl. by rewrite app_nil_r.
  - rewrite apply_loop_cons, IH, apply_one_eq. simpl. rewrite <- app_assoc. f_equal.
    by destruct (mcall lm m).
Qed.

(** A mutation that writes nothing leaves [retMap] as it was. *)
Lemma retMap_one_None lm st m :
  wr lm m = None → retMap (one lm st m) = retMap st.
Proof. intros Hw. rewrite apply_one_eq. simpl. by rewrite Hw. Qed.

Lemma retMap_loop_congr lm muts st st' :
  retMap st = retMap st' → retMap (loop lm muts st) = retMap (loop lm muts st').
Proof.
  revert st st'. induction muts as [|m muts IH]; intros st st' Heq; [done|].
  rewrite !apply_loop_cons. apply IH. rewrite !apply_one_eq. simpl. by rewrite Heq.
Qed.

(** Where an entry of the final [retMap] comes from. *)
Lemma retMap_loop_lookup lm muts st k leaf :
  retMap (loop lm muts st) !! k = Some leaf →
  (∃ pre m post, muts = pre ++ m :: post ∧ idx m = k ∧ wr lm m = Some leaf ∧
     Forall (fun m' => idx m' = k → wr lm m' = None) post)
  ∨ (retMap st !! k = Some leaf ∧
     Forall (fun m' => idx m' = k → wr lm m' = None) muts).
Proof.
  revert st. induction muts as [|m muts IH]; intros st Hl.
  - right. by split.
  - rewrite apply_loop_cons in Hl.
    destruct (IH _ Hl) as [(pre & m0 & post & -> & Hk & Hw & Hpost)|[Hst Hall]].
    + left. exists (m :: pre), m0, post. by repeat split.
    + rewrite apply_one_eq in Hst. simpl in Hst.
      destruct (wr lm m) as [l|] eqn:Hw.
      * destruct (decide (idx m = k)) as [Hk|Hk].
        -- rewrite Hk, lookup_insert_eq in Hst. inversion Hst; subst l.
           left. exists [], m, muts. by repeat split.
        -- rewrite lookup_insert_ne in Hst by done.
           right. split; [done|]. constructor; [done|done].
      * right. split; [done|]. constructor; [done|done].
Qed.

Lemma retMap_loop_lookup_last lm pre m post st leaf :
  wr lm m = Some leaf →
  Forall (fun m' => idx m' = idx m → wr lm m' = None) post →
  retMap (loop lm (pre ++ m :: post) st) !! idx m = Some leaf.
Proof.
  intros Hw Hpost. rewrite apply_loop_app.
  generalize (loop lm pre st). intros st0.
  rewrite apply_loop_cons.
  assert (H0 : retMap (one lm st0 m) !! idx m = Some leaf).
  { rewrite apply_one_eq. simpl. rewrite Hw. apply lookup_insert_eq. }
  revert H0. generalize (one lm st0 m). clear st0.
  induction Hpost as [|m' post Hm' _ IH]; intros st1 H1; [done|].
  rewrite apply_loop_cons.
  apply IH. rewrite apply_one_eq. simpl.
  destruct (wr lm m') as [l'|] eqn:Hw'; [|done].
  destruct (decide (idx m' = idx m)) as [Heq|Hne].
  - specialize (Hm' Heq). congruence.
  - by rewrite lookup_insert_ne.
Qed.

Lemma retMap_loop_size lm muts st :
  (size (retMap (loop lm muts st)) <= size (retMap st) + length muts)%nat.
Proof.
  revert st. induction muts as [|m muts IH]; intros st; [simpl; lia|].
  rewrite apply_loop_cons.
  etrans; [apply IH|]. rewrite apply_one_eq. simpl.
  destruct (wr lm m) as [l|]; [|lia].
  destruct (retMap st !! idx m) eqn:Hs.
  - rewrite map_size_insert_Some by eauto. lia.
  - rewrite map_size_insert_None by done. lia.
Qed.

Lemma written_Index lm m leaf :
  wr lm m = Some leaf → Index leaf = GetKey (GetKeyValue m).
Proof.
  unfold written. destruct (prior lm m) as [|old]; [done|].
  destruct (Mutate old m); [done|]. by intros [= <-].
Qed.

Lemma written_inv lm m leaf :
  wr lm m = Some leaf →
  ∃ old, prior lm m = inr old ∧ Mutate old m = inr (LeafValue leaf) ∧
         Index leaf = GetKey (GetKeyValue m).
Proof.
  unfold written. destruct (prior lm m) as [|old]; [done|].
  destruct (Mutate old m) as [|v] eqn:Hm; [done|]. intros [= <-]. eauto.
Qed.

(** Dropping a mutation that writes nothing changes no entry. *)
Lemma retMap_loop_drop lm pre m post st :
  wr lm m = None →
  retMap (loop lm (pre ++ m :: post) st) = retMap (loop lm (pre ++ post) st).
Proof.
  intros Hw. rewrite !apply_loop_app.
  rewrite apply_loop_cons.
  apply retMap_loop_congr. by apply retMap_one_None.
Qed.

Lemma run_eq muts ls :
  run muts (Some <$> ls)
  = (Ret (range_order (map_values
            (retMap (loop (leafMap_of ls) muts (mkLoop ∅ []))))),
     omap (mcall (leafMap_of ls)) muts).
Proof.
  unfold applyMutations_run. rewrite build_leafMap_of. simpl.
  by rewrite mutate_calls_loop.
Qed.

End ApplyMutationsTheory.

Section ApplyMutationsClaims.

Variable FromLeafValue : bytes -> error + option Entry.
Variable Mutate : option Entry -> SignedKV -> error + bytes.
Variable range_order : list MapLeaf -> list MapLeaf.
Hypothesis range_order_perm : ∀ l, range_order l ≡ₚ l.

Local Abbreviation idx m := (toArray (GetKey (GetKeyValue m))).
Local Abbreviation prior := (prior_of FromLeafValue).
Local Abbreviation wr := (written FromLeafValue Mutate).
Local Abbreviation mcall := (mutator_call FromLeafValue).
Local Abbreviation loop := (apply_loop FromLeafValue Mutate).
Local Abbreviation run := (applyMutations_run FromLeafValue Mutate range_order).
Local Abbreviation final lm muts := (retMap (loop lm muts (mkLoop ∅ []))).

Lemma elem_of_map_values (rm : gmap bytes MapLeaf) (leaf : MapLeaf) :
  leaf ∈ map_values rm ↔ ∃ k, rm !! k = Some leaf.
Proof.
  unfold map_values. rewrite list_elem_of_fmap. split.
  - intros ([k l] & -> & Hin). exists k. by apply elem_of_map_to_list.
  - intros (k & Hk). exists (k, leaf). split; [done|]. by apply elem_of_map_to_list.
Qed.

Lemma elem_of_ret (rm : gmap bytes MapLeaf) (leaf : MapLeaf) :
  leaf ∈ range_order (map_values rm) ↔ ∃ k, rm !! k = Some leaf.
Proof. rewrite range_order_perm. apply elem_of_map_values. Qed.

(** Every entry of the final [retMap] sits under its own normalized index. *)
Lemma final_key lm muts k leaf :
  final lm muts !! k = Some leaf → k = toArray (Index leaf).
Proof.
  intros Hl. apply retMap_loop_lookup in Hl.
  destruct Hl as [(pre & m & post & -> & Hk & Hw & _)|[He _]].
  - apply written_Index in Hw. by rewrite Hw.
  - simpl in He. by rewrite lookup_empty in He.
Qed.

Lemma final_keys_fmap lm muts :
  (toArray ∘ Index) <$> map_values (final lm muts)
  = (map_to_list (final lm muts)).*1.
Proof.
  unfold map_values. rewrite <- list_fmap_compose.
  apply list_fmap_ext. intros i [k l] Hi. simpl.
  symmetry. eapply final_key. apply elem_of_map_to_list.
  eapply list_elem_of_lookup_2. exact Hi.
Qed.

Lemma final_NoDup_norm lm muts :
  NoDup ((toArray ∘ Index) <$> range_order (map_values (final lm muts))).
Proof.
  rewrite range_order_perm, final_keys_fmap. apply NoDup_fst_map_to_list.
Qed.

Lemma final_NoDup lm muts :
  NoDup (Index <$> range_order (map_values (final lm muts))).
Proof.
  apply (NoDup_fmap_1 toArray). rewrite <- list_fmap_compose.
  apply final_NoDup_norm.
Qed.

Lemma final_length lm muts :
  (length (range_order (map_values (final lm muts))) <= length muts)%nat.
Proof.
  rewrite range_order_perm. unfold map_values.
  rewrite length_fmap, length_map_to_list.
  etrans; [apply retMap_loop_size|]. simpl. rewrite map_size_empty. lia.
Qed.

(** Two returned leaves with the same normalized index are one leaf. *)
Lemma final_collide lm muts l1 l2 :
  l1 ∈ range_order (map_values (final lm muts)) →
  l2 ∈ range_order (map_values (final lm muts)) →
  toArray (Index l1) = toArray (Index l2) → l1 = l2.
Proof.
  rewrite !elem_of_ret. intros (k1 & H1) (k2 & H2) Heq.
  pose proof (final_key _ _ _ _ H1). pose proof (final_key _ _ _ _ H2).
  subst k1 k2. rewrite Heq in H1. congruence.
Qed.

Lemma applyMutations_eq muts ls :
  applyMutations FromLeafValue Mutate range_order muts (Some <$> ls)
  = Ret (range_order (map_values (final (leafMap_of ls) muts))).
Proof. unfold applyMutations. by rewrite run_eq. Qed.

Lemma applyMutations_never_fails muts leaves e :
  applyMutations FromLeafValue Mutate range_order muts leaves ≠ Fail e.
Proof.
  unfold applyMutations, applyMutations_run.
  by destruct (build_leafMap leaves ∅).
Qed.

Lemma leafMap_of_lookup ls k leaf :
  leafMap_of ls !! k = Some leaf → leaf ∈ ls ∧ toArray (Index leaf) = k.
Proof.
  unfold leafMap_of.
  assert (Hgen : ∀ lm0 : gmap bytes MapLeaf,
    fold_left (fun lm l => <[toArray (Index l) := l]> lm) ls lm0 !! k = Some leaf →
    (leaf ∈ ls ∧ toArray (Index leaf) = k) ∨ lm0 !! k = Some leaf).
  { induction ls as [|l ls IH]; intros lm0 Hl; simpl in Hl; [by right|].
    destruct (IH _ Hl) as [[Hin Hk]|Hins].
    - left. split; [by right|done].
    - destruct (decide (toArray (Index l) = k)) as [Heq|Hne].
      + rewrite Heq, lookup_insert_eq in Hins. inversion Hins; subst l.
        left. split; [by left|done].
      + rewrite lookup_insert_ne in Hins by done. by right. }
  intros Hl. destruct (Hgen _ Hl) as [?|He]; [done|].
  by rewrite lookup_empty in He.
Qed.

(** C1, as the code has it: the Mutator is called once for each
    mutation, in batch order, whose fetched leaf is absent or parses,
    and the prior entry of that call is the parsed leaf fetched from the
    map for the mutation's index (nil when none was fetched), whatever
    earlier mutations of the batch did; a successful call overwrites the
    entry of [retMap] under the normalized index with the new leaf, and
    any other turn of the loop leaves [retMap] alone. *)
Theorem applyMutations_prior_is_fetched_leaf (muts : list SignedKV)
    (ls : list MapLeaf) :
  snd (run muts (Some <$> ls)) = omap (mcall (leafMap_of ls)) muts ∧
  (∀ old m, (old, m) ∈ snd (run muts (Some <$> ls)) →
     m ∈ muts ∧ prior (leafMap_of ls) m = inr old) ∧
  (∀ pre m,
     final (leafMap_of ls) (pre ++ [m])
     = match prior (leafMap_of ls) m with
       | inl _ => final (leafMap_of ls) pre
       | inr old =>
           match Mutate old m with
           | inl _ => final (leafMap_of ls) pre
           | inr newValue =>
               <[idx m := mkMapLeaf (GetKey (GetKeyValue m)) newValue]>
                 (final (leafMap_of ls) pre)
           end
       end).
Proof.
  rewrite run_eq. simpl. split; [done|]. split.
  - intros old m Hin. apply list_elem_of_omap in Hin.
    destruct Hin as (m' & Hm' & Hc). unfold mutator_call in Hc.
    destruct (prior (leafMap_of ls) m') as [|o] eqn:Hp; [done|].
    inversion Hc; subst. by split.
  - intros pre m. rewrite apply_loop_snoc, apply_one_eq. simpl.
    unfold written. destruct (prior (leafMap_of ls) m) as [|o]; [done|].
    by destruct (Mutate o m).
Qed.

(** C2: the leaves returned by applyMutations have pairwise different
    indexes (raw and normalized), and each returned leaf is the one
    produced by the last mutation, in batch order, for its index whose
    Mutator application succeeded; every index with such a mutation is
    returned. *)
Theorem applyMutations_dedup_last_wins (muts : list SignedKV)
    (ls : list MapLeaf) :
  ∃ ret,
    applyMutations FromLeafValue Mutate range_order muts (Some <$> ls) = Ret ret ∧
    NoDup (Index <$> ret) ∧
    NoDup ((toArray ∘ Index) <$> ret) ∧
    (∀ leaf, leaf ∈ ret →
       ∃ pre m post old,
         muts = pre ++ m :: post ∧
         Index leaf = GetKey (GetKeyValue m) ∧
         prior (leafMap_of ls) m = inr old ∧
         Mutate old m = inr (LeafValue leaf) ∧
         Forall (fun m' => idx m' = idx m → wr (leafMap_of ls) m' = None) post) ∧
    (∀ pre m post old newValue,
       muts = pre ++ m :: post →
       prior (leafMap_of ls) m = inr old →
       Mutate old m = inr newValue →
       Forall (fun m' => idx m' = idx m → wr (leafMap_of ls) m' = None) post →
       mkMapLeaf (GetKey (GetKeyValue m)) newValue ∈ ret).
Proof.
  eexists. split; [apply applyMutations_eq|].
  split; [apply final_NoDup|]. split; [apply final_NoDup_norm|]. split.
  - intros leaf Hin. apply elem_of_ret in Hin. destruct Hin as (k & Hk).
    apply retMap_loop_lookup in Hk.
    destruct Hk as [(pre & m & post & -> & Hi & Hw & Hpost)|[He _]].
    + destruct (written_inv _ _ _ _ _ Hw) as (old & Hp & Hm & HI).
      exists pre, m, post, old. repeat split; try done.
      eapply Forall_impl; [exact Hpost|]. intros m' Hm' Heq. apply Hm'. congruence.
    + simpl in He. by rewrite lookup_empty in He.
  - intros pre m post old v -> Hp Hm Hpost. apply elem_of_ret.
    exists (idx m). apply retMap_loop_lookup_last; [|done].
    unfold written. by rewrite Hp, Hm.
Qed.

(** A mutation that the Mutator refuses can be taken out of the batch:
    the leaves returned are the same, and so are the Mutator calls for
    the mutations before and after it. *)
Lemma applyMutations_drop_refused (pre : list SignedKV) (m : SignedKV)
    (post : list SignedKV) (ls : list MapLeaf) (old : option Entry)
    (err : error) :
  prior (leafMap_of ls) m = inr old →
  Mutate old m = inl err →
  ∃ ret,
    applyMutations FromLeafValue Mutate range_order (pre ++ m :: post)
      (Some <$> ls) = Ret ret ∧
    (length ret <= length (pre ++ m :: post) - 1)%nat ∧
    applyMutations FromLeafValue Mutate range_order (pre ++ post)
      (Some <$> ls) = Ret ret ∧
    snd (run (pre ++ m :: post) (Some <$> ls))
    = snd (run pre (Some <$> ls)) ++ (old, m) :: snd (run post (Some <$> ls)) ∧
    (∀ leaves e,
       applyMutations FromLeafValue Mutate range_order (pre ++ m :: post) leaves
       ≠ Fail e).
Proof.
  intros Hp Hm.
  assert (Hw : wr (leafMap_of ls) m = None).
  { unfold written. by rewrite Hp, Hm. }
  eexists. split; [apply applyMutations_eq|].
  rewrite (retMap_loop_drop _ _ _ _ _ _ _ Hw).
  split; [|split; [by rewrite applyMutations_eq|split]].
  - etrans; [apply final_length|]. rewrite !length_app. simpl. lia.
  - rewrite !run_eq. simpl. rewrite omap_app. simpl.
    unfold mutator_call at 2. by rewrite Hp.
  - intros leaves e. apply applyMutations_never_fails.
Qed.

(** C9: when a leaf was fetched for a mutation's index and its value
    does not deserialize, applyMutations skips the mutation: the run is
    the run of the batch without it, the Mutator is not called on it
    (neither with the parsed entry nor with nil), and no returned leaf
    has its index. *)
Theorem applyMutations_skip_undecodable (pre : list SignedKV) (m : SignedKV)
    (post : list SignedKV) (ls : list MapLeaf) (leaf : MapLeaf)
    (err : error) :
  leafMap_of ls !! idx m = Some leaf →
  FromLeafValue (GetLeafValue leaf) = inl err →
  run (pre ++ m :: post) (Some <$> ls) = run (pre ++ post) (Some <$> ls) ∧
  (∀ old, (old, m) ∉ snd (run (pre ++ m :: post) (Some <$> ls))) ∧
  ∃ ret,
    applyMutations FromLeafValue Mutate range_order (pre ++ m :: post)
      (Some <$> ls) = Ret ret ∧
    ∀ l, l ∈ ret → toArray (Index l) ≠ idx m.
Proof.
  intros Hl Hf.
  assert (Hp : ∀ m', idx m' = idx m → prior (leafMap_of ls) m' = inl err).
  { intros m' Heq. unfold prior_of. by rewrite Heq, Hl. }
  assert (Hw : ∀ m', idx m' = idx m → wr (leafMap_of ls) m' = None).
  { intros m' Heq. unfold written. by rewrite Hp. }
  split; [|split].
  - rewrite !run_eq. f_equal.
    + by rewrite (retMap_loop_drop _ _ _ _ _ _ _ (Hw m eq_refl)).
    + rewrite !omap_app. simpl. unfold mutator_call at 2.
      by rewrite (Hp m eq_refl).
  - intros old Hin. rewrite run_eq in Hin. simpl in Hin.
    apply list_elem_of_omap in Hin. destruct Hin as (m' & _ & Hc).
    unfold mutator_call in Hc.
    destruct (prior (leafMap_of ls) m') as [|o] eqn:Hpm; [done|].
    inversion Hc; subst m'. rewrite (Hp m eq_refl) in Hpm. done.
  - eexists. split; [apply applyMutations_eq|].
    intros l Hin Heq. apply elem_of_ret in Hin. destruct Hin as (k & Hk).
    apply retMap_loop_lookup in Hk.
    destruct Hk as [(pre' & m' & post' & _ & Hi & Hwm & _)|[He _]].
    + pose proof (written_Index _ _ _ _ _ Hwm) as HI.
      rewrite Hw in Hwm; [done|]. by rewrite <- HI.
    + simpl in He. by rewrite lookup_empty in He.
Qed.

(** Keys that agree on their first 32 bytes have one 32-byte form and
    one prior entry, and returned leaves for two such keys are one and
    the same leaf. *)
Lemma first_32_bytes_collide (muts : list SignedKV) (ls : list MapLeaf) :
  (∀ b : bytes,
     length (toArray b) = 32%nat ∧
     ((length b <= 32)%nat →
        toArray b = b ++ replicate (32 - length b)%nat Byte.x00) ∧
     ((32 <= length b)%nat → toArray b = take 32 b)) ∧
  (∀ m1 m2,
     take 32 (GetKey (GetKeyValue m1)) = take 32 (GetKey (GetKeyValue m2)) →
     idx m1 = idx m2 ∧
     prior (leafMap_of ls) m1 = prior (leafMap_of ls) m2) ∧
  ∃ ret,
    applyMutations FromLeafValue Mutate range_order muts (Some <$> ls) = Ret ret ∧
    (∀ l, l ∈ ret → ∃ m, m ∈ muts ∧ Index l = GetKey (GetKeyValue m)) ∧
    (∀ m1 m2 l1 l2,
       take 32 (GetKey (GetKeyValue m1)) = take 32 (GetKey (GetKeyValue m2)) →
       l1 ∈ ret → l2 ∈ ret →
       Index l1 ∈ [GetKey (GetKeyValue m1); GetKey (GetKeyValue m2)] →
       Index l2 ∈ [GetKey (GetKeyValue m1); GetKey (GetKeyValue m2)] →
       l1 = l2).
Proof.
  split; [|split].
  - intros b. split; [apply toArray_length|].
    split; [apply toArray_short|apply toArray_long].
  - intros m1 m2 Ht. apply toArray_take in Ht. split; [done|].
    unfold prior_of. by rewrite Ht.
  - eexists. split; [apply applyMutations_eq|]. split.
    + intros l Hin. apply elem_of_ret in Hin. destruct Hin as (k & Hk).
      apply retMap_loop_lookup in Hk.
      destruct Hk as [(pre & m & post & -> & _ & Hw & _)|[He _]].
      * exists m. split; [|by eapply written_Index].
        apply elem_of_app. right. by left.
      * simpl in He. by rewrite lookup_empty in He.
    + intros m1 m2 l1 l2 Ht H1 H2 HI1 HI2. apply toArray_take in Ht.
      eapply final_collide; [exact H1|exact H2|].
      rewrite !elem_of_cons in HI1, HI2.
      destruct HI1 as [->|[->|HI1]]; [| |by apply elem_of_nil in HI1];
      destruct HI2 as [->|[->|HI2]]; try done; by apply elem_of_nil in HI2.
Qed.

End ApplyMutationsClaims.


(** ** The epoch builder, the initializer and the driver loop *)

Section SequencerTheory.

Context {W : Type}.
Variable svc : Services W.
Variable s : Sequencer.

Local Abbreviation key m := (GetKey (GetKeyValue m)).

Ltac run_cases := repeat (simpl in *; simplify_eq; try case_match).

Ltac case_scrutinee :=
  match goal with
  | |- match ?x with _ => _ end => destruct x eqn:?; simplify_eq
  end.

Lemma quiet_filter (tr : list Event) :
  quiet tr →
  List.filter is_SetLeaves tr = [] ∧ List.filter is_QueueLeaf tr = [] ∧
  List.filter is_ChanSend tr = [].
Proof.
  induction 1 as [|e tr (H1 & H2 & H3 & _) _ (IH1 & IH2 & IH3)]; [done|].
  simpl. by rewrite H1, H2, H3.
Qed.

Lemma quiet_GetLeaves (tr : list Event) :
  quiet tr → GetLeaves_requests tr = [].
Proof.
  induction 1 as [|e tr (_ & _ & _ & H4) _ IH]; [done|].
  unfold GetLeaves_requests in *. destruct e; simpl in *; done.
Qed.

Lemma newMutations_quiet start w out w' tr :
  newMutations svc start w = (out, w', tr) → quiet tr.
Proof.
  unfold newMutations, bind, call, fail, ret. intros H.
  run_cases; repeat constructor.
Qed.

Lemma logProofs_quiet first epoch w out w' tr :
  logProofs svc s first epoch w = (out, w', tr) → quiet tr.
Proof.
  unfold logProofs, bind, call, fail, ret. intros H.
  run_cases; repeat constructor.
Qed.

(** What [newMutations] returns is what [ReadAll] answered, once the
    read transaction is committed. *)
Lemma newMutations_Ret start w mRange seq w' tr :
  newMutations svc start w = (Ret (mRange, seq), w', tr) →
  ∃ maxSequence,
    tr = [EvNewTxn (inr tt); EvReadAll (to_uint64 start) (inr (maxSequence, mRange));
          EvCommit (inr tt)] ∧
    seq = to_int64 maxSequence.
Proof.
  unfold newMutations, bind, call, fail, ret. intros H.
  run_cases. destruct u, u0. eauto.
Qed.

(** The run of [queueLogLeaf], case by case. *)
Lemma queueLogLeaf_run log_id smr w :
  queueLogLeaf svc log_id smr w
  = match json_Marshal svc smr with
    | inl err => (Fail err, w, [])
    | inr smrJSON =>
        let idHash := sha256_Sum256 svc smrJSON in
        let (r, w1) := tlog_QueueLeaf svc log_id smrJSON idHash w in
        (match r with
         | inl err => Fail (ErrWrap "trillianLog.QueueLeaf" err)
         | inr _ => Ret tt
         end, w1, [EvQueueLeaf log_id smrJSON idHash r])
    end.
Proof.
  unfold queueLogLeaf, bind, call, fail, ret.
  destruct (json_Marshal svc smr); [done|].
  destruct (tlog_QueueLeaf _ _ _ _ _) as [[e|u] w1]; done.
Qed.

(** Shape of the trace of [buildEpoch]: one [GetLeaves] for the keys of
    the batch, one key per mutation; then at most one [SetLeaves]; and
    after a [SetLeaves] that succeeded, the [QueueLeaf] of the
    serialized new root, unless the root does not serialize. *)
Lemma buildEpoch_trace mRange seq w out w' tr :
  buildEpoch svc s mRange seq w = (out, w', tr) →
  ∃ getResp rest,
    tr = EvGetLeaves (mapID s) (map (fun m => key m) mRange) (-1) getResp :: rest ∧
    (rest = [] ∨
     ∃ leaves resp rest',
       rest = EvSetLeaves (mapID s) leaves (mkMapperMetadata seq) resp :: rest' ∧
       match resp with
       | inl _ => rest' = []
       | inr smr =>
           match json_Marshal svc smr with
           | inl _ => rest' = []
           | inr smrJSON =>
               ∃ r rest'',
                 rest' = EvQueueLeaf (logID s) smrJSON
                           (sha256_Sum256 svc smrJSON) r :: rest'' ∧
                 quiet rest''
           end
       end).
Proof.
  unfold buildEpoch. unfold bind at 1. unfold call at 1.
  destruct (tmap_GetLeaves _ _ _ _ _) as [[e|inclusions] w1]; simpl.
  { intros [= <- <- <-]. eexists _, _. split; [done|by left]. }
  destruct (bind_proofs _ _) as [mutations|]; simpl;
    [|intros [= <- <- <-]; eexists _, _; split; [done|by left]].
  destruct (applyMutations _ _ _ _ _) as [newLeaves|e|]; simpl;
    [|intros [= <- <- <-]; eexists _, _; split; [done|by left]..].
  unfold bind at 1. unfold call at 1.
  destruct (tmap_SetLeaves _ _ _ _ _) as [[e|smr] w2]; simpl.
  { intros [= <- <- <-]. eexists _, _. split; [done|]. right.
    eexists _, _, _. split; [done|done]. }
  unfold bind at 1. rewrite queueLogLeaf_run.
  destruct (json_Marshal svc smr) as [e|smrJSON] eqn:Hj; simpl.
  { intros [= <- <- <-]. eexists _, _. split; [done|]. right.
    eexists _, _, _. split; [done|]. cbv beta iota.
    by case_scrutinee. }
  destruct (tlog_QueueLeaf _ _ _ _ _) as [[e|u] w3]; simpl.
  { intros [= <- <- <-]. eexists _, _. split; [done|]. right.
    eexists _, _, _. split; [done|]. cbv beta iota.
    case_scrutinee.
    eexists _, _. split; [done|]. constructor. }
  unfold bind at 1.
  destruct (logProofs _ _ _ _ _) as [[o w4] t4] eqn:Hlp.
  apply logProofs_quiet in Hlp.
  intros Hrun.
  assert (Htr : tr = EvGetLeaves (mapID s) (map (fun m => key m) mRange) (-1)
                       (inr inclusions)
                     :: EvSetLeaves (mapID s) newLeaves (mkMapperMetadata seq)
                          (inr smr)
                     :: EvQueueLeaf (logID s) smrJSON
                          (sha256_Sum256 svc smrJSON) (inr u) :: t4).
  { destruct o as [[[lr lc] li]|e|]; simpl in Hrun; simplify_eq;
      simpl; by rewrite ?app_nil_r. }
  eexists _, _. split; [exact Htr|]. right.
  eexists _, _, _. split; [done|]. cbv beta iota. case_scrutinee.
  eexists _, _. split; [done|]. exact Hlp.
Qed.

Lemma quiet_elem (tr : list Event) (e : Event) :
  quiet tr → e ∈ tr → is_SetLeaves e = false ∧ is_QueueLeaf e = false.
Proof.
  intros Hq Hin. unfold quiet in Hq. rewrite Forall_forall in Hq.
  by destruct (Hq _ Hin) as (? & ? & _).
Qed.

(** The leaves of a [SetLeaves] request are what [applyMutations]
    returned for the batch and the leaves of the [GetLeaves] answer. *)
Lemma buildEpoch_SetLeaves mRange seq w out w' tr map_id leaves mapper resp :
  buildEpoch svc s mRange seq w = (out, w', tr) →
  EvSetLeaves map_id leaves mapper resp ∈ tr →
  ∃ inclusions,
    EvGetLeaves (mapID s) (map (fun m => key m) mRange) (-1) (inr inclusions) ∈ tr ∧
    applyMutations (entry_FromLeafValue svc) (mutator_Mutate svc)
      (map_range_order svc) mRange (map Leaf inclusions) = Ret leaves ∧
    mapper = mkMapperMetadata seq.
Proof.
  intros Hb Hin.
  destruct (buildEpoch_trace _ _ _ _ _ _ Hb) as (getResp & rest & Htr & Hrest).
  revert Hb. unfold buildEpoch. unfold bind at 1. unfold call at 1.
  destruct (tmap_GetLeaves _ _ _ _ _) as [[e|inclusions] w1]; simpl.
  { intros [= <- <- <-]. apply elem_of_cons in Hin.
    destruct Hin as [?|Hin]; [done|by apply elem_of_nil in Hin]. }
  destruct (bind_proofs _ _) as [mutations|]; simpl.
  2:{ intros [= <- <- <-]. apply elem_of_cons in Hin.
      destruct Hin as [?|Hin]; [done|by apply elem_of_nil in Hin]. }
  destruct (applyMutations _ _ _ _ _) as [newLeaves|e|] eqn:Ha; simpl.
  2,3: intros [= <- <- <-]; apply elem_of_cons in Hin;
       destruct Hin as [?|Hin]; [done|by apply elem_of_nil in Hin].
  intros Hb. exists inclusions.
  assert (Hshape : ∃ r rest1,
    tr = EvGetLeaves (mapID s) (map (fun m => key m) mRange) (-1) (inr inclusions)
           :: EvSetLeaves (mapID s) newLeaves (mkMapperMetadata seq) r :: rest1).
  { revert Hb. unfold bind at 1. unfold call at 1.
    destruct (tmap_SetLeaves _ _ _ _ _) as [[e|smr] w2]; simpl.
    - intros [= <- <- <-]. by eexists _, _.
    - destruct ((let* _ := queueLogLeaf svc (logID s) smr in _)%seq w2)
        as [[o3 w3] t3].
      intros [= <- <- <-]. by eexists _, _. }
  destruct Hshape as (r & rest1 & Htr').
  split; [rewrite Htr'; apply list_elem_of_here|].
  rewrite Htr' in Htr. inversion Htr as [[Hg Hr]]. subst getResp rest.
  destruct Hrest as [?|(leaves' & resp' & rest' & Heq & Hresp)]; [done|].
  inversion Heq; subst leaves' resp' rest'.
  rewrite Htr' in Hin.
  apply elem_of_cons in Hin. destruct Hin as [?|Hin]; [done|].
  apply elem_of_cons in Hin. destruct Hin as [Hhd|Hin].
  { by inversion Hhd. }
  exfalso. destruct r as [e|smr]; [subst rest1; by apply elem_of_nil in Hin|].
  destruct (json_Marshal svc smr);
    [subst rest1; by apply elem_of_nil in Hin|].
  destruct Hresp as (r' & rest'' & -> & Hq'').
  apply elem_of_cons in Hin. destruct Hin as [?|Hin]; [done|].
  by destruct (quiet_elem _ _ Hq'' Hin).
Qed.

(** [CreateEpoch] once the map root and the batch have been read. *)
Lemma CreateEpoch_run force w root w1 mRange seq w2 tr2 :
  tmap_GetSignedMapRoot svc (mapID s) w = (inr root, w1) →
  newMutations svc (GetHighestFullyCompletedSeq (GetMetadata root)) w1
    = (Ret (mRange, seq), w2, tr2) →
  CreateEpoch svc s force w
  = if (length mRange =? 0)%nat && negb force
    then (Ret None, w2, EvGetSignedMapRoot (mapID s) (inr root) :: tr2)
    else let '(out, w3, tr3) := buildEpoch svc s mRange seq w2 in
         (out, w3, EvGetSignedMapRoot (mapID s) (inr root) :: tr2 ++ tr3).
Proof.
  intros Hroot Hnew. unfold CreateEpoch.
  unfold bind at 1. unfold call at 1. rewrite Hroot. simpl.
  unfold bind at 1. unfold try at 1. rewrite Hnew. simpl.
  destruct ((length mRange =? 0)%nat && negb force).
  - unfold ret. by rewrite app_nil_r.
  - by destruct (buildEpoch svc s mRange seq w2) as [[out w3] tr3].
Qed.

(** Any run of [CreateEpoch]: the root request, then either nothing
    that writes, or the reading of the batch followed by [buildEpoch]. *)
Lemma CreateEpoch_trace force w out w' tr :
  CreateEpoch svc s force w = (out, w', tr) →
  ∃ r0 tr1,
    tr = EvGetSignedMapRoot (mapID s) r0 :: tr1 ∧
    (quiet tr1 ∨
     ∃ tr2 tr3 mRange seq w2,
       tr1 = tr2 ++ tr3 ∧ quiet tr2 ∧
       buildEpoch svc s mRange seq w2 = (out, w', tr3)).
Proof.
  unfold CreateEpoch. unfold bind at 1. unfold call at 1.
  destruct (tmap_GetSignedMapRoot _ _ _) as [[e|root] w1]; simpl.
  { intros [= <- <- <-]. eexists _, _. split; [done|]. left. constructor. }
  unfold bind at 1. unfold try at 1.
  destruct (newMutations _ _ _) as [[o w2] tr2] eqn:Hnew.
  pose proof (newMutations_quiet _ _ _ _ _ Hnew) as Hq.
  destruct o as [[mRange seq]|e|]; simpl;
    [|intros [= <- <- <-]; eexists _, _; split; [done|];
      left; by rewrite ?app_nil_r..].
  destruct ((length mRange =? 0)%nat && negb force).
  - intros [= <- <- <-]. eexists _, _. split; [done|].
    left. by rewrite app_nil_r.
  - destruct (buildEpoch svc s mRange seq w2) as [[o3 w3] tr3] eqn:Hb.
    intros [= <- <- <-]. eexists _, _. split; [done|].
    right. by exists tr2, tr3, mRange, seq, w2.
Qed.

Lemma send_all_run chans m (w : W) :
  send_all chans m w = (Ret tt, w, sends chans m).
Proof.
  induction chans as [|ch chans IH]; [done|].
  simpl. unfold bind, emit. by rewrite IH.
Qed.

(** C3, as the code has it: when the batch read is empty and the force
    flag is false, CreateEpoch returns nil without error and its run
    holds no SetLeaves and no QueueLeaf request, so no map revision is
    made; the driver loop then hands that nil to disseminateMutations,
    which sends it once on every registered channel: the channels
    receive nil, never an epoch summary. *)
Theorem CreateEpoch_empty_unforced (w : W) (root : option SignedMapRoot)
    (w1 : W) (seq : Z) (w2 : W) (tr2 : list Event) :
  tmap_GetSignedMapRoot svc (mapID s) w = (inr root, w1) →
  newMutations svc (GetHighestFullyCompletedSeq (GetMetadata root)) w1
    = (Ret ([], seq), w2, tr2) →
  CreateEpoch svc s false w
    = (Ret None, w2, EvGetSignedMapRoot (mapID s) (inr root) :: tr2) ∧
  List.filter is_SetLeaves (trace_of (CreateEpoch svc s false w)) = [] ∧
  List.filter is_QueueLeaf (trace_of (CreateEpoch svc s false w)) = [] ∧
  epochTick svc s false w
    = (Ret tt, w2,
       EvGetSignedMapRoot (mapID s) (inr root) :: tr2 ++ sends (mChannels s) None) ∧
  List.filter is_SetLeaves (trace_of (epochTick svc s false w)) = [] ∧
  List.filter is_QueueLeaf (trace_of (epochTick svc s false w)) = [] ∧
  List.filter is_ChanSend (trace_of (epochTick svc s false w))
    = sends (mChannels s) None.
Proof.
  intros Hroot Hnew.
  pose proof (CreateEpoch_run false _ _ _ _ _ _ _ Hroot Hnew) as Hrun.
  simpl in Hrun.
  destruct (quiet_filter _ (newMutations_quiet _ _ _ _ _ Hnew)) as (Hs & Hq & Hc).
  assert (Htick : epochTick svc s false w
    = (Ret tt, w2,
       EvGetSignedMapRoot (mapID s) (inr root) :: tr2 ++ sends (mChannels s) None)).
  { unfold epochTick, bind, try, disseminateMutations.
    rewrite Hrun. simpl. by rewrite send_all_run. }
  assert (Hsends : ∀ m chans,
    List.filter is_SetLeaves (sends chans m) = [] ∧
    List.filter is_QueueLeaf (sends chans m) = [] ∧
    List.filter is_ChanSend (sends chans m) = sends chans m).
  { intros m chans. induction chans as [|ch chans (IH1 & IH2 & IH3)]; [done|].
    simpl. by rewrite IH3. }
  destruct (Hsends None (mChannels s)) as (Hs1 & Hs2 & Hs3).
  rewrite Hrun, Htick. unfold trace_of. simpl.
  rewrite !List.filter_app, Hs, Hq, Hc, Hs1, Hs2, Hs3. done.
Qed.

(** C5: in a run of CreateEpoch where SetLeaves succeeded with a root
    that serializes to JSON, there is exactly one QueueLeaf request; it
    follows the SetLeaves at once, its leaf value is that JSON and its
    identity hash is the SHA-256 of that JSON. Likewise for Initialize
    when the log is empty and the map is at revision 0. *)
Theorem queueLogLeaf_after_SetLeaves :
  (∀ force w out w' tr map_id leaves mapper smr smrJSON,
     CreateEpoch svc s force w = (out, w', tr) →
     EvSetLeaves map_id leaves mapper (inr smr) ∈ tr →
     json_Marshal svc smr = inr smrJSON →
     ∃ r t1 t2,
       List.filter is_QueueLeaf tr
         = [EvQueueLeaf (logID s) smrJSON (sha256_Sum256 svc smrJSON) r] ∧
       tr = t1 ++ EvSetLeaves map_id leaves mapper (inr smr)
              :: EvQueueLeaf (logID s) smrJSON (sha256_Sum256 svc smrJSON) r
              :: t2) ∧
  (∀ w logRoot w1 mapRoot w2 smrJSON,
     tlog_GetLatestSignedLogRoot svc (logID s) w = (inr logRoot, w1) →
     tmap_GetSignedMapRoot svc (mapID s) w1 = (inr mapRoot, w2) →
     GetTreeSize logRoot = 0 → GetMapRevision mapRoot = 0 →
     json_Marshal svc mapRoot = inr smrJSON →
     ∃ r,
       List.filter is_QueueLeaf (trace_of (Initialize svc s w))
         = [EvQueueLeaf (logID s) smrJSON (sha256_Sum256 svc smrJSON) r]).
Proof.
  split.
  - intros force w out w' tr map_id leaves mapper smr smrJSON Hrun Hin Hj.
    destruct (CreateEpoch_trace _ _ _ _ _ Hrun)
      as (r0 & tr1 & -> & [Hq|(tr2 & tr3 & mRange & seq & w2 & -> & Hq & Hb)]).
    { apply elem_of_cons in Hin. destruct Hin as [?|Hin]; [done|].
      by destruct (quiet_elem _ _ Hq Hin). }
    destruct (buildEpoch_trace _ _ _ _ _ _ Hb) as (getResp & rest & -> & Hrest).
    assert (Hin' : EvSetLeaves map_id leaves mapper (inr smr) ∈ rest).
    { apply elem_of_cons in Hin. destruct Hin as [?|Hin]; [done|].
      apply elem_of_app in Hin. destruct Hin as [Hin|Hin].
      - by destruct (quiet_elem _ _ Hq Hin).
      - apply elem_of_cons in Hin. by destruct Hin as [?|Hin]. }
    destruct Hrest as [->|(leaves' & resp & rest' & -> & Hresp)];
      [by apply elem_of_nil in Hin'|].
    assert (Hhead : EvSetLeaves map_id leaves mapper (inr smr)
                    = EvSetLeaves (mapID s) leaves' (mkMapperMetadata seq) resp).
    { apply elem_of_cons in Hin'. destruct Hin' as [?|Hin']; [done|].
      destruct resp as [e|smr']; [subst rest'; by apply elem_of_nil in Hin'|].
      destruct (json_Marshal svc smr') as [e|js];
        [subst rest'; by apply elem_of_nil in Hin'|].
      destruct Hresp as (r & rest'' & -> & Hq'').
      apply elem_of_cons in Hin'. destruct Hin' as [?|Hin']; [done|].
      by destruct (quiet_elem _ _ Hq'' Hin'). }
    inversion Hhead; subst. rewrite Hj in Hresp.
    destruct Hresp as (r & rest'' & -> & Hq'').
    destruct (quiet_filter _ Hq) as (_ & Hf2 & _).
    destruct (quiet_filter _ Hq'') as (_ & Hf'' & _).
    exists r, (EvGetSignedMapRoot (mapID s) r0 :: tr2 ++
               [EvGetLeaves (mapID s) (map (fun m => key m) mRange) (-1) getResp]),
           rest''.
    split.
    + simpl. rewrite List.filter_app, Hf2. simpl. by rewrite Hf''.
    + simpl. by rewrite <- app_assoc.
  - intros w logRoot w1 mapRoot w2 smrJSON Hlog Hmap Hts Hrev Hj.
    unfold Initialize, trace_of. unfold bind at 1. unfold call at 1.
    rewrite Hlog. simpl. unfold bind at 1. unfold call at 1.
    rewrite Hmap. simpl. rewrite Hts, Hrev. simpl.
    rewrite queueLogLeaf_run, Hj. simpl.
    destruct (tlog_QueueLeaf _ _ _ _ _) as [r w3]. simpl. by exists r.
Qed.

(** C6, as the code has it: when a batch was read and an epoch is
    built, the one GetLeaves request of the run carries the key of every
    mutation of the batch, in batch order, one entry per mutation: a key
    that occurs in several mutations is requested that many times. *)
Theorem GetLeaves_indexes_per_mutation (force : bool) (w : W)
    (root : option SignedMapRoot) (w1 : W) (mRange : list SignedKV)
    (seq : Z) (w2 : W) (tr2 : list Event) :
  tmap_GetSignedMapRoot svc (mapID s) w = (inr root, w1) →
  newMutations svc (GetHighestFullyCompletedSeq (GetMetadata root)) w1
    = (Ret (mRange, seq), w2, tr2) →
  mRange ≠ [] ∨ force = true →
  GetLeaves_requests (trace_of (CreateEpoch svc s force w))
    = [map (fun m => key m) mRange] ∧
  length (map (fun m => key m) mRange) = length mRange ∧
  (∀ i m, mRange !! i = Some m →
          map (fun m => key m) mRange !! i = Some (key m)).
Proof.
  intros Hroot Hnew Hgo.
  split; [|split; [apply length_map|]].
  2:{ intros i m Hi. change (map (fun m => key m) mRange)
        with ((fun m => key m) <$> mRange).
      by rewrite list_lookup_fmap, Hi. }
  rewrite (CreateEpoch_run force _ _ _ _ _ _ _ Hroot Hnew).
  assert (Hc : (length mRange =? 0)%nat && negb force = false).
  { destruct Hgo as [Hne| ->]; [|by rewrite andb_false_r].
    destruct mRange; [done|done]. }
  rewrite Hc.
  destruct (buildEpoch svc s mRange seq w2) as [[out w3] tr3] eqn:Hb.
  destruct (buildEpoch_trace _ _ _ _ _ _ Hb) as (getResp & rest & -> & Hrest).
  unfold trace_of. simpl.
  pose proof (quiet_GetLeaves _ (newMutations_quiet _ _ _ _ _ Hnew)) as H2.
  unfold GetLeaves_requests in *. rewrite omap_app, H2. simpl. f_equal.
  destruct Hrest as [->|(leaves' & resp & rest' & -> & Hresp)]; [done|].
  simpl. destruct resp as [e|smr]; [by subst|].
  destruct (json_Marshal svc smr); [by subst|].
  destruct Hresp as (r & rest'' & -> & Hq''). simpl.
  by apply quiet_GetLeaves in Hq''.
Qed.

(** C7, as the code has it: Initialize returns an error when the
    log-root request fails, when the map-root request fails, and, with
    an empty log and a map at revision 0, when the root does not
    serialize or the QueueLeaf request fails. In every other case it
    returns success, also when only one of the two trees is empty. It
    queues one leaf (the serialized map root) when the log is empty and
    the map is at revision 0, and none for any other combination. *)
Theorem Initialize_outcomes (w : W) :
  (∀ e w1,
     tlog_GetLatestSignedLogRoot svc (logID s) w = (inl e, w1) →
     Initialize svc s w
     = (Fail (ErrWrap "GetLatestSignedLogRoot" e), w1,
        [EvGetLatestSignedLogRoot (logID s) (inl e)])) ∧
  (∀ logRoot w1 e w2,
     tlog_GetLatestSignedLogRoot svc (logID s) w = (inr logRoot, w1) →
     tmap_GetSignedMapRoot svc (mapID s) w1 = (inl e, w2) →
     Initialize svc s w
     = (Fail (ErrWrap "GetSignedMapRoot" e), w2,
        [EvGetLatestSignedLogRoot (logID s) (inr logRoot);
         EvGetSignedMapRoot (mapID s) (inl e)])) ∧
  (∀ logRoot w1 mapRoot w2,
     tlog_GetLatestSignedLogRoot svc (logID s) w = (inr logRoot, w1) →
     tmap_GetSignedMapRoot svc (mapID s) w1 = (inr mapRoot, w2) →
     (¬ (GetTreeSize logRoot = 0 ∧ GetMapRevision mapRoot = 0) →
        outcome_of (Initialize svc s w) = Ret tt ∧
        List.filter is_QueueLeaf (trace_of (Initialize svc s w)) = []) ∧
     (GetTreeSize logRoot = 0 ∧ GetMapRevision mapRoot = 0 →
        (∀ e, json_Marshal svc mapRoot = inl e →
              outcome_of (Initialize svc s w) = Fail e ∧
              List.filter is_QueueLeaf (trace_of (Initialize svc s w)) = []) ∧
        (∀ smrJSON, json_Marshal svc mapRoot = inr smrJSON →
           ∃ r,
             List.filter is_QueueLeaf (trace_of (Initialize svc s w))
             = [EvQueueLeaf (logID s) smrJSON (sha256_Sum256 svc smrJSON) r] ∧
             (outcome_of (Initialize svc s w) = Ret tt ↔ r = inr tt)))).
Proof.
  split; [|split].
  - intros e w1 Hlog. unfold Initialize, bind, call. by rewrite Hlog.
  - intros logRoot w1 e w2 Hlog Hmap.
    unfold Initialize. unfold bind at 1. unfold call at 1. rewrite Hlog. simpl.
    unfold bind, call. by rewrite Hmap.
  - intros logRoot w1 mapRoot w2 Hlog Hmap.
    assert (Hrun : Initialize svc s w
      = let '(out, w3, tr) :=
          (if (GetTreeSize logRoot =? 0) && (GetMapRevision mapRoot =? 0)
           then queueLogLeaf svc (logID s) mapRoot
           else ret tt) w2 in
        (out, w3, EvGetLatestSignedLogRoot (logID s) (inr logRoot)
                    :: EvGetSignedMapRoot (mapID s) (inr mapRoot) :: tr)).
    { unfold Initialize. unfold bind at 1. unfold call at 1. rewrite Hlog. simpl.
      unfold bind at 1. unfold call at 1. rewrite Hmap. simpl.
      by destruct ((if (GetTreeSize logRoot =? 0) && (GetMapRevision mapRoot =? 0)
                    then queueLogLeaf svc (logID s) mapRoot
                    else ret tt) w2) as [[out w3] tr]. }
    rewrite Hrun. clear Hrun. unfold outcome_of, trace_of. split.
    + intros Hne.
      assert (Hc : (GetTreeSize logRoot =? 0) && (GetMapRevision mapRoot =? 0)
                   = false).
      { apply andb_false_iff.
        destruct (Z.eqb_spec (GetTreeSize logRoot) 0); [|by left].
        destruct (Z.eqb_spec (GetMapRevision mapRoot) 0); [|by right].
        by destruct Hne. }
      by rewrite Hc.
    + intros [Hts Hrev]. rewrite Hts, Hrev. simpl. rewrite queueLogLeaf_run.
      split.
      * intros e He. by rewrite He.
      * intros smrJSON Hj. rewrite Hj. simpl.
        destruct (tlog_QueueLeaf _ _ _ _ _) as [[e|[]] w3]; simpl.
        -- eexists. split; [done|]. split; intros; done.
        -- eexists. split; [done|]. split; intros; done.
Qed.

End SequencerTheory.



(** ** The tick generator *)

(** Away from the ends of the [int64] range, the test of the code is
    the comparison of the design document. *)
Lemma tick_due_exact (now last minElapsed maxElapsed : Z) :
  minDuration <= now - last <= maxDuration →
  minDuration <= now - last + minElapsed <= maxDuration →
  tick_due now last minElapsed maxElapsed = true
  ↔ now - last + minElapsed >= maxElapsed.
Proof.
  unfold tick_due, time_Sub, to_int64, minDuration, maxDuration.
  intros H1 H2.
  rewrite Z.max_r, Z.min_r by lia.
  replace ((now - last + minElapsed + 2 ^ 63) mod 2 ^ 64 - 2 ^ 63)
    with (now - last + minElapsed).
  - rewrite Z.leb_le. lia.
  - rewrite Z.mod_small; lia.
Qed.

Section TicksTheory.

Context {Clock : Type}.
Variable Now : Clock -> Z * Clock.

Lemma ticks_loop_snoc (last : Z) (minTick : list Z) (t minElapsed maxElapsed : Z) :
  ticks_loop last (minTick ++ [t]) minElapsed maxElapsed
  = let (bs, l) := ticks_loop last minTick minElapsed maxElapsed in
    (bs ++ [tick_due t l minElapsed maxElapsed],
     if tick_due t l minElapsed maxElapsed then t else l).
Proof.
  revert last. induction minTick as [|now rest IH]; intros last; simpl.
  - by destruct (tick_due t last minElapsed maxElapsed).
  - destruct (tick_due now last minElapsed maxElapsed); rewrite IH;
      by destruct (ticks_loop _ rest minElapsed maxElapsed).
Qed.

Lemma ticks_loop_length (last : Z) (minTick : list Z) (minElapsed maxElapsed : Z) :
  length (ticks_loop last minTick minElapsed maxElapsed).1 = length minTick.
Proof.
  revert last. induction minTick as [|now rest IH]; intros last; simpl; [done|].
  destruct (tick_due now last minElapsed maxElapsed).
  - specialize (IH now). destruct (ticks_loop now rest _ _). simpl in *. lia.
  - specialize (IH last). destruct (ticks_loop last rest _ _). simpl in *. lia.
Qed.

(** C8: before the first firing the generator has sent a single true
    exactly when [now - last + minElapsed >= maxElapsed] holds for the
    clock reading [now], and then [last] is the clock read anew;
    otherwise it has sent nothing and [last] is unchanged. Each further
    firing [t] of the ticker adds one value: true, with [last := t],
    when [t - last + minElapsed >= maxElapsed], and false, with [last]
    unchanged, otherwise. The comparison is the one of Go durations,
    which is the arithmetic one as long as nothing overflows. *)
Theorem genEpochTicks_sequence (clk : Clock) (last minElapsed maxElapsed : Z) :
  genEpochTicks Now clk last [] minElapsed maxElapsed
  = (if tick_due (Now clk).1 last minElapsed maxElapsed
     then ([true], (Now (Now clk).2).1, (Now (Now clk).2).2)
     else ([], last, (Now clk).2)) ∧
  (∀ minTick t,
     genEpochTicks Now clk last (minTick ++ [t]) minElapsed maxElapsed
     = let '(bs, l, c) := genEpochTicks Now clk last minTick minElapsed maxElapsed in
       (bs ++ [tick_due t l minElapsed maxElapsed],
        if tick_due t l minElapsed maxElapsed then t else l, c)) ∧
  (∀ minTick,
     length (genEpochTicks Now clk last minTick minElapsed maxElapsed).1.1
     = ((if tick_due (Now clk).1 last minElapsed maxElapsed then 1 else 0)
        + length minTick)%nat) ∧
  (∀ now l,
     minDuration <= now - l <= maxDuration →
     minDuration <= now - l + minElapsed <= maxDuration →
     tick_due now l minElapsed maxElapsed = true
     ↔ now - l + minElapsed >= maxElapsed).
Proof.
  unfold genEpochTicks, ticks_start. split; [|split; [|split]].
  - destruct (Now clk) as [now clk1]. simpl.
    destruct (tick_due now last minElapsed maxElapsed); [|done].
    by destruct (Now clk1).
  - intros minTick t. destruct (Now clk) as [now clk1].
    destruct (tick_due now last minElapsed maxElapsed).
    + destruct (Now clk1) as [now' clk2]. rewrite ticks_loop_snoc.
      destruct (ticks_loop now' minTick minElapsed maxElapsed) as [bs l].
      by rewrite app_assoc.
    + rewrite ticks_loop_snoc.
      by destruct (ticks_loop last minTick minElapsed maxElapsed) as [bs l].
  - intros minTick. destruct (Now clk) as [now clk1]. simpl.
    destruct (tick_due now last minElapsed maxElapsed).
    + destruct (Now clk1) as [now' clk2].
      pose proof (ticks_loop_length now' minTick minElapsed maxElapsed) as Hl.
      destruct (ticks_loop now' minTick _ _). simpl in *. lia.
    + pose proof (ticks_loop_length last minTick minElapsed maxElapsed) as Hl.
      destruct (ticks_loop last minTick _ _). simpl in *. lia.
  - intros now l. apply tick_due_exact.
Qed.

End TicksTheory.

(** ** The code on the sample directory *)

Section SampleRuns.

Import Sample.

Local Abbreviation mA1 := (kv keyA [Byte.x01]).
Local Abbreviation mA2 := (kv keyA [Byte.x02]).
Local Abbreviation mB0 := (kv keyB []).
Local Abbreviation leafA := (mkMapLeaf keyA [Byte.x05]).
Local Abbreviation leafBad := (mkMapLeaf keyB [Byte.xff]).

Lemma sample_range_order_perm (l : list MapLeaf) : range_order l ≡ₚ l.
Proof. reflexivity. Qed.

(** Scenario S2 of the design document: two accepted mutations of one
    key give one leaf, the later one's; both were applied to the
    fetched leaf. *)
Example S2_same_index_twice :
  applyMutations_run FromLeafValue Mutate range_order [mA1; mA2] [Some leafA]
  = (Ret [mkMapLeaf keyA [Byte.x02; Byte.x05]],
     [(Some (mkEntry [Byte.x05] [] []), mA1);
      (Some (mkEntry [Byte.x05] [] []), mA2)]).
Proof. vm_compute. reflexivity. Qed.

(** C1 as stated fails: with a mutable mapping read for the prior entry,
    the second mutation of key A would be applied to the result of the
    first; the code applies it to the fetched leaf. *)
Lemma applyMutations_prior_not_cur :
  snd (applyMutations_run FromLeafValue Mutate range_order [mA1; mA2] [Some leafA])
  ≠ cur_fold_calls FromLeafValue Mutate [mA1; mA2] [Some leafA].
Proof. vm_compute. intros H. discriminate H. Qed.

Lemma applyMutations_prior_is_fetched_leaf_witness :
  snd (applyMutations_run FromLeafValue Mutate range_order [mA1; mA2]
         (Some <$> [leafA]))
  = omap (mutator_call FromLeafValue (leafMap_of [leafA])) [mA1; mA2].
Proof.
  exact (proj1 (applyMutations_prior_is_fetched_leaf FromLeafValue Mutate
                  range_order [mA1; mA2] [leafA])).
Defined.

Lemma applyMutations_dedup_last_wins_witness :
  (∀ l, range_order l ≡ₚ l) ∧
  ∃ ret,
    applyMutations FromLeafValue Mutate range_order [mA1; mB0; mA2]
      (Some <$> [leafA]) = Ret ret ∧
    NoDup (Index <$> ret).
Proof.
  split; [intros l; reflexivity|].
  destruct (applyMutations_dedup_last_wins FromLeafValue Mutate range_order
              (fun l => reflexivity l) [mA1; mB0; mA2] [leafA])
    as (ret & Hret & Hnd & _).
  exists ret. split; [exact Hret|exact Hnd].
Defined.

Lemma applyMutations_skip_undecodable_witness :
  (∀ l, range_order l ≡ₚ l) ∧
  leafMap_of [leafA; leafBad] !! toArray (GetKey (GetKeyValue (kv keyB [Byte.x07])))
    = Some leafBad ∧
  FromLeafValue (GetLeafValue leafBad) = inl (ErrExternal "proto: cannot parse") ∧
  applyMutations_run FromLeafValue Mutate range_order
    ([mA1] ++ kv keyB [Byte.x07] :: [mA2]) (Some <$> [leafA; leafBad])
  = applyMutations_run FromLeafValue Mutate range_order
      ([mA1] ++ [mA2]) (Some <$> [leafA; leafBad]).
Proof.
  split; [intros l; reflexivity|].
  split; [vm_compute; reflexivity|]. split; [reflexivity|].
  apply (applyMutations_skip_undecodable FromLeafValue Mutate range_order
           (fun l => reflexivity l) [mA1] (kv keyB [Byte.x07]) [mA2]
           [leafA; leafBad] leafBad (ErrExternal "proto: cannot parse")).
  - vm_compute. reflexivity.
  - reflexivity.
Defined.

(** Two keys of 33 bytes that differ in the last byte only: one leaf is
    returned, with the unmodified 33-byte key of the later mutation. *)
Example long_keys_collide :
  applyMutations FromLeafValue Mutate range_order
    [kv keyLong1 [Byte.x01]; kv keyLong2 [Byte.x02]] []
  = Ret [mkMapLeaf keyLong2 [Byte.x02]].
Proof. vm_compute. reflexivity. Qed.

Local Abbreviation root0 := (Some (mkSignedMapRoot 0 [] None 1 0)).
Local Abbreviation root1 :=
  (Some (mkSignedMapRoot 0 [] (Some (mkMapperMetadata 9)) 1 1)).
Local Abbreviation json1 := [Byte.x7b; Byte.x31; Byte.x7d].

(** C3 as stated fails on its last part: on a tick with no mutations and
    no force, the driver loop still sends on the registered channels. *)
Lemma epochTick_empty_unforced_sends :
  List.filter is_ChanSend (trace_of (epochTick svc seq1 false (fresh [] 0))) ≠ [].
Proof. vm_compute. intros H. discriminate H. Qed.

Lemma CreateEpoch_empty_unforced_witness :
  tmap_GetSignedMapRoot svc (mapID seq1) (fresh [] 0) = (inr root0, fresh [] 0) ∧
  newMutations svc (GetHighestFullyCompletedSeq (GetMetadata root0)) (fresh [] 0)
    = (Ret ([], 0), fresh [] 0,
       [EvNewTxn (inr tt); EvReadAll 0 (inr (0, [])); EvCommit (inr tt)]) ∧
  CreateEpoch svc seq1 false (fresh [] 0)
    = (Ret None, fresh [] 0,
       [EvGetSignedMapRoot 1 (inr root0); EvNewTxn (inr tt);
        EvReadAll 0 (inr (0, [])); EvCommit (inr tt)]) ∧
  List.filter is_ChanSend (trace_of (epochTick svc seq1 false (fresh [] 0)))
    = [EvChanSend 0 None; EvChanSend 1 None].
Proof.
  split; [reflexivity|]. split; [vm_compute; reflexivity|].
  destruct (CreateEpoch_empty_unforced svc seq1 (fresh [] 0) root0 (fresh [] 0)
              0 (fresh [] 0)
              [EvNewTxn (inr tt); EvReadAll 0 (inr (0, [])); EvCommit (inr tt)])
    as (H1 & _ & _ & _ & _ & _ & H7).
  - reflexivity.
  - vm_compute. reflexivity.
  - split; [exact H1|exact H7].
Defined.

Lemma queueLogLeaf_after_SetLeaves_witness :
  EvSetLeaves 1 [mkMapLeaf keyA [Byte.x02]] (mkMapperMetadata 9) (inr root1)
    ∈ trace_of (CreateEpoch svc seq1 false (fresh [mA1; mA2] 9)) ∧
  json_Marshal svc root1 = inr json1 ∧
  ∃ r, List.filter is_QueueLeaf
         (trace_of (CreateEpoch svc seq1 false (fresh [mA1; mA2] 9)))
       = [EvQueueLeaf 2 json1 (sha256_Sum256 svc json1) r].
Proof.
  assert (Hin : EvSetLeaves 1 [mkMapLeaf keyA [Byte.x02]] (mkMapperMetadata 9)
                  (inr root1)
                ∈ trace_of (CreateEpoch svc seq1 false (fresh [mA1; mA2] 9))).
  { vm_compute. do 5 apply list_elem_of_further. apply list_elem_of_here. }
  split; [exact Hin|]. split; [reflexivity|].
  destruct (proj1 (queueLogLeaf_after_SetLeaves svc seq1) false
              (fresh [mA1; mA2] 9) _ _ _ 1 [mkMapLeaf keyA [Byte.x02]]
              (mkMapperMetadata 9) root1 json1
              eq_refl Hin eq_refl)
    as (r & t1 & t2 & Hf & _).
  exists r. exact Hf.
Defined.

(** C6 as stated fails: a key that occurs twice in the batch is
    requested twice. *)
Lemma GetLeaves_indexes_not_distinct :
  GetLeaves_requests (trace_of (CreateEpoch svc seq1 false (fresh [mA1; mA2] 9)))
  ≠ [distinct_indexes [mA1; mA2]].
Proof. vm_compute. intros H. discriminate H. Qed.

Lemma GetLeaves_indexes_per_mutation_witness :
  tmap_GetSignedMapRoot svc (mapID seq1) (fresh [mA1; mA2] 9)
    = (inr root0, fresh [mA1; mA2] 9) ∧
  newMutations svc (GetHighestFullyCompletedSeq (GetMetadata root0))
    (fresh [mA1; mA2] 9)
    = (Ret ([mA1; mA2], 9), fresh [mA1; mA2] 9,
       [EvNewTxn (inr tt); EvReadAll 0 (inr (9, [mA1; mA2])); EvCommit (inr tt)]) ∧
  ([mA1; mA2] ≠ [] ∨ false = true) ∧
  GetLeaves_requests (trace_of (CreateEpoch svc seq1 false (fresh [mA1; mA2] 9)))
    = [[keyA; keyA]].
Proof.
  split; [reflexivity|]. split; [vm_compute; reflexivity|].
  split; [left; discriminate|].
  apply (GetLeaves_indexes_per_mutation svc seq1 false (fresh [mA1; mA2] 9)
           root0 (fresh [mA1; mA2] 9) [mA1; mA2] 9 (fresh [mA1; mA2] 9)
           [EvNewTxn (inr tt); EvReadAll 0 (inr (9, [mA1; mA2])); EvCommit (inr tt)]).
  - reflexivity.
  - vm_compute. reflexivity.
  - left. discriminate.
Defined.

(** C7 as stated fails: with an empty log under a map at revision 3 the
    trees do not agree, and Initialize returns success. *)
Lemma Initialize_succeeds_on_mismatch :
  ¬ (outcome_of (Initialize svc seq1 behind) = Ret tt
     ↔ trees_agree (Z.of_nat (length (w_log behind)))
                   (GetMapRevision (w_root behind))).
Proof.
  intros [H _]. specialize (H eq_refl).
  destruct H as [[_ H]|[H _]]; [discriminate H|by apply H].
Qed.

Lemma Initialize_outcomes_witness :
  tlog_GetLatestSignedLogRoot svc (logID seq1) behind
    = (inr (Some (mkSignedLogRoot 0 [] 0)), behind) ∧
  tmap_GetSignedMapRoot svc (mapID seq1) behind = (inr (w_root behind), behind) ∧
  ¬ (GetTreeSize (Some (mkSignedLogRoot 0 [] 0)) = 0 ∧
     GetMapRevision (w_root behind) = 0) ∧
  outcome_of (Initialize svc seq1 behind) = Ret tt ∧
  List.filter is_QueueLeaf (trace_of (Initialize svc seq1 behind)) = [].
Proof.
  split; [reflexivity|]. split; [reflexivity|].
  assert (Hne : ¬ (GetTreeSize (Some (mkSignedLogRoot 0 [] 0)) = 0 ∧
                   GetMapRevision (w_root behind) = 0)).
  { simpl. lia. }
  split; [exact Hne|].
  exact (proj1 (proj2 (proj2 (Initialize_outcomes svc seq1 behind))
                  (Some (mkSignedLogRoot 0 [] 0)) behind (w_root behind) behind
                  eq_refl eq_refl) Hne).
Defined.

Lemma genEpochTicks_sequence_witness :
  genEpochTicks Now 100 0 [] 50 120 = ([true], 101, 102) ∧
  genEpochTicks Now 100 0 ([150; 200] ++ [250]) 50 120
    = ([true; false; true; false], 200, 102) ∧
  (minDuration <= 200 - 101 <= maxDuration ∧
   minDuration <= 200 - 101 + 50 <= maxDuration ∧
   (tick_due 200 101 50 120 = true ↔ 200 - 101 + 50 >= 120)).
Proof.
  destruct (genEpochTicks_sequence Now 100 0 50 120) as (H1 & H2 & _ & H4).
  split; [exact H1|]. split; [exact (H2 [150; 200] 250)|].
  assert (Hb1 : minDuration <= 200 - 101 <= maxDuration).
  { unfold minDuration, maxDuration. lia. }
  assert (Hb2 : minDuration <= 200 - 101 + 50 <= maxDuration).
  { unfold minDuration, maxDuration. lia. }
  split; [exact Hb1|]. split; [exact Hb2|]. exact (H4 200 101 Hb1 Hb2).
Defined.

(** C8 as stated fails on both of its readings of the code: after the
    single true at startup the code sets last to a second reading of the
    clock, not to the reading it compared, so with a clock at 100 and
    then 101 and firings at 170 and 171 the second and third values are
    false and true where the design document has true and false; and
    the comparison is made on Go durations, so with now - last and
    minInterval both at 2^62 the sum wraps to a negative duration and
    nothing is sent where the design document has a true. *)
Lemma genEpochTicks_not_as_documented :
  ((genEpochTicks Now 100 0 [170; 171] 50 120).1.1 = [true; false; true] ∧
   documented_ticks (Now 100).1 0 [170; 171] 50 120 = [true; true; false] ∧
   (genEpochTicks Now 100 0 [170; 171] 50 120).1.1
   ≠ documented_ticks (Now 100).1 0 [170; 171] 50 120) ∧
  ((genEpochTicks Now (2 ^ 62) 0 [] (2 ^ 62) 120).1.1 = [] ∧
   documented_ticks (Now (2 ^ 62)).1 0 [] (2 ^ 62) 120 = [true] ∧
   (genEpochTicks Now (2 ^ 62) 0 [] (2 ^ 62) 120).1.1
   ≠ documented_ticks (Now (2 ^ 62)).1 0 [] (2 ^ 62) 120).
Proof.
  split; (split; [vm_compute; reflexivity|]);
    (split; [vm_compute; reflexivity|]);
    vm_compute; intros H; discriminate H.
Qed.
End SampleRuns.


(** * Further properties of the code *)

(** ** toArray: which keys share a normalized index *)

Lemma toArray_lookup (b : bytes) (i : nat) :
  toArray b !! i
  = if decide (i < 32)%nat then Some (default Byte.x00 (b !! i)) else None.
Proof.
  unfold toArray.
  destruct (decide (i < length (take 32 b))%nat) as [Hlt|Hge].
  - rewrite lookup_app_l by done. rewrite length_take in Hlt.
    rewrite lookup_take by lia.
    destruct (b !! i) as [x|] eqn:Hb.
    + simpl. case_decide; [done|lia].
    + apply lookup_ge_None in Hb. lia.
  - rewrite lookup_app_r by lia. rewrite length_take in *.
    case_decide as Hi.
    + rewrite lookup_replicate_2 by lia.
      assert (Hb : b !! i = None) by (apply lookup_ge_None; lia).
      by rewrite Hb.
    + apply lookup_ge_None. rewrite length_replicate. lia.
Qed.

Lemma toArray_ext (b1 b2 : bytes) :
  (∀ i, (i < 32)%nat → default Byte.x00 (b1 !! i) = default Byte.x00 (b2 !! i)) →
  toArray b1 = toArray b2.
Proof.
  intros Hall. apply list_eq. intros i. rewrite !toArray_lookup.
  case_decide; [|done]. f_equal. by apply Hall.
Qed.

(** X1: two keys have the same normalized index exactly when they agree
    on each of the first 32 positions, a position past the end of a key
    counting as a zero byte. *)
Theorem toArray_eq_iff (b1 b2 : bytes) :
  toArray b1 = toArray b2
  ↔ ∀ i, (i < 32)%nat → default Byte.x00 (b1 !! i) = default Byte.x00 (b2 !! i).
Proof.
  split.
  - intros Heq i Hi.
    assert (H : toArray b1 !! i = toArray b2 !! i) by by rewrite Heq.
    rewrite !toArray_lookup in H. case_decide; [|lia]. by inversion H.
  - apply toArray_ext.
Qed.

(** X2: zero bytes appended to a key do not change its normalized index:
    the padding of short keys makes such keys collide. *)
Theorem toArray_trailing_zeros (b : bytes) (n : nat) :
  toArray (b ++ replicate n Byte.x00) = toArray b.
Proof.
  apply toArray_ext. intros i Hi.
  destruct (decide (i < length b)%nat) as [Hlt|Hge].
  - by rewrite lookup_app_l.
  - rewrite lookup_app_r by lia.
    assert (Hb : b !! i = None) by (apply lookup_ge_None; lia).
    rewrite Hb. simpl.
    destruct (replicate n Byte.x00 !! (i - length b)%nat) as [x|] eqn:Hr; [|done].
    apply lookup_replicate in Hr. by destruct Hr as [-> _].
Qed.

(** X3: normalizing twice is normalizing once, and a key of exactly 32
    bytes is its own normalized index. *)
Theorem toArray_idempotent (b : bytes) :
  toArray (toArray b) = toArray b ∧
  (length b = 32%nat → toArray b = b).
Proof.
  assert (Hfix : ∀ c : bytes, length c = 32%nat → toArray c = c).
  { intros c Hc. unfold toArray. rewrite take_ge by lia.
    replace (32 - length c)%nat with 0%nat by lia. apply app_nil_r. }
  split; [|apply Hfix]. apply Hfix, toArray_length.
Qed.

(** ** applyMutations: panics, fetched leaves, composition of batches *)

Section ApplyMutationsMore.

Variable FromLeafValue : bytes -> error + option Entry.
Variable Mutate : option Entry -> SignedKV -> error + bytes.
Variable range_order : list MapLeaf -> list MapLeaf.
Hypothesis range_order_perm : ∀ l, range_order l ≡ₚ l.

Local Abbreviation idx m := (toArray (GetKey (GetKeyValue m))).
Local Abbreviation prior := (prior_of FromLeafValue).
Local Abbreviation wr := (written FromLeafValue Mutate).
Local Abbreviation mcall := (mutator_call FromLeafValue).
Local Abbreviation loop := (apply_loop FromLeafValue Mutate).
Local Abbreviation one := (apply_one FromLeafValue Mutate).
Local Abbreviation run := (applyMutations_run FromLeafValue Mutate range_order).
Local Abbreviation apply := (applyMutations FromLeafValue Mutate range_order).
Local Abbreviation final lm muts := (retMap (loop lm muts (mkLoop ∅ []))).

Lemma build_leafMap_None (leaves : list (option MapLeaf))
    (lm0 : gmap bytes MapLeaf) :
  build_leafMap leaves lm0 = None ↔ None ∈ leaves.
Proof.
  revert lm0. induction leaves as [|[l|] leaves IH]; intros lm0; simpl.
  - split; [done|]. intros H. by apply elem_of_nil in H.
  - rewrite IH. split; [by right|].
    intros H. apply elem_of_cons in H. by destruct H.
  - split; [by left|done].
Qed.

(** X4: applyMutations panics exactly when one of the fetched leaves is
    a nil pointer, whatever the batch; otherwise it returns a list. *)
Theorem applyMutations_panics_iff_nil_leaf (muts : list SignedKV)
    (leaves : list (option MapLeaf)) :
  (apply muts leaves = Panic ↔ None ∈ leaves) ∧
  (None ∉ leaves → ∃ ret, apply muts leaves = Ret ret).
Proof.
  unfold applyMutations, applyMutations_run.
  destruct (build_leafMap leaves ∅) as [lm|] eqn:Hb; simpl.
  - assert (Hn : None ∉ leaves).
    { intros Hin. apply build_leafMap_None with (lm0 := ∅) in Hin. congruence. }
    split; [split; [done|by intros ?]|]. intros _. by eexists.
  - apply build_leafMap_None in Hb. split; [done|]. by intros ?.
Qed.

Lemma leafMap_of_snoc (ls : list MapLeaf) (l : MapLeaf) :
  leafMap_of (ls ++ [l]) = <[toArray (Index l) := l]> (leafMap_of ls).
Proof. unfold leafMap_of. by rewrite fold_left_app. Qed.

Lemma leafMap_of_lookup_None (ls : list MapLeaf) (k : bytes) :
  leafMap_of ls !! k = None ↔ Forall (fun l => toArray (Index l) ≠ k) ls.
Proof.
  induction ls as [|l ls IH] using rev_ind.
  - split; [by constructor|]. intros _. apply lookup_empty.
  - rewrite leafMap_of_snoc, Forall_app, Forall_singleton, <- IH.
    rewrite lookup_insert_None. tauto.
Qed.

Lemma leafMap_of_lookup_last (pre : list MapLeaf) (l : MapLeaf)
    (post : list MapLeaf) :
  Forall (fun l' => toArray (Index l') ≠ toArray (Index l)) post →
  leafMap_of (pre ++ l :: post) !! toArray (Index l) = Some l.
Proof.
  induction post as [|l' post IH] using rev_ind; intros Hpost.
  - rewrite leafMap_of_snoc. apply lookup_insert_eq.
  - apply Forall_app in Hpost. destruct Hpost as [Hpost Hl'].
    rewrite Forall_singleton in Hl'.
    replace (pre ++ l :: post ++ [l']) with ((pre ++ l :: post) ++ [l'])
      by by rewrite <- app_assoc.
    rewrite leafMap_of_snoc. rewrite lookup_insert_ne by exact Hl'. by apply IH.
Qed.

(** X5: when several fetched leaves have the normalized index of a
    mutation, the prior entry is parsed from the last of them in the
    list; when none has it, the prior entry is nil. *)
Theorem prior_from_last_fetched_leaf (m : SignedKV) :
  (∀ pre l post,
     toArray (Index l) = idx m →
     Forall (fun l' => toArray (Index l') ≠ idx m) post →
     prior (leafMap_of (pre ++ l :: post)) m = FromLeafValue (GetLeafValue l)) ∧
  (∀ ls,
     Forall (fun l' => toArray (Index l') ≠ idx m) ls →
     prior (leafMap_of ls) m = inr None).
Proof.
  split.
  - intros pre l post Hk Hpost. unfold prior_of. rewrite <- Hk.
    rewrite leafMap_of_lookup_last; [done|by rewrite Hk].
  - intros ls Hls. unfold prior_of.
    by rewrite (proj2 (leafMap_of_lookup_None ls (idx m)) Hls).
Qed.

(** The loop adds to what [retMap] held, overriding it index by index. *)
Lemma retMap_loop_union lm muts st :
  retMap (loop lm muts st) = final lm muts ∪ retMap st.
Proof.
  revert st. induction muts as [|m muts IH]; intros st.
  - simpl. by rewrite (left_id_L ∅ (∪)).
  - rewrite !apply_loop_cons, IH. rewrite (IH (one lm _ m)).
    rewrite !apply_one_eq. simpl.
    destruct (wr lm m) as [l|]; [|by rewrite (right_id_L ∅ (∪))].
    rewrite <- (assoc_L (∪)). f_equal.
    rewrite insert_empty. by rewrite insert_union_singleton_l.
Qed.

Lemma final_app lm l1 l2 :
  final lm (l1 ++ l2) = final lm l2 ∪ final lm l1.
Proof. rewrite apply_loop_app. apply retMap_loop_union. Qed.

(** X6: the leaves returned for a batch [l1 ++ l2] are the leaves
    returned for [l2], together with those returned for [l1] whose
    normalized index is not written by [l2]. *)
Theorem applyMutations_concat (l1 l2 : list SignedKV) (ls : list MapLeaf) :
  ∃ ret1 ret2 ret,
    apply l1 (Some <$> ls) = Ret ret1 ∧
    apply l2 (Some <$> ls) = Ret ret2 ∧
    apply (l1 ++ l2) (Some <$> ls) = Ret ret ∧
    ∀ leaf, leaf ∈ ret ↔
      leaf ∈ ret2 ∨
      (leaf ∈ ret1 ∧
       ∀ leaf2, leaf2 ∈ ret2 → toArray (Index leaf2) ≠ toArray (Index leaf)).
Proof.
  eexists _, _, _. rewrite !applyMutations_eq.
  split; [done|]. split; [done|]. split; [done|].
  intros leaf. rewrite !(elem_of_ret _ range_order_perm), final_app.
  split.
  - intros (k & Hk). apply lookup_union_Some_raw in Hk.
    destruct Hk as [H2|[H2 H1]]; [left; eauto|].
    right. split; [eauto|].
    intros leaf2 Hin2 Heq. apply (elem_of_ret _ range_order_perm) in Hin2.
    destruct Hin2 as (k2 & Hk2).
    pose proof (final_key _ _ _ _ _ _ Hk2). pose proof (final_key _ _ _ _ _ _ H1).
    subst k k2. rewrite Heq in Hk2. congruence.
  - intros [(k & Hk)|[(k & Hk) Hno]].
    + exists k. apply lookup_union_Some_raw. by left.
    + exists k. apply lookup_union_Some_raw. right. split; [|done].
      destruct (final (leafMap_of ls) l2 !! k) as [leaf2|] eqn:H2; [|done].
      exfalso. apply (Hno leaf2).
      * apply (elem_of_ret _ range_order_perm). eauto.
      * pose proof (final_key _ _ _ _ _ _ H2). pose proof (final_key _ _ _ _ _ _ Hk).
        congruence.
Qed.

(** X7: a batch that holds the same mutations twice over returns the
    leaves of the batch held once; only the Mutator is called twice as
    often. *)
Theorem applyMutations_replay (muts : list SignedKV) (ls : list MapLeaf) :
  apply (muts ++ muts) (Some <$> ls) = apply muts (Some <$> ls) ∧
  snd (run (muts ++ muts) (Some <$> ls))
  = snd (run muts (Some <$> ls)) ++ snd (run muts (Some <$> ls)).
Proof.
  split.
  - rewrite !applyMutations_eq, final_app. by rewrite (idemp_L (∪)).
  - rewrite !run_eq. simpl. apply omap_app.
Qed.

(** X8: two neighbouring mutations with different normalized indexes
    can change places without changing the leaves returned. *)
Theorem applyMutations_swap (pre : list SignedKV) (m1 m2 : SignedKV)
    (post : list SignedKV) (ls : list MapLeaf) :
  idx m1 ≠ idx m2 →
  apply (pre ++ m1 :: m2 :: post) (Some <$> ls)
  = apply (pre ++ m2 :: m1 :: post) (Some <$> ls).
Proof.
  intros Hne. rewrite !applyMutations_eq. do 3 f_equal.
  rewrite !apply_loop_app, !apply_loop_cons.
  apply retMap_loop_congr. rewrite !apply_one_eq. simpl.
  destruct (wr (leafMap_of ls) m1), (wr (leafMap_of ls) m2); try done.
  by apply insert_insert_ne.
Qed.

Lemma dom_retMap_loop lm muts st :
  dom (retMap (loop lm muts st))
  = dom (retMap st) ∪ list_to_set (accepted_indexes FromLeafValue Mutate lm muts).
Proof.
  revert st. induction muts as [|m muts IH]; intros st.
  - simpl. by rewrite (right_id_L ∅ (∪)).
  - rewrite apply_loop_cons, IH, apply_one_eq. unfold accepted_indexes. simpl.
    destruct (wr lm m) as [l|]; [|done].
    simpl. rewrite dom_insert_L. set_solver.
Qed.

(** X9: the normalized indexes of the returned leaves are the
    normalized indexes of the mutations that wrote a leaf, each once:
    there are as many returned leaves as distinct such indexes. *)
Theorem applyMutations_written_indexes (muts : list SignedKV)
    (ls : list MapLeaf) :
  ∃ ret,
    apply muts (Some <$> ls) = Ret ret ∧
    (toArray ∘ Index) <$> ret
      ≡ₚ remove_dups (accepted_indexes FromLeafValue Mutate (leafMap_of ls) muts) ∧
    length ret
      = length (remove_dups
                  (accepted_indexes FromLeafValue Mutate (leafMap_of ls) muts)).
Proof.
  eexists. split; [apply applyMutations_eq|].
  assert (Hperm : (toArray ∘ Index) <$>
                    range_order (map_values (final (leafMap_of ls) muts))
                  ≡ₚ remove_dups
                       (accepted_indexes FromLeafValue Mutate (leafMap_of ls) muts)).
  { apply NoDup_Permutation.
    - by apply final_NoDup_norm.
    - apply NoDup_remove_dups.
    - intros k. rewrite elem_of_remove_dups.
      rewrite range_order_perm, final_keys_fmap.
      rewrite <- (elem_of_list_to_set (C := gset bytes)).
      rewrite <- (elem_of_list_to_set (C := gset bytes) k (accepted_indexes _ _ _ _)).
      pose proof (dom_retMap_loop (leafMap_of ls) muts (mkLoop ∅ [])) as Hd.
      simpl in Hd. rewrite dom_empty_L, (left_id_L ∅ (∪)) in Hd.
      rewrite <- Hd. rewrite elem_of_list_to_set, elem_of_dom.
      rewrite list_elem_of_fmap. split.
      + intros ([k' l] & -> & Hin). apply elem_of_map_to_list in Hin. eauto.
      + intros [l Hl]. exists (k, l). split; [done|].
        by apply elem_of_map_to_list. }
  split; [exact Hperm|].
  rewrite <- (Permutation_length Hperm). by rewrite length_fmap.
Qed.

Lemma apply_loop_ext lm1 lm2 muts st :
  Forall (fun m => lm1 !! idx m = lm2 !! idx m) muts →
  loop lm1 muts st = loop lm2 muts st.
Proof.
  intros Hall. revert st.
  induction Hall as [|m muts Hm _ IH]; intros st; [done|].
  rewrite !apply_loop_cons, IH. f_equal.
  unfold apply_one, prior_of. by rewrite Hm.
Qed.

(** X10: a fetched leaf whose normalized index is the index of no
    mutation of the batch has no effect on the run. *)
Theorem applyMutations_unrelated_leaf (muts : list SignedKV)
    (ls1 : list MapLeaf) (l : MapLeaf) (ls2 : list MapLeaf) :
  Forall (fun m => idx m ≠ toArray (Index l)) muts →
  run muts (Some <$> (ls1 ++ l :: ls2)) = run muts (Some <$> (ls1 ++ ls2)).
Proof.
  intros Hall.
  assert (Hlm : ∀ k, k ≠ toArray (Index l) →
                leafMap_of (ls1 ++ l :: ls2) !! k = leafMap_of (ls1 ++ ls2) !! k).
  { intros k Hk. induction ls2 as [|l2 ls2 IH] using rev_ind.
    - rewrite leafMap_of_snoc, app_nil_r. by rewrite lookup_insert_ne.
    - replace (ls1 ++ l :: ls2 ++ [l2]) with ((ls1 ++ l :: ls2) ++ [l2])
        by by rewrite <- app_assoc.
      rewrite (app_assoc ls1 ls2 [l2]), !leafMap_of_snoc.
      destruct (decide (toArray (Index l2) = k)) as [->|Hne].
      + by rewrite !lookup_insert_eq.
      + by rewrite !lookup_insert_ne. }
  unfold applyMutations_run. rewrite !build_leafMap_of.
  rewrite (apply_loop_ext (leafMap_of (ls1 ++ l :: ls2)) (leafMap_of (ls1 ++ ls2)));
    [done|].
  eapply Forall_impl; [exact Hall|]. intros m Hm. by apply Hlm.
Qed.

End ApplyMutationsMore.

(** ** newMutations and logProofs: the possible runs *)

Section SequencerMore.

Context {W : Type}.
Variable svc : Services W.
Variable s : Sequencer.

Local Abbreviation key m := (GetKey (GetKeyValue m)).

Ltac split_run := repeat (simpl in *; simplify_eq; try case_match).

Lemma newMutations_shape start w out w' tr :
  newMutations svc start w = (out, w', tr) →
  (∃ e, tr = [EvNewTxn (inl e)] ∧ out = Fail (ErrWrap "NewDBTxn()" e)) ∨
  (∃ e r, tr = [EvNewTxn (inr tt); EvReadAll (to_uint64 start) (inl e);
                EvRollback r] ∧
          out = Fail (ErrWrap "ReadAll" e)) ∨
  (∃ res e, tr = [EvNewTxn (inr tt); EvReadAll (to_uint64 start) (inr res);
                  EvCommit (inl e)] ∧
            out = Fail (ErrWrap "txn.Commit()" e)) ∨
  (∃ maxSequence mutations,
     tr = [EvNewTxn (inr tt);
           EvReadAll (to_uint64 start) (inr (maxSequence, mutations));
           EvCommit (inr tt)] ∧
     out = Ret (mutations, to_int64 maxSequence)).
Proof.
  unfold newMutations, bind, call, fail, ret. intros H. split_run.
  - left. eauto.
  - right. left. destruct u. eauto.
  - right. right. left. destruct u. eauto.
  - right. right. right. destruct u, u0. eauto.
Qed.

(** X11: newMutations ends its transaction at most once: it rolls back
    exactly when ReadAll failed, whatever the rollback answers, and
    commits only after ReadAll succeeded; it returns a batch exactly
    when the commit succeeded, and then the batch is the one ReadAll
    answered. *)
Theorem newMutations_transaction (start : Z) (w : W)
    (out : outcome (list SignedKV * Z)) (w' : W) (tr : list Event) :
  newMutations svc start w = (out, w', tr) →
  out ≠ Panic ∧
  (length (List.filter is_Commit tr) + length (List.filter is_Rollback tr) <= 1)%nat ∧
  (∀ r, EvRollback r ∈ tr →
        ∃ e, EvReadAll (to_uint64 start) (inl e) ∈ tr ∧
             out = Fail (ErrWrap "ReadAll" e)) ∧
  (∀ start' e, EvReadAll start' (inl e) ∈ tr → ∃ r, EvRollback r ∈ tr) ∧
  (∀ r, EvCommit r ∈ tr → ∃ res, EvReadAll (to_uint64 start) (inr res) ∈ tr) ∧
  (∀ mutations seq,
     out = Ret (mutations, seq) ↔
     ∃ maxSequence,
       seq = to_int64 maxSequence ∧
       EvReadAll (to_uint64 start) (inr (maxSequence, mutations)) ∈ tr ∧
       EvCommit (inr tt) ∈ tr).
Proof.
  intros Hrun.
  destruct (newMutations_shape _ _ _ _ _ Hrun)
    as [(e & -> & ->)|[(e & r & -> & ->)|[(res & e & -> & ->)|(ms & mu & -> & ->)]]];
    (split; [done|]); (split; [simpl; lia|]);
    repeat split; intros; set_solver.
Qed.

Lemma to_uint64_range (x : Z) : 0 <= to_uint64 x < 2 ^ 64.
Proof. unfold to_uint64. apply Z.mod_pos_bound. lia. Qed.

Lemma to_int64_range (x : Z) : - 2 ^ 63 <= to_int64 x < 2 ^ 63.
Proof.
  unfold to_int64. pose proof (Z.mod_pos_bound (x + 2 ^ 63) (2 ^ 64)). lia.
Qed.

Lemma to_int64_small (x : Z) : - 2 ^ 63 <= x < 2 ^ 63 → to_int64 x = x.
Proof. intros Hx. unfold to_int64. rewrite Z.mod_small; lia. Qed.

Lemma to_int64_to_uint64 (x : Z) : to_int64 (to_uint64 x) = to_int64 x.
Proof.
  unfold to_int64, to_uint64. f_equal.
  rewrite Zplus_mod_idemp_l. done.
Qed.

Lemma to_uint64_to_int64 (x : Z) : to_uint64 (to_int64 x) = to_uint64 x.
Proof.
  unfold to_int64, to_uint64.
  rewrite <- Zminus_mod_idemp_l. rewrite Zmod_mod.
  rewrite Zminus_mod_idemp_l. f_equal. lia.
Qed.

(** X12: the sequence numbers survive the conversions between the
    signed watermark of the map root and the unsigned numbers of the
    mutation source: a start sequence in the int64 range is recovered
    from what ReadAll is asked, and the watermark that newMutations
    returns, asked again as a start sequence, is the highest sequence
    number that ReadAll answered. *)
Theorem newMutations_sequence_roundtrip (start : Z) (w : W)
    (mutations : list SignedKV) (seq : Z) (w' : W) (tr : list Event) :
  newMutations svc start w = (Ret (mutations, seq), w', tr) →
  ∃ maxSequence,
    EvReadAll (to_uint64 start) (inr (maxSequence, mutations)) ∈ tr ∧
    0 <= to_uint64 start < 2 ^ 64 ∧
    (- 2 ^ 63 <= start < 2 ^ 63 → to_int64 (to_uint64 start) = start) ∧
    - 2 ^ 63 <= seq < 2 ^ 63 ∧
    (0 <= maxSequence < 2 ^ 64 → to_uint64 seq = maxSequence).
Proof.
  intros Hrun.
  destruct (newMutations_Ret _ _ _ _ _ _ _ Hrun) as (maxSequence & -> & ->).
  exists maxSequence. split; [set_solver|].
  split; [apply to_uint64_range|].
  split; [intros Hs; by rewrite to_int64_to_uint64, to_int64_small|].
  split; [apply to_int64_range|].
  intros Hm. rewrite to_uint64_to_int64. unfold to_uint64.
  apply Z.mod_small. lia.
Qed.

Lemma logProofs_shape first epoch w out w' tr :
  logProofs svc s first epoch w = (out, w', tr) →
  (∃ e, tr = [EvGetLatestSignedLogRoot (logID s) (inl e)] ∧
        out = Fail (ErrGrpcInternal "Cannot fetch SignedLogRoot")) ∨
  (∃ root e, first ≠ 0 ∧
     tr = [EvGetLatestSignedLogRoot (logID s) (inr root);
           EvGetConsistencyProof (logID s) first (GetTreeSize root) (inl e)] ∧
     out = Fail (ErrGrpcInternal "Cannot fetch log consistency proof")) ∨
  (∃ root ctr c, 
     (first = 0 ∧ ctr = [] ∧ c = [] ∨
      first ≠ 0 ∧
      ctr = [EvGetConsistencyProof (logID s) first (GetTreeSize root) (inr c)]) ∧
     ((∃ e, tr = EvGetLatestSignedLogRoot (logID s) (inr root) :: ctr ++
                   [EvGetInclusionProof (logID s) epoch (GetTreeSize root) (inl e)] ∧
            out = Fail (ErrGrpcInternal "Cannot fetch log inclusion proof")) ∨
      (∃ i, tr = EvGetLatestSignedLogRoot (logID s) (inr root) :: ctr ++
                   [EvGetInclusionProof (logID s) epoch (GetTreeSize root) (inr i)] ∧
            out = Ret (root, c, i)))).
Proof.
  unfold logProofs, bind, call, fail, ret. intros H.
  destruct (Z.eqb_spec first 0) as [->|Hne]; split_run.
  all: first
    [ left; by eauto
    | right; left; by eauto
    | right; right; eexists _, [], []; split; [by left|];
      first [left; by eauto | right; by eauto]
    | right; right; eexists _, [_], _; split; [by right|];
      first [left; by eauto | right; by eauto] ].
Qed.

(** X13: logProofs never hands on the error of the log server: a
    failure of the root, consistency or inclusion request is reported as
    a fixed gRPC Internal error that names the request, and the run
    stops at the failed request. *)
Theorem logProofs_errors_masked (first epoch : Z) (w : W)
    (out : outcome (option SignedLogRoot * list bytes * list bytes))
    (w' : W) (tr : list Event) :
  logProofs svc s first epoch w = (out, w', tr) →
  out ≠ Panic ∧
  (∀ e, EvGetLatestSignedLogRoot (logID s) (inl e) ∈ tr →
        out = Fail (ErrGrpcInternal "Cannot fetch SignedLogRoot") ∧
        length tr = 1%nat) ∧
  (∀ f2 s2 e, EvGetConsistencyProof (logID s) f2 s2 (inl e) ∈ tr →
        out = Fail (ErrGrpcInternal "Cannot fetch log consistency proof") ∧
        List.filter is_GetInclusionProof tr = []) ∧
  (∀ l t e, EvGetInclusionProof (logID s) l t (inl e) ∈ tr →
        out = Fail (ErrGrpcInternal "Cannot fetch log inclusion proof")) ∧
  (∀ e, out = Fail e →
        e = ErrGrpcInternal "Cannot fetch SignedLogRoot" ∨
        e = ErrGrpcInternal "Cannot fetch log consistency proof" ∨
        e = ErrGrpcInternal "Cannot fetch log inclusion proof").
Proof.
  intros Hrun.
  destruct (logProofs_shape _ _ _ _ _ _ Hrun)
    as [(e & -> & ->)|[(root & e & Hf & -> & ->)|
        (root & ctr & c & [(-> & -> & ->)|(Hf & ->)] &
         [(e & -> & ->)|(i & -> & ->)])]];
    (split; [done|]); repeat split; intros;
    repeat match goal with
           | H : _ ∈ _ :: _ |- _ => apply elem_of_cons in H; destruct H
           | H : _ ∈ [] |- _ => by apply elem_of_nil in H
           | H : _ ∈ _ ++ _ |- _ => simpl in H
           end; simplify_eq; eauto.
Qed.

(** X14: logProofs asks for a consistency proof exactly when the first
    tree size is not 0, from that size to the size of the log root it
    has just fetched; with first tree size 0 the consistency proof it
    returns is empty. The inclusion proof is asked for the given leaf
    index at the size of that same root, and what is returned are the
    answers to these requests. *)
Theorem logProofs_requests (first epoch : Z) (w : W)
    (out : outcome (option SignedLogRoot * list bytes * list bytes))
    (w' : W) (tr : list Event) :
  logProofs svc s first epoch w = (out, w', tr) →
  (first = 0 → List.filter is_GetConsistencyProof tr = []) ∧
  (∀ id f2 s2 r, EvGetConsistencyProof id f2 s2 r ∈ tr →
     first ≠ 0 ∧ id = logID s ∧ f2 = first ∧
     ∃ root, EvGetLatestSignedLogRoot (logID s) (inr root) ∈ tr ∧
             s2 = GetTreeSize root) ∧
  (∀ id l t r, EvGetInclusionProof id l t r ∈ tr →
     id = logID s ∧ l = epoch ∧
     ∃ root, EvGetLatestSignedLogRoot (logID s) (inr root) ∈ tr ∧
             t = GetTreeSize root) ∧
  (∀ root c i, out = Ret (root, c, i) →
     EvGetLatestSignedLogRoot (logID s) (inr root) ∈ tr ∧
     EvGetInclusionProof (logID s) epoch (GetTreeSize root) (inr i) ∈ tr ∧
     (first = 0 → c = []) ∧
     (first ≠ 0 →
      EvGetConsistencyProof (logID s) first (GetTreeSize root) (inr c) ∈ tr)).
Proof.
  intros Hrun.
  destruct (logProofs_shape _ _ _ _ _ _ Hrun)
    as [(e & -> & ->)|[(root & e & Hf & -> & ->)|
        (root & ctr & c & [(-> & -> & ->)|(Hf & ->)] &
         [(e & -> & ->)|(i & -> & ->)])]];
    (split; [intros; by simplify_eq|]); repeat split; intros;
    repeat match goal with
           | H : _ ∈ _ :: _ |- _ => apply elem_of_cons in H; destruct H
           | H : _ ∈ [] |- _ => by apply elem_of_nil in H
           | H : _ ∈ _ ++ _ |- _ => simpl in H
           end; simplify_eq; simpl;
    try done;
    try (eexists; split; [|reflexivity]);
    repeat first [ apply list_elem_of_here | apply list_elem_of_further ].
Qed.

End SequencerMore.


(** ** CreateEpoch: the possible runs *)

Section SequencerEpoch.

Context {W : Type}.
Variable svc : Services W.
Variable s : Sequencer.

Local Abbreviation key m := (GetKey (GetKeyValue m)).
Local Abbreviation apply :=
  (applyMutations (entry_FromLeafValue svc) (mutator_Mutate svc)
     (map_range_order svc)).
Local Abbreviation unbound mRange := (map (fun m => mkMutation m None) mRange).

Lemma lookup_map {A B} (f : A → B) (l : list A) (i : nat) :
  map f l !! i = f <$> l !! i.
Proof. change (map f l) with (f <$> l). apply list_lookup_fmap. Qed.

(** Binding the inclusion proofs to the mutations goes out of range
    exactly when there are more inclusions than mutations; otherwise
    the i-th mutation takes the i-th inclusion as its proof. *)
Lemma bind_proofs_facts (mutations : list Mutation)
    (inclusions : list MapLeafInclusion) :
  (bind_proofs mutations inclusions = None
   ↔ (length mutations < length inclusions)%nat) ∧
  (∀ bound, bind_proofs mutations inclusions = Some bound →
     length bound = length mutations ∧
     ∀ i mu, mutations !! i = Some mu →
       bound !! i
       = Some (mkMutation (Update mu)
                 (match inclusions !! i with
                  | Some p => Some p
                  | None => Proof_ mu
                  end))).
Proof.
  revert mutations.
  induction inclusions as [|p ps IH]; intros mutations.
  - assert (Hnil : bind_proofs mutations [] = Some mutations)
      by by destruct mutations.
    rewrite Hnil. simpl. split; [split; [done|lia]|].
    intros bound [= <-]. split; [done|]. intros i [u pr] Hi.
    rewrite ?lookup_nil. by rewrite Hi.
  - destruct mutations as [|mu mus]; simpl.
    + split; [split; [intros _; lia|done]|]. by intros bound.
    + destruct (IH mus) as [Hnone Hsome].
      destruct (bind_proofs mus ps) as [b|] eqn:Hb; simpl.
      * split.
        { split; [done|]. simpl. intros Hlt.
          assert (Hn : Some b = None) by (apply Hnone; lia). done. }
        intros bound [= <-]. destruct (Hsome b eq_refl) as [Hlen Hat].
        split; [simpl; by rewrite Hlen|].
        intros [|i] mu' Hi; simpl in *; [by simplify_eq|]. by apply Hat.
      * split; [|by intros bound].
        split; [intros _|done].
        assert (length mus < length ps)%nat by by apply Hnone. simpl. lia.
Qed.

Lemma logProofs_shape0 epoch (w : W) out w' tr :
  logProofs svc s 0 epoch w = (out, w', tr) →
  (∃ e, tr = [EvGetLatestSignedLogRoot (logID s) (inl e)] ∧
        out = Fail (ErrGrpcInternal "Cannot fetch SignedLogRoot")) ∨
  (∃ root e,
     tr = [EvGetLatestSignedLogRoot (logID s) (inr root);
           EvGetInclusionProof (logID s) epoch (GetTreeSize root) (inl e)] ∧
     out = Fail (ErrGrpcInternal "Cannot fetch log inclusion proof")) ∨
  (∃ root i,
     tr = [EvGetLatestSignedLogRoot (logID s) (inr root);
           EvGetInclusionProof (logID s) epoch (GetTreeSize root) (inr i)] ∧
     out = Ret (root, [], i)).
Proof.
  intros Hrun.
  destruct (logProofs_shape _ _ _ _ _ _ _ _ Hrun)
    as [(e & -> & ->)|[(root & e & Hf & _)|
        (root & ctr & c & [(_ & -> & ->)|(Hf & _)] &
         [(e & -> & ->)|(i & -> & ->)])]]; try done.
  - left. eauto.
  - right. left. eauto.
  - right. right. eauto.
Qed.

(** The runs of [buildEpoch], from the first failure on. *)
Lemma buildEpoch_shape mRange seq (w : W) out w' tr :
  buildEpoch svc s mRange seq w = (out, w', tr) →
  let idxs := map (fun m => key m) mRange in
  let md := mkMapperMetadata seq in
  (∃ e, tr = [EvGetLeaves (mapID s) idxs (-1) (inl e)] ∧ out = Fail e) ∨
  (∃ incl, tr = [EvGetLeaves (mapID s) idxs (-1) (inr incl)] ∧ out = Panic ∧
           (bind_proofs (unbound mRange) incl = None ∨
            apply mRange (map Leaf incl) = Panic)) ∨
  (∃ incl bound leaves,
     bind_proofs (unbound mRange) incl = Some bound ∧
     apply mRange (map Leaf incl) = Ret leaves ∧
     ((∃ e, tr = [EvGetLeaves (mapID s) idxs (-1) (inr incl);
                  EvSetLeaves (mapID s) leaves md (inl e)] ∧
            out = Fail e) ∨
      (∃ smr,
         (∃ e, json_Marshal svc smr = inl e ∧
               tr = [EvGetLeaves (mapID s) idxs (-1) (inr incl);
                     EvSetLeaves (mapID s) leaves md (inr smr)] ∧
               out = Fail e) ∨
         (∃ js r ptr,
            json_Marshal svc smr = inr js ∧
            tr = EvGetLeaves (mapID s) idxs (-1) (inr incl)
                 :: EvSetLeaves (mapID s) leaves md (inr smr)
                 :: EvQueueLeaf (logID s) js (sha256_Sum256 svc js) r :: ptr ∧
            match r with
            | inl e => ptr = [] ∧
                       out = Fail (ErrWrap "trillianLog.QueueLeaf" e)
            | inr _ =>
                ∃ w3 po,
                  logProofs svc s 0 (to_int64 (GetMapRevision smr - 1)) w3
                    = (po, w', ptr) ∧
                  out = match po with
                        | Ret (lr, lc, li) =>
                            Ret (Some (mkGetMutationsResponse
                                         (GetMapRevision smr) smr lr lc li bound))
                        | Fail e => Fail e
                        | Panic => Panic
                        end
            end)))).
Proof.
  intros Hrun idxs md. revert Hrun.
  unfold buildEpoch. unfold bind at 1. unfold call at 1.
  destruct (tmap_GetLeaves _ _ _ _ _) as [[e|incl] w1]; simpl.
  { intros [= <- <- <-]. left. eauto. }
  destruct (bind_proofs _ _) as [bound|] eqn:Hbound; simpl.
  2:{ intros [= <- <- <-]. right. left. eauto. }
  destruct (applyMutations _ _ _ _ _) as [leaves|e|] eqn:Ha; simpl.
  2:{ by apply applyMutations_never_fails in Ha. }
  2:{ intros [= <- <- <-]. right. left. eauto. }
  intros Hrun. right. right. exists incl, bound, leaves.
  split; [done|]. split; [done|]. revert Hrun.
  unfold bind at 1. unfold call at 1.
  destruct (tmap_SetLeaves _ _ _ _ _) as [[e|smr] w2]; simpl.
  { intros [= <- <- <-]. left. eauto. }
  intros Hrun. right. exists smr. revert Hrun.
  unfold bind at 1. rewrite queueLogLeaf_run.
  destruct (json_Marshal svc smr) as [e|js] eqn:Hj; simpl.
  { intros [= <- <- <-]. left. eauto. }
  destruct (tlog_QueueLeaf _ _ _ _ _) as [[e|u] w3]; simpl.
  { intros [= <- <- <-]. right. eexists js, (inl e), []. by repeat split. }
  unfold bind at 1.
  destruct (logProofs _ _ _ _ _) as [[po w4] ptr] eqn:Hlp.
  intros Hrun. right. exists js, (inr u), ptr. split; [done|].
  destruct po as [[[lr lc] li]|e|]; simpl in Hrun; simplify_eq;
    rewrite ?app_nil_r; (split; [done|]); eexists _, _; (split; [exact Hlp|done]).
Qed.

(** The runs of [CreateEpoch] up to [buildEpoch]. *)
Lemma CreateEpoch_shape force (w : W) out w' tr :
  CreateEpoch svc s force w = (out, w', tr) →
  (∃ e, tr = [EvGetSignedMapRoot (mapID s) (inl e)] ∧
        out = Fail (ErrWrap "GetSignedMapRoot" e)) ∨
  (∃ root w1 tr2 e,
     newMutations svc (GetHighestFullyCompletedSeq (GetMetadata root)) w1
       = (Fail e, w', tr2) ∧
     tr = EvGetSignedMapRoot (mapID s) (inr root) :: tr2 ∧
     out = Fail (ErrWrap "newMutations" e)) ∨
  (∃ root w1 tr2 mRange seq w2,
     newMutations svc (GetHighestFullyCompletedSeq (GetMetadata root)) w1
       = (Ret (mRange, seq), w2, tr2) ∧
     ((mRange = [] ∧ force = false ∧ w' = w2 ∧
       tr = EvGetSignedMapRoot (mapID s) (inr root) :: tr2 ∧ out = Ret None) ∨
      (∃ tr3, (mRange ≠ [] ∨ force = true) ∧
              buildEpoch svc s mRange seq w2 = (out, w', tr3) ∧
              tr = EvGetSignedMapRoot (mapID s) (inr root) :: tr2 ++ tr3))).
Proof.
  unfold CreateEpoch. unfold bind at 1. unfold call at 1.
  destruct (tmap_GetSignedMapRoot _ _ _) as [[e|root] w1]; simpl.
  { intros [= <- <- <-]. left. eauto. }
  unfold bind at 1. unfold try at 1.
  destruct (newMutations _ _ _) as [[o w2] tr2] eqn:Hnew.
  destruct o as [[mRange seq]|e|]; simpl.
  - intros Hrun. right. right. exists root, w1, tr2, mRange, seq, w2.
    split; [done|].
    destruct mRange as [|m mRange]; destruct force; simpl in Hrun.
    + right. destruct (buildEpoch svc s [] seq w2) as [[o3 w3] tr3] eqn:Hb.
      simplify_eq. exists tr3. split; [by right|done].
    + left. unfold ret in Hrun. simplify_eq. by rewrite app_nil_r.
    + right. destruct (buildEpoch svc s _ seq w2) as [[o3 w3] tr3] eqn:Hb.
      simplify_eq. exists tr3. split; [by left|done].
    + right. destruct (buildEpoch svc s _ seq w2) as [[o3 w3] tr3] eqn:Hb.
      simplify_eq. exists tr3. split; [by left|done].
  - intros [= <- <- <-]. right. left. exists root, w1, tr2, e.
    by rewrite app_nil_r.
  - by destruct (newMutations_shape _ _ _ _ _ _ Hnew)
      as [(? & _ & ?)|[(? & ? & _ & ?)|[(? & ? & _ & ?)|(? & ? & _ & ?)]]].
Qed.

Ltac mem_cases :=
  repeat match goal with
         | H : _ ∈ [] |- _ => by apply elem_of_nil in H
         | H : _ ∈ _ :: _ |- _ =>
             apply elem_of_cons in H; destruct H as [H|H];
             [try discriminate H; try (inversion H; clear H; subst)|]
         end.

Ltac mem_solve :=
  repeat first [ apply list_elem_of_here | apply list_elem_of_further ].

(** All the runs of [CreateEpoch], with their traces spelled out. *)
Ltac epoch_runs Hrun :=
  let Hnew := fresh "Hnew" in
  let Hb := fresh "Hb" in
  let Hgo := fresh "Hgo" in
  let Hlp := fresh "Hlp" in
  destruct (CreateEpoch_shape _ _ _ _ _ Hrun)
    as [(? & -> & ->)
       |[(? & ? & ? & ? & Hnew & -> & ->)
        |(? & ? & ? & ? & ? & ? & Hnew &
          [(-> & -> & -> & -> & ->)|(? & Hgo & Hb & ->)])]];
  [ idtac
  | destruct (newMutations_shape _ _ _ _ _ _ Hnew)
      as [(? & -> & ?)|[(? & ? & -> & ?)|[(? & ? & -> & ?)|(? & ? & -> & ?)]]];
    simplify_eq
  | destruct (newMutations_Ret _ _ _ _ _ _ _ Hnew) as (? & -> & ?); simplify_eq
  | destruct (newMutations_Ret _ _ _ _ _ _ _ Hnew) as (? & -> & ->);
    destruct (buildEpoch_shape _ _ _ _ _ _ Hb)
      as [(? & -> & ->)
         |[(? & -> & -> & ?)
          |(? & ? & ? & ? & ? &
            [(? & -> & ->)
            |(? & [(? & ? & -> & ->)
                  |(? & [?|[]] & ? & ? & -> & ?)])])]];
    [ idtac | idtac | idtac | idtac
    | match goal with H : _ ∧ _ |- _ => destruct H as [-> ->] end
    | match goal with H : ∃ _, _ |- _ => destruct H as (? & ? & Hlp & ->) end;
      destruct (logProofs_shape0 _ _ _ _ _ Hlp)
        as [(? & -> & ->)|[(? & ? & -> & ->)|(? & ? & -> & ->)]] ] ].

(** Where an event sits in a trace that is spelled out. *)
Ltac split_trace H b :=
  destruct b as [|? b]; simpl in H;
  [ try discriminate H; try (injection H as ? ?)
  | injection H as <- H;
    lazymatch type of H with
    | [] = _ => by destruct b
    | _ => split_trace H b
    end ].

(** X15: a SetLeaves request of CreateEpoch goes to the sequencer's map
    and is made only after the read transaction was committed and
    GetLeaves answered: the run up to the request is the read of the map
    root, the opening of the transaction, ReadAll from the root's
    highest sequence number, the commit and the GetLeaves request for
    the batch, all of them successful and in this order. The leaves of
    the request are what applyMutations returned for the batch read and
    the leaves of the GetLeaves answer, and its mapper metadata carry
    the highest sequence number that ReadAll answered. *)
Theorem CreateEpoch_SetLeaves_request (force : bool) (w : W)
    (out : outcome (option GetMutationsResponse)) (w' : W) (tr : list Event)
    (before after : list Event)
    (map_id : Z) (leaves : list MapLeaf) (mapper : MapperMetadata)
    (resp : error + option SignedMapRoot) :
  CreateEpoch svc s force w = (out, w', tr) →
  tr = before ++ EvSetLeaves map_id leaves mapper resp :: after →
  map_id = mapID s ∧
  ∃ root maxSequence mRange incl,
    before
    = [EvGetSignedMapRoot (mapID s) (inr root);
       EvNewTxn (inr tt);
       EvReadAll (to_uint64 (GetHighestFullyCompletedSeq (GetMetadata root)))
         (inr (maxSequence, mRange));
       EvCommit (inr tt);
       EvGetLeaves (mapID s) (map (fun m => key m) mRange) (-1) (inr incl)] ∧
    apply mRange (map Leaf incl) = Ret leaves ∧
    mapper = mkMapperMetadata (to_int64 maxSequence).
Proof.
  intros Hrun Hin. epoch_runs Hrun; simpl in Hin; split_trace Hin before;
    simplify_eq; (split; [done|]); eexists _, _, _, _;
    (split; [reflexivity|]); by split.
Qed.

(** X16: one run of CreateEpoch makes at most one GetLeaves, one
    SetLeaves and one QueueLeaf request, and it queues a leaf only after
    a SetLeaves request that succeeded: the event right before a
    QueueLeaf request is the SetLeaves request of the run with a
    successful answer, and what is queued, in the sequencer's log, is
    the JSON of the root of that answer under its SHA-256 digest. *)
Theorem CreateEpoch_writes_once (force : bool) (w : W)
    (out : outcome (option GetMutationsResponse)) (w' : W) (tr : list Event) :
  CreateEpoch svc s force w = (out, w', tr) →
  (length (GetLeaves_requests tr) <= 1)%nat ∧
  (length (List.filter is_SetLeaves tr) <= 1)%nat ∧
  (length (List.filter is_QueueLeaf tr) <= 1)%nat ∧
  (∀ before after log_id v h r,
     tr = before ++ EvQueueLeaf log_id v h r :: after →
     ∃ leaves mapper smr,
       last before = Some (EvSetLeaves (mapID s) leaves mapper (inr smr)) ∧
       List.filter is_SetLeaves after = [] ∧
       json_Marshal svc smr = inr v ∧
       log_id = logID s ∧
       h = sha256_Sum256 svc v).
Proof.
  intros Hrun. epoch_runs Hrun; simpl;
    (split; [lia|]); (split; [lia|]); (split; [lia|]);
    intros before after log_id v h r Hin; split_trace Hin before;
    simplify_eq; eexists _, _, _; (split; [reflexivity|]); by split_and!.
Qed.

(** X17: when CreateEpoch returns a summary, SetLeaves and QueueLeaf
    both succeeded in that run; the summary holds the root that
    SetLeaves answered and its revision as the epoch, the log root
    fetched afterwards, the inclusion proof asked for leaf index
    revision - 1 at the size of that log root, an empty consistency
    proof, and one entry per mutation of the batch, in batch order, the
    i-th with the i-th inclusion of the GetLeaves answer as its proof
    (none past the end of the answer). *)
Theorem CreateEpoch_summary (force : bool) (w : W) (w' : W)
    (tr : list Event) (resp : GetMutationsResponse) :
  CreateEpoch svc s force w = (Ret (Some resp), w', tr) →
  ∃ start maxSequence mRange incl leaves smr js lr li,
    EvReadAll start (inr (maxSequence, mRange)) ∈ tr ∧
    EvGetLeaves (mapID s) (map (fun m => key m) mRange) (-1) (inr incl) ∈ tr ∧
    EvSetLeaves (mapID s) leaves (mkMapperMetadata (to_int64 maxSequence))
      (inr smr) ∈ tr ∧
    EvQueueLeaf (logID s) js (sha256_Sum256 svc js) (inr tt) ∈ tr ∧
    EvGetLatestSignedLogRoot (logID s) (inr lr) ∈ tr ∧
    EvGetInclusionProof (logID s) (to_int64 (GetMapRevision smr - 1))
      (GetTreeSize lr) (inr li) ∈ tr ∧
    Epoch resp = GetMapRevision smr ∧
    Smr resp = smr ∧
    LogRoot resp = lr ∧
    LogConsistency resp = [] ∧
    LogInclusion resp = li ∧
    length (Mutations resp) = length mRange ∧
    (∀ i m, mRange !! i = Some m →
            Mutations resp !! i = Some (mkMutation m (incl !! i))).
Proof.
  remember (Ret (Some resp)) as out eqn:Hout.
  intros Hrun. epoch_runs Hrun; simplify_eq.
  match goal with
  | Hb : bind_proofs _ _ = Some _ |- _ =>
      destruct (proj2 (bind_proofs_facts _ _) _ Hb) as [Hlen Hat]
  end.
  eexists _, _, _, _, _, _, _, _, _.
  repeat (split; [simpl; mem_solve; done|]).
  simpl. split; [rewrite Hlen; apply length_map|].
  intros i m Hi.
  rewrite (Hat i (mkMutation m None)) by by rewrite lookup_map, Hi.
  simpl.
  match goal with
  | |- context [?x !! i] => by destruct (x !! i)
  end.
Qed.

(** X18: CreateEpoch never asks the log for a consistency proof. *)
Theorem CreateEpoch_no_consistency_proof (force : bool) (w : W)
    (out : outcome (option GetMutationsResponse)) (w' : W) (tr : list Event) :
  CreateEpoch svc s force w = (out, w', tr) →
  List.filter is_GetConsistencyProof tr = [].
Proof. intros Hrun. by epoch_runs Hrun. Qed.

(** X19: when the write to the map or its anchoring in the log fails,
    the run ends there with an error and without a summary. A failed
    SetLeaves hands its error on unchanged and nothing is queued. A root
    that does not serialize leaves the map written and nothing queued.
    A failed QueueLeaf comes after a SetLeaves that succeeded, and no
    log proof is fetched. *)
Theorem CreateEpoch_write_failures (force : bool) (w : W)
    (out : outcome (option GetMutationsResponse)) (w' : W) (tr : list Event) :
  CreateEpoch svc s force w = (out, w', tr) →
  (∀ map_id leaves mapper e,
     EvSetLeaves map_id leaves mapper (inl e) ∈ tr →
     out = Fail e ∧
     last tr = Some (EvSetLeaves map_id leaves mapper (inl e)) ∧
     List.filter is_QueueLeaf tr = []) ∧
  (∀ map_id leaves mapper smr e,
     EvSetLeaves map_id leaves mapper (inr smr) ∈ tr →
     json_Marshal svc smr = inl e →
     out = Fail e ∧
     last tr = Some (EvSetLeaves map_id leaves mapper (inr smr)) ∧
     List.filter is_QueueLeaf tr = []) ∧
  (∀ log_id v h e,
     EvQueueLeaf log_id v h (inl e) ∈ tr →
     out = Fail (ErrWrap "trillianLog.QueueLeaf" e) ∧
     last tr = Some (EvQueueLeaf log_id v h (inl e)) ∧
     List.filter is_GetInclusionProof tr = [] ∧
     ∃ leaves mapper smr, EvSetLeaves (mapID s) leaves mapper (inr smr) ∈ tr).
Proof.
  intros Hrun. epoch_runs Hrun; (split; [|split]); intros;
    simpl in *; mem_cases; simplify_eq; try congruence;
    split_and!; try done; try congruence.
  all: eexists _, _, _; mem_solve.
Qed.

(** X20: when GetLeaves answers with more inclusions than the batch has
    mutations, or with an inclusion that holds no leaf, CreateEpoch
    panics before anything is written: the run ends at GetLeaves. *)
Theorem CreateEpoch_bad_GetLeaves_answer (force : bool) (w : W)
    (out : outcome (option GetMutationsResponse)) (w' : W) (tr : list Event)
    (map_id : Z) (indexes : list bytes) (revision : Z)
    (incl : list MapLeafInclusion) :
  CreateEpoch svc s force w = (out, w', tr) →
  EvGetLeaves map_id indexes revision (inr incl) ∈ tr →
  (length indexes < length incl)%nat ∨ None ∈ map Leaf incl →
  out = Panic ∧
  last tr = Some (EvGetLeaves map_id indexes revision (inr incl)) ∧
  List.filter is_SetLeaves tr = [].
Proof.
  intros Hrun Hin Hbad.
  assert (Hgood : ∀ (mRange : list SignedKV) bound leaves,
    bind_proofs (unbound mRange) incl = Some bound →
    apply mRange (map Leaf incl) = Ret leaves →
    ¬ ((length (map (fun m => key m) mRange) < length incl)%nat
       ∨ None ∈ map Leaf incl)).
  { intros mRange bound leaves Hb Ha [Hlen|Hnil].
    - assert (Hn : bind_proofs (unbound mRange) incl = None).
      { apply bind_proofs_facts. by rewrite !length_map in *. }
      congruence.
    - apply (build_leafMap_None _ ∅) in Hnil.
      unfold applyMutations, applyMutations_run in Ha.
      rewrite Hnil in Ha. done. }
  epoch_runs Hrun; simpl in *; mem_cases; simplify_eq;
    try (exfalso; eapply Hgood; eauto; fail); done.
Qed.

(** ** The dispatcher and the driver loop *)

Lemma CreateEpoch_no_sends force (w : W) out w' tr :
  CreateEpoch svc s force w = (out, w', tr) →
  List.filter is_ChanSend tr = [].
Proof. intros Hrun. by epoch_runs Hrun. Qed.

Lemma sends_filter (chans : list nat) (m : option GetMutationsResponse) :
  List.filter is_ChanSend (sends chans m) = sends chans m.
Proof. induction chans as [|ch chans IH]; [done|]. simpl. by rewrite IH. Qed.

Lemma mChannels_register_all (s0 : Sequencer) (chs : list nat) :
  mChannels (foldl RegisterMutationsChannel s0 chs) = mChannels s0 ++ chs.
Proof.
  revert s0. induction chs as [|ch chs IH]; intros s0; simpl.
  - by rewrite app_nil_r.
  - rewrite IH. simpl. by rewrite <- app_assoc.
Qed.

(** X21: a message is sent once for every registration, in the order of
    the registrations: registering a channel adds one send after those
    to the channels registered before, a channel registered twice is
    sent every message twice, and sending changes nothing else. *)
Theorem disseminate_after_register (s0 : Sequencer) (chs : list nat)
    (m : option GetMutationsResponse) (w : W) :
  disseminateMutations (foldl RegisterMutationsChannel s0 chs) m w
  = (Ret tt, w, trace_of (disseminateMutations s0 m w) ++ sends chs m) ∧
  (∀ ch,
     length (List.filter (sent_to ch)
               (trace_of (disseminateMutations
                            (foldl RegisterMutationsChannel s0 chs) m w)))
     = length (List.filter (fun c => Nat.eqb c ch) (mChannels s0 ++ chs))).
Proof.
  unfold disseminateMutations, trace_of. rewrite !send_all_run. simpl.
  rewrite mChannels_register_all. split.
  - unfold sends. by rewrite map_app.
  - intros ch. generalize (mChannels s0 ++ chs). intros l.
    induction l as [|c l IH]; [done|]. simpl.
    destruct (Nat.eqb c ch); simpl; by rewrite IH.
Qed.

Lemma epochTick_run f (w : W) :
  epochTick svc s f w
  = match CreateEpoch svc s f w with
    | (Ret m, w1, t) => (Ret tt, w1, t ++ sends (mChannels s) m)
    | (Fail _, w1, t) => (Ret tt, w1, t ++ sends (mChannels s) None)
    | (Panic, w1, t) => (Panic, w1, t)
    end.
Proof.
  unfold epochTick, bind, try, disseminateMutations.
  destruct (CreateEpoch svc s f w) as [[[m|e|] w1] t]; simpl;
    by rewrite ?send_all_run.
Qed.

(** X22: one turn of the driver loop never returns an error. Unless
    CreateEpoch panics, every registered channel is sent one value, in
    registration order and after all the requests of CreateEpoch: the
    summary when CreateEpoch returned one, and nil when CreateEpoch
    returned nothing or failed. *)
Theorem epochTick_fanout (f : bool) (w : W) (r : outcome (option GetMutationsResponse))
    (w1 : W) (t : list Event) :
  CreateEpoch svc s f w = (r, w1, t) →
  (∀ e, outcome_of (epochTick svc s f w) ≠ Fail e) ∧
  (r = Panic → epochTick svc s f w = (Panic, w1, t)) ∧
  (r ≠ Panic →
     epochTick svc s f w
     = (Ret tt, w1,
        t ++ sends (mChannels s) (match r with Ret m => m | _ => None end)) ∧
     List.filter is_ChanSend (trace_of (epochTick svc s f w))
     = sends (mChannels s) (match r with Ret m => m | _ => None end)).
Proof.
  intros Hrun. rewrite epochTick_run, Hrun.
  pose proof (CreateEpoch_no_sends _ _ _ _ _ Hrun) as Hns.
  destruct r as [m|e|]; unfold outcome_of, trace_of; simpl;
    (split; [done|]); (split; [done|]); intros Hnp; try done;
    (split; [done|]); by rewrite List.filter_app, Hns, sends_filter.
Qed.

(** The values sent in the course of some turns of the loop. *)
Lemma epochTicks_sends fs (w : W) w' tr :
  epochTicks svc s fs w = (Ret tt, w', tr) →
  ∃ ms, length ms = length fs ∧
        List.filter is_ChanSend tr = concat (map (sends (mChannels s)) ms).
Proof.
  revert w w' tr. induction fs as [|f fs IH]; intros w w' tr; simpl.
  - intros [= <- <-]. by exists [].
  - unfold bind at 1. rewrite epochTick_run.
    destruct (CreateEpoch svc s f w) as [[r w1] t] eqn:Hce.
    pose proof (CreateEpoch_no_sends _ _ _ _ _ Hce) as Hns.
    destruct r as [m|e|]; [| |done];
      destruct (epochTicks svc s fs w1) as [[o2 w2] t2] eqn:Hrest;
      intros Hr; simplify_eq;
      destruct (IH _ _ _ Hrest) as (ms & Hlen & Hms).
    + exists (m :: ms). split; [simpl; by rewrite Hlen|].
      simpl. rewrite !List.filter_app, Hns, sends_filter, Hms. done.
    + exists (None :: ms). split; [simpl; by rewrite Hlen|].
      simpl. rewrite !List.filter_app, Hns, sends_filter, Hms. done.
Qed.

Lemma epochTicks_never_fails fs (w : W) e :
  outcome_of (epochTicks svc s fs w) ≠ Fail e.
Proof.
  revert w. induction fs as [|f fs IH]; intros w; [done|].
  simpl. unfold bind at 1. rewrite epochTick_run.
  destruct (CreateEpoch svc s f w) as [[[m|e'|] w1] t]; [| |done];
    specialize (IH w1); unfold outcome_of in *;
    by destruct (epochTicks svc s fs w1) as [[o2 w2] t2].
Qed.

(** X23: over any number of turns of the driver loop that end without a
    panic, all registered channels are sent the same values in the same
    order, one per turn: the channel sends of the run are, turn after
    turn, that turn's value sent to every channel in registration
    order. *)
Theorem epochTicks_fanout (fs : list bool) (w : W) (w' : W) (tr : list Event) :
  epochTicks svc s fs w = (Ret tt, w', tr) →
  ∃ ms : list (option GetMutationsResponse),
    length ms = length fs ∧
    List.filter is_ChanSend tr = concat (map (sends (mChannels s)) ms) ∧
    length (List.filter is_ChanSend tr)
    = (length fs * length (mChannels s))%nat.
Proof.
  intros Hrun. destruct (epochTicks_sends _ _ _ _ Hrun) as (ms & Hlen & Hms).
  exists ms. split; [done|]. split; [done|]. rewrite Hms, <- Hlen.
  clear. induction ms as [|m ms IH]; [done|].
  simpl. rewrite length_app, IH. unfold sends. by rewrite length_map.
Qed.

End SequencerEpoch.




(** ** The tick generator over whole runs of the ticker *)

Lemma tick_due_true (now last minElapsed maxElapsed : Z) :
  0 <= now - last <= 2 ^ 61 → 0 <= minElapsed <= 2 ^ 61 →
  now - last + minElapsed >= maxElapsed →
  tick_due now last minElapsed maxElapsed = true.
Proof.
  intros H1 H2 H3. apply tick_due_exact; [| |done];
    unfold minDuration, maxDuration; lia.
Qed.

Lemma tick_due_false (now last minElapsed maxElapsed : Z) :
  0 <= now - last <= 2 ^ 61 → 0 <= minElapsed <= 2 ^ 61 →
  now - last + minElapsed < maxElapsed →
  tick_due now last minElapsed maxElapsed = false.
Proof.
  intros H1 H2 H3.
  destruct (tick_due now last minElapsed maxElapsed) eqn:Hd; [|done].
  apply tick_due_exact in Hd; unfold minDuration, maxDuration; lia.
Qed.

Lemma last_cons_default {A} (a : A) (l : list A) (d d' : A) :
  List.last (a :: l) d = List.last (a :: l) d'.
Proof.
  revert a. induction l as [|b l IH]; intros a; [done|].
  change (List.last (b :: l) d = List.last (b :: l) d'). apply IH.
Qed.

(** X24: when maxElapsed is not above minElapsed, every firing of the
    ticker forces an epoch, and [last] follows the firings. (Firings in
    ascending order, none before [last], the whole run and minElapsed
    well inside the range of a Duration.) *)
Theorem ticks_all_forced (last : Z) (minTick : list Z)
    (minElapsed maxElapsed : Z) :
  maxElapsed <= minElapsed → 0 <= minElapsed <= 2 ^ 61 →
  StronglySorted Z.le (last :: minTick) →
  Forall (fun t => t <= last + 2 ^ 61) minTick →
  ticks_loop last minTick minElapsed maxElapsed
  = (replicate (length minTick) true, List.last minTick last).
Proof.
  intros Hmm Hmin. revert last.
  induction minTick as [|t rest IH]; intros last Hsorted Hbound; [done|].
  apply StronglySorted_inv in Hsorted. destruct Hsorted as [Hrest Hall].
  apply Forall_cons in Hall. destruct Hall as [Hlt Hall].
  apply Forall_cons in Hbound. destruct Hbound as [Hb Hbound].
  cbn beta in Hb, Hlt.
  cbn [ticks_loop]. rewrite tick_due_true by lia.
  rewrite IH.
  - simpl. f_equal. destruct rest as [|t' rest]; [done|].
    apply last_cons_default.
  - done.
  - eapply Forall_impl; [exact Hbound|]. simpl. lia.
Qed.

(** X25: as long as every firing comes less than maxElapsed - minElapsed
    after [last], no firing forces an epoch and [last] stays as it is. *)
Theorem ticks_none_forced (last : Z) (minTick : list Z)
    (minElapsed maxElapsed : Z) :
  0 <= minElapsed <= 2 ^ 61 →
  Forall (fun t => 0 <= t - last <= 2 ^ 61 ∧ t - last + minElapsed < maxElapsed)
         minTick →
  ticks_loop last minTick minElapsed maxElapsed
  = (replicate (length minTick) false, last).
Proof.
  intros Hmin Hall. induction Hall as [|t rest [Ht1 Ht2] _ IH]; [done|].
  cbn [ticks_loop]. rewrite tick_due_false by lia. by rewrite IH.
Qed.

Lemma ticks_loop_regular (p : nat) (minElapsed : Z) (n : nat) :
  (1 <= p)%nat → 0 < minElapsed →
  ∀ (j : nat) (last : Z),
    (j < p)%nat →
    Z.of_nat (j + n + p + 1) * minElapsed <= 2 ^ 61 →
    (ticks_loop last
       (map (fun i => last + Z.of_nat (j + i) * minElapsed) (seq 1 n))
       minElapsed (Z.of_nat (S p) * minElapsed)).1
    = map (fun i => bool_decide ((j + i) mod p = 0)%nat) (seq 1 n).
Proof.
  intros Hp Hmin. induction n as [|n IH]; intros j last Hj Hb; [done|].
  rewrite <- cons_seq. rewrite <- fmap_S_seq.
  change (map ?f (?x :: ?l)) with (f x :: map f l).
  cbn [ticks_loop].
  change (S <$> seq 1 n) with (map S (seq 1 n)). rewrite !map_map.
  destruct (decide (S j = p)) as [Heq|Hne].
  - rewrite tick_due_true by nia.
    rewrite (map_ext (fun i => last + Z.of_nat (j + S i) * minElapsed)
               (fun i => (last + Z.of_nat (j + 1) * minElapsed)
                         + Z.of_nat (0 + i) * minElapsed)) by (intros; nia).
    specialize (IH 0%nat (last + Z.of_nat (j + 1) * minElapsed)).
    destruct (ticks_loop _ _ _ _) as [bs l]. simpl in *.
    rewrite IH by first [lia | nia]. f_equal.
    + symmetry. apply bool_decide_eq_true_2.
      replace (j + 1)%nat with p by lia. apply Nat.Div0.mod_same.
    + apply map_ext. intros i.
      replace (j + S i)%nat with (i + 1 * p)%nat by lia.
      by rewrite Nat.Div0.mod_add.
  - rewrite tick_due_false by nia.
    rewrite (map_ext (fun i => last + Z.of_nat (j + S i) * minElapsed)
               (fun i => last + Z.of_nat (S j + i) * minElapsed))
      by (intros; f_equal; f_equal; lia).
    specialize (IH (S j) last).
    destruct (ticks_loop _ _ _ _) as [bs l]. simpl in *.
    rewrite IH by first [lia | nia]. f_equal.
    + symmetry. apply bool_decide_eq_false_2.
      destruct (decide (j + 1 < p)%nat) as [Hlt|Hge]; [|lia].
      rewrite Nat.mod_small by lia. lia.
    + apply map_ext. intros i.
      by replace (j + S i)%nat with (S j + i)%nat by lia.
Qed.

(** X26: with a ticker that fires every minElapsed from [last] on and
    maxElapsed = (p + 1) * minElapsed, an epoch is forced at every p-th
    firing and at no other. *)
Theorem ticks_forced_every_p (p : nat) (last minElapsed : Z) (n : nat) :
  (1 <= p)%nat → 0 < minElapsed →
  Z.of_nat (n + p + 1) * minElapsed <= 2 ^ 61 →
  (ticks_loop last (regular_ticks last minElapsed n) minElapsed
     (Z.of_nat (S p) * minElapsed)).1
  = map (fun i => bool_decide (i mod p = 0)%nat) (seq 1 n).
Proof.
  intros Hp Hmin Hb.
  pose proof (ticks_loop_regular p minElapsed n Hp Hmin 0%nat last) as H.
  simpl in H. apply H; [lia|done].
Qed.

(** ** StartSigning *)

Section DriverTheory.

Context {W Clock : Type}.
Variable svc : Services W.
Variable s : Sequencer.
Variable Now : Clock -> Z * Clock.

Lemma Initialize_no_panic_no_sends (w : W) out w' tr :
  Initialize svc s w = (out, w', tr) →
  out ≠ Panic ∧ List.filter is_ChanSend tr = [] ∧
  List.filter is_SetLeaves tr = [].
Proof.
  unfold Initialize, queueLogLeaf, bind, call, fail, ret. intros H.
  repeat (simpl in *; simplify_eq; try case_match); done.
Qed.

(** The flags that the ticker hands to the loop of [StartSigning] when
    the map root read at start is [mapRoot]. *)
Local Abbreviation flags clk mapRoot minTick minInterval maxInterval :=
  (genEpochTicks Now clk (GetTimestampNanos mapRoot) minTick
     minInterval maxInterval).1.1.

(** The loop of [StartSigning] from the creation of the ticker on. *)
Local Abbreviation ticker_loop clk mapRoot minTick minInterval maxInterval w :=
  (if minInterval <=? 0 then (Panic, w, [])
   else epochTicks svc s
          (flags clk mapRoot minTick minInterval maxInterval) w).

Lemma StartSigning_run (clk : Clock) (minTick : list Z)
    (minInterval maxInterval : Z) (w : W) :
  StartSigning svc s Now clk minTick minInterval maxInterval w
  = let '(oi, w1, ti) := Initialize svc s w in
    match oi with
    | Panic => (Panic, w1, ti)
    | _ =>
        let '(r, w2) := tmap_GetSignedMapRoot svc (mapID s) w1 in
        match r with
        | inr mapRoot =>
            let '(o, w5, t5) :=
              ticker_loop clk mapRoot minTick minInterval maxInterval w2 in
            (o, w5, ti ++ EvGetSignedMapRoot (mapID s) r :: t5)
        | inl _ =>
            let '(oc, w3, tc) := CreateEpoch svc s true w2 in
            match oc with
            | Panic =>
                (Panic, w3, ti ++ EvGetSignedMapRoot (mapID s) r :: tc)
            | _ =>
                let '(r2, w4) := tmap_GetSignedMapRoot svc (mapID s) w3 in
                let mapRoot := match r2 with inr x => x | inl _ => None end in
                let '(o, w5, t5) :=
                  ticker_loop clk mapRoot minTick minInterval maxInterval w4 in
                (o, w5, ti ++ EvGetSignedMapRoot (mapID s) r :: tc
                          ++ EvGetSignedMapRoot (mapID s) r2 :: t5)
            end
        end
    end.
Proof.
  unfold StartSigning, time_NewTicker, bind, try, call, ret, panic.
  destruct (Initialize svc s w) as [[oi w1] ti].
  destruct oi as [[]|e|]; [| |done].
  all: destruct (tmap_GetSignedMapRoot svc (mapID s) w1) as [[e1|mapRoot] w2];
    cbn [fst snd].
  2,4: destruct (minInterval <=? 0); [by rewrite ?app_nil_r|];
       destruct (genEpochTicks Now clk (GetTimestampNanos mapRoot) minTick
                   minInterval maxInterval) as [[fs l] c]; cbn [fst snd];
       destruct (epochTicks svc s fs w2) as [[o w5] t5]; done.
  all: destruct (CreateEpoch svc s true w2) as [[oc w3] tc];
    destruct oc as [m|e2|]; cbn [fst snd]; try done.
  all: destruct (tmap_GetSignedMapRoot svc (mapID s) w3) as [r2 w4];
    cbn [fst snd].
  all: destruct (minInterval <=? 0);
    [simpl; by rewrite ?app_nil_r, <- ?app_assoc|].
  all: match goal with
       | |- context [genEpochTicks ?a ?b ?l ?c ?d ?e] =>
           destruct (genEpochTicks a b l c d e) as [[fs l'] c']
       end; cbn [fst snd];
    match goal with
    | |- context [epochTicks ?a ?b ?c ?d] =>
        destruct (epochTicks a b c d) as [[o w5] t5]
    end;
    simpl; by rewrite ?app_nil_r, <- ?app_assoc.
Qed.

(** X27: StartSigning never returns an error, and a failure of
    Initialize does not stop it: whatever Initialize returned, the map
    root is read next. When that succeeds the ticker is created: for a
    positive minInterval the loop runs with the flags that the tick
    generator yields from the root's timestamp; for a minInterval that
    is zero or negative time.NewTicker panics, and StartSigning ends
    there, right after the read of the root and before any epoch. *)
Theorem StartSigning_never_fails (clk : Clock) (minTick : list Z)
    (minInterval maxInterval : Z) (w : W) :
  (∀ e, outcome_of (StartSigning svc s Now clk minTick minInterval maxInterval w)
        ≠ Fail e) ∧
  (∀ oi w1 ti mapRoot w2,
     Initialize svc s w = (oi, w1, ti) →
     tmap_GetSignedMapRoot svc (mapID s) w1 = (inr mapRoot, w2) →
     (0 < minInterval →
      StartSigning svc s Now clk minTick minInterval maxInterval w
      = let '(o, w5, t5) :=
          epochTicks svc s
            (flags clk mapRoot minTick minInterval maxInterval) w2 in
        (o, w5, ti ++ EvGetSignedMapRoot (mapID s) (inr mapRoot) :: t5)) ∧
     (minInterval ≤ 0 →
      StartSigning svc s Now clk minTick minInterval maxInterval w
      = (Panic, w2, ti ++ [EvGetSignedMapRoot (mapID s) (inr mapRoot)]))).
Proof.
  rewrite StartSigning_run. split.
  - intros e.
    destruct (Initialize svc s w) as [[oi w1] ti].
    destruct oi as [[]|ei|]; [| |done];
      destruct (tmap_GetSignedMapRoot svc (mapID s) w1) as [[e1|mapRoot] w2];
      try destruct (CreateEpoch svc s true w2) as [[[m|e2|] w3] tc];
      try (by unfold outcome_of; simpl);
      try destruct (tmap_GetSignedMapRoot svc (mapID s) w3) as [r2 w4];
      cbv zeta;
      (destruct (minInterval <=? 0); [by unfold outcome_of; simpl|]);
      match goal with
      | |- context [epochTicks ?a ?b ?c ?d] =>
          pose proof (epochTicks_never_fails a b c d e) as Hn;
          destruct (epochTicks a b c d) as [[o w5] t5]
      end; exact Hn.
  - intros oi w1 ti mapRoot w2 Hinit Hroot. rewrite Hinit.
    destruct (Initialize_no_panic_no_sends _ _ _ _ Hinit) as [Hnp _].
    split; intros Hmin.
    + destruct (Z.leb_spec minInterval 0) as [?|_]; [lia|].
      destruct oi as [[]|ei|]; [| |done]; by rewrite Hroot.
    + destruct (Z.leb_spec minInterval 0) as [_|?]; [|lia].
      destruct oi as [[]|ei|]; [| |done]; by rewrite Hroot.
Qed.

(** X28: when the first read of the map root fails, StartSigning runs
    one forced CreateEpoch before reading the root again, and what that
    CreateEpoch returns is sent to no channel: up to the second read of
    the root the run holds no channel send. After the second read the
    ticker is created: for a positive minInterval the loop runs, taking
    the Unix epoch as the time of the last epoch when the second read
    failed too; for a minInterval that is zero or negative
    time.NewTicker panics and StartSigning ends after the second read. *)
Theorem StartSigning_bootstrap (clk : Clock) (minTick : list Z)
    (minInterval maxInterval : Z) (w : W) (oi : outcome unit) (w1 : W)
    (ti : list Event) (e : error) (w2 : W)
    (oc : outcome (option GetMutationsResponse)) (w3 : W) (tc : list Event)
    (r2 : error + option SignedMapRoot) (w4 : W) :
  Initialize svc s w = (oi, w1, ti) →
  tmap_GetSignedMapRoot svc (mapID s) w1 = (inl e, w2) →
  CreateEpoch svc s true w2 = (oc, w3, tc) →
  oc ≠ Panic →
  tmap_GetSignedMapRoot svc (mapID s) w3 = (r2, w4) →
  (0 < minInterval →
   StartSigning svc s Now clk minTick minInterval maxInterval w
   = (let '(o, w5, t5) :=
        epochTicks svc s
          (genEpochTicks Now clk
             (match r2 with inr root => GetTimestampNanos root | inl _ => 0 end)
             minTick minInterval maxInterval).1.1 w4 in
      (o, w5, ti ++ EvGetSignedMapRoot (mapID s) (inl e) :: tc
                ++ EvGetSignedMapRoot (mapID s) r2 :: t5))) ∧
  (minInterval ≤ 0 →
   StartSigning svc s Now clk minTick minInterval maxInterval w
   = (Panic, w4, ti ++ EvGetSignedMapRoot (mapID s) (inl e) :: tc
                    ++ [EvGetSignedMapRoot (mapID s) r2])) ∧
  List.filter is_ChanSend
    (ti ++ EvGetSignedMapRoot (mapID s) (inl e) :: tc
        ++ [EvGetSignedMapRoot (mapID s) r2]) = [].
Proof.
  intros Hinit Hroot Hce Hnp Hroot2.
  destruct (Initialize_no_panic_no_sends _ _ _ _ Hinit) as (Hnpi & Hsi & _).
  split_and!.
  - intros Hmin. rewrite StartSigning_run, Hinit.
    destruct (Z.leb_spec minInterval 0) as [?|_]; [lia|].
    destruct oi as [[]|ei|]; [| |done]; rewrite Hroot, Hce;
      destruct oc as [m|e2|]; try done; rewrite Hroot2; by destruct r2.
  - intros Hmin. rewrite StartSigning_run, Hinit.
    destruct (Z.leb_spec minInterval 0) as [_|?]; [|lia].
    destruct oi as [[]|ei|]; [| |done]; rewrite Hroot, Hce;
      destruct oc as [m|e2|]; try done; by rewrite Hroot2.
  - pose proof (CreateEpoch_no_sends _ _ _ _ _ _ _ Hce) as Hsc.
    rewrite List.filter_app. simpl. rewrite List.filter_app, Hsi, Hsc. done.
Qed.

End DriverTheory.


(** * Skipping and normalization in terms of the fetched leaves *)

Section FetchedLeaves.

Variable FromLeafValue : bytes -> error + option Entry.
Variable Mutate : option Entry -> SignedKV -> error + bytes.
Variable range_order : list MapLeaf -> list MapLeaf.
Hypothesis range_order_perm : ∀ l, range_order l ≡ₚ l.

Local Abbreviation key m := (GetKey (GetKeyValue m)).
Local Abbreviation idx m := (toArray (GetKey (GetKeyValue m))).
Local Abbreviation prior := (prior_of FromLeafValue).
Local Abbreviation wr := (written FromLeafValue Mutate).
Local Abbreviation mcall := (mutator_call FromLeafValue).
Local Abbreviation run := (applyMutations_run FromLeafValue Mutate range_order).
Local Abbreviation apply := (applyMutations FromLeafValue Mutate range_order).
Local Abbreviation final lm muts :=
  (retMap (apply_loop FromLeafValue Mutate lm muts (mkLoop ∅ []))).
Local Abbreviation fprior := (fetched_prior FromLeafValue).
Local Abbreviation fcall := (fetched_call FromLeafValue).
Local Abbreviation acc := (accepted FromLeafValue Mutate).

(** The map that the first loop builds holds, under each index, the
    fetched leaf for it. *)
Lemma leafMap_of_fetched (ls : list MapLeaf) (k : bytes) :
  leafMap_of ls !! k = fetched_for ls k.
Proof.
  unfold fetched_for. induction ls as [|l ls IH] using rev_ind; [done|].
  rewrite leafMap_of_snoc, filter_app.
  destruct (decide (toArray (Index l) = k)) as [Hk|Hk].
  - rewrite filter_cons_True by done. rewrite filter_nil, last_snoc.
    rewrite Hk. apply lookup_insert_eq.
  - rewrite filter_cons_False by done. rewrite filter_nil, app_nil_r.
    by rewrite lookup_insert_ne.
Qed.

Lemma prior_of_fetched (ls : list MapLeaf) (m : SignedKV) :
  prior (leafMap_of ls) m = fprior ls m.
Proof. unfold prior_of, fetched_prior. by rewrite leafMap_of_fetched. Qed.

Lemma written_accepted (ls : list MapLeaf) (m : SignedKV) :
  wr (leafMap_of ls) m = acc ls m.
Proof. unfold written, accepted. by rewrite prior_of_fetched. Qed.

Lemma mutator_call_fetched (ls : list MapLeaf) (muts : list SignedKV) :
  omap (mcall (leafMap_of ls)) muts = omap (fcall ls) muts.
Proof.
  apply list_omap_ext, Forall2_same_length_lookup. split; [done|].
  intros i m m' Hm Hm'. simplify_eq.
  unfold mutator_call, fetched_call. by rewrite prior_of_fetched.
Qed.

Lemma fetched_for_last (pre : list MapLeaf) (l : MapLeaf)
    (post : list MapLeaf) (k : bytes) :
  toArray (Index l) = k →
  Forall (fun l' => toArray (Index l') ≠ k) post →
  fetched_for (pre ++ l :: post) k = Some l.
Proof.
  intros <- Hpost. rewrite <- leafMap_of_fetched.
  by apply leafMap_of_lookup_last.
Qed.

Lemma fetched_for_None (ls : list MapLeaf) (k : bytes) :
  Forall (fun l' => toArray (Index l') ≠ k) ls → fetched_for ls k = None.
Proof.
  intros Hls. rewrite <- leafMap_of_fetched. by apply leafMap_of_lookup_None.
Qed.

(** The leaves returned: one for each accepted mutation that no later
    accepted mutation of the same 32-byte index follows. *)
Lemma returned_iff (muts : list SignedKV) (ls : list MapLeaf) (leaf : MapLeaf) :
  leaf ∈ range_order (map_values (final (leafMap_of ls) muts))
  ↔ ∃ a m b, muts = a ++ m :: b ∧ acc ls m = Some leaf ∧
             Forall (fun m' => idx m' = idx m → acc ls m' = None) b.
Proof.
  rewrite (elem_of_ret range_order range_order_perm). split.
  - intros (k & Hk). apply retMap_loop_lookup in Hk.
    destruct Hk as [(a & m & b & -> & Hi & Hw & Hb)|[He _]].
    + exists a, m, b. split; [done|]. rewrite <- written_accepted.
      split; [done|]. eapply Forall_impl; [exact Hb|].
      intros m' Hm' Heq. rewrite <- written_accepted. apply Hm'. congruence.
    + simpl in He. by rewrite lookup_empty in He.
  - intros (a & m & b & -> & Hacc & Hb). exists (idx m).
    apply retMap_loop_lookup_last; [by rewrite written_accepted|].
    eapply Forall_impl; [exact Hb|].
    intros m' Hm' Heq. rewrite written_accepted. by apply Hm'.
Qed.

Lemma accepted_Index (ls : list MapLeaf) (m : SignedKV) (leaf : MapLeaf) :
  acc ls m = Some leaf →
  Index leaf = key m ∧
  ∃ old, fprior ls m = inr old ∧ Mutate old m = inr (LeafValue leaf).
Proof.
  unfold accepted. destruct (fprior ls m) as [|old]; [done|].
  destruct (Mutate old m) as [|v] eqn:Hm; [done|]. intros [= <-]. eauto.
Qed.

(** C10: the 32-byte form of a key is the key zero-padded when shorter
    than 32 bytes and cut to its first 32 bytes when longer, so that
    keys with the same first 32 bytes, and a key and its zero-padded
    forms, have one 32-byte form. Leaf lookup goes through it: the
    Mutator is called with the parse of the last fetched leaf whose
    index has the 32-byte form of the mutation's key (in particular the
    leaf whose index is the padded short key, or the first 32 bytes of
    the long key), and with nil when there is none. Deduplication goes
    through it: the returned leaves have pairwise different 32-byte
    forms, and they are the leaves of the accepted mutations that no
    later accepted mutation with the same 32-byte form follows. A
    returned leaf carries the unmodified key of its mutation in Index.
    Of two mutations whose keys have the same 32-byte form, the later
    accepted one leaves the only returned leaf of that form. *)
Theorem index_normalization (muts : list SignedKV) (ls : list MapLeaf) :
  (∀ b : bytes,
     length (toArray b) = 32%nat ∧
     ((length b <= 32)%nat →
        toArray b = b ++ replicate (32 - length b)%nat Byte.x00) ∧
     ((32 <= length b)%nat → toArray b = take 32 b)) ∧
  (∀ b1 b2 : bytes, take 32 b1 = take 32 b2 → toArray b1 = toArray b2) ∧
  (∀ (b : bytes) (n : nat), toArray (b ++ replicate n Byte.x00) = toArray b) ∧
  snd (run muts (Some <$> ls)) = omap (fcall ls) muts ∧
  (∀ m pre l post,
     ls = pre ++ l :: post →
     toArray (Index l) = idx m
     ∨ ((length (key m) <= 32)%nat
        ∧ Index l = key m ++ replicate (32 - length (key m))%nat Byte.x00)
     ∨ ((32 <= length (key m))%nat ∧ Index l = take 32 (key m)) →
     Forall (fun l' => toArray (Index l') ≠ idx m) post →
     prior (leafMap_of ls) m = FromLeafValue (GetLeafValue l) ∧
     snd (run [m] (Some <$> ls))
     = match FromLeafValue (GetLeafValue l) with
       | inr old => [(old, m)]
       | inl _ => []
       end) ∧
  (∀ m,
     Forall (fun l' => toArray (Index l') ≠ idx m) ls →
     prior (leafMap_of ls) m = inr None ∧
     snd (run [m] (Some <$> ls)) = [(None, m)]) ∧
  ∃ ret,
    apply muts (Some <$> ls) = Ret ret ∧
    NoDup ((toArray ∘ Index) <$> ret) ∧
    (∀ leaf,
       leaf ∈ ret
       ↔ ∃ a m b, muts = a ++ m :: b ∧ acc ls m = Some leaf ∧
                  Forall (fun m' => idx m' = idx m → acc ls m' = None) b) ∧
    (∀ leaf, leaf ∈ ret →
       ∃ m old, m ∈ muts ∧ Index leaf = key m ∧
                fprior ls m = inr old ∧ Mutate old m = inr (LeafValue leaf)) ∧
    (∀ a m1 b m2 c old newValue,
       muts = a ++ m1 :: b ++ m2 :: c →
       idx m1 = idx m2 →
       fprior ls m2 = inr old →
       Mutate old m2 = inr newValue →
       Forall (fun m' => idx m' = idx m2 → acc ls m' = None) c →
       mkMapLeaf (key m2) newValue ∈ ret ∧
       ∀ l, l ∈ ret →
            toArray (Index l) = idx m1 ∨ toArray (Index l) = idx m2 →
            l = mkMapLeaf (key m2) newValue).
Proof.
  assert (Hzeros : ∀ (b : bytes) (n : nat),
            toArray (b ++ replicate n Byte.x00) = toArray b).
  { intros b n. apply toArray_ext. intros i Hi.
    destruct (decide (i < length b)%nat) as [Hlt|Hge].
    - by rewrite lookup_app_l.
    - rewrite lookup_app_r by lia.
      assert (Hb : b !! i = None) by (apply lookup_ge_None; lia).
      rewrite Hb. simpl.
      destruct (replicate n Byte.x00 !! (i - length b)%nat) as [x|] eqn:Hr;
        [|done].
      apply lookup_replicate in Hr. by destruct Hr as [-> _]. }
  assert (Hrun1 : ∀ m, snd (run [m] (Some <$> ls))
            = match prior (leafMap_of ls) m with
              | inr old => [(old, m)]
              | inl _ => []
              end).
  { intros m. rewrite run_eq. simpl. unfold mutator_call.
    by destruct (prior (leafMap_of ls) m). }
  split_and!.
  - intros b. split; [apply toArray_length|].
    split; [apply toArray_short|apply toArray_long].
  - apply toArray_take.
  - exact Hzeros.
  - rewrite run_eq. simpl. apply mutator_call_fetched.
  - intros m pre l post -> Hl Hpost.
    assert (Hk : toArray (Index l) = idx m).
    { destruct Hl as [Hl|[[Hlen ->]|[Hlen ->]]]; [done|apply Hzeros|].
      apply toArray_take. by rewrite take_take. }
    assert (Hp : prior (leafMap_of (pre ++ l :: post)) m
                 = FromLeafValue (GetLeafValue l)).
    { rewrite prior_of_fetched. unfold fetched_prior.
      by rewrite (fetched_for_last pre l post _ Hk Hpost). }
    split; [exact Hp|]. by rewrite Hrun1, Hp.
  - intros m Hls.
    assert (Hp : prior (leafMap_of ls) m = inr None).
    { rewrite prior_of_fetched. unfold fetched_prior.
      by rewrite (fetched_for_None ls _ Hls). }
    split; [exact Hp|]. by rewrite Hrun1, Hp.
  - eexists. split; [apply applyMutations_eq|].
    split; [by apply final_NoDup_norm|].
    split; [apply returned_iff|]. split.
    + intros leaf Hin. apply returned_iff in Hin.
      destruct Hin as (a & m & b & -> & Hacc & _).
      destruct (accepted_Index _ _ _ Hacc) as (HI & old & Hp & Hm).
      exists m, old. split; [|done]. apply elem_of_app. right. by left.
    + intros a m1 b m2 c old v -> Heq Hp Hm Hc.
      assert (Hacc : acc ls m2 = Some (mkMapLeaf (key m2) v)).
      { unfold accepted. by rewrite Hp, Hm. }
      assert (Hin : mkMapLeaf (key m2) v
                    ∈ range_order (map_values
                        (final (leafMap_of ls) (a ++ m1 :: b ++ m2 :: c)))).
      { apply returned_iff. exists (a ++ m1 :: b), m2, c.
        split; [by rewrite <- app_assoc|]. by split. }
      split; [exact Hin|]. intros l Hl Hk.
      eapply (final_collide FromLeafValue Mutate range_order range_order_perm);
        [exact Hl|exact Hin|].
      simpl. destruct Hk as [Hk|Hk]; congruence.
Qed.

End FetchedLeaves.

(** ** A refused mutation does not stop the epoch *)

Section SkipInvalid.

Context {W : Type}.
Variable svc : Services W.
Variable s : Sequencer.
Hypothesis range_order_perm : ∀ l, map_range_order svc l ≡ₚ l.

Local Abbreviation key m := (GetKey (GetKeyValue m)).
Local Abbreviation idx m := (toArray (GetKey (GetKeyValue m))).
Local Abbreviation run :=
  (applyMutations_run (entry_FromLeafValue svc) (mutator_Mutate svc)
     (map_range_order svc)).
Local Abbreviation apply :=
  (applyMutations (entry_FromLeafValue svc) (mutator_Mutate svc)
     (map_range_order svc)).
Local Abbreviation fprior := (fetched_prior (entry_FromLeafValue svc)).
Local Abbreviation fcall := (fetched_call (entry_FromLeafValue svc)).
Local Abbreviation acc :=
  (accepted (entry_FromLeafValue svc) (mutator_Mutate svc)).

(** C4: when the Mutator refuses the k-th mutation of a batch of N,
    applyMutations returns without error and returns at most N-1
    leaves. The mutations before and after the refused one are applied
    as if it were not there: the Mutator is called on each of them with
    the parse of its fetched leaf, and the leaves returned are the
    leaves of the accepted ones among them, the last one for each
    32-byte index. The epoch proceeds: CreateEpoch, having read this
    batch and fetched the leaves, goes on to the SetLeaves request with
    exactly these leaves and does not stop at the refusal. *)
Theorem applyMutations_skip_invalid (pre : list SignedKV) (m : SignedKV)
    (post : list SignedKV) (ls : list MapLeaf) (old : option Entry)
    (err : error) :
  fprior ls m = inr old →
  mutator_Mutate svc old m = inl err →
  ∃ ret,
    apply (pre ++ m :: post) (Some <$> ls) = Ret ret ∧
    (∀ leaves e, apply (pre ++ m :: post) leaves ≠ Fail e) ∧
    (length ret <= length (pre ++ m :: post) - 1)%nat ∧
    snd (run (pre ++ m :: post) (Some <$> ls))
    = omap (fcall ls) pre ++ (old, m) :: omap (fcall ls) post ∧
    (∀ leaf,
       leaf ∈ ret
       ↔ ∃ a m' b, pre ++ post = a ++ m' :: b ∧ acc ls m' = Some leaf ∧
                   Forall (fun m'' => idx m'' = idx m' → acc ls m'' = None) b) ∧
    (∀ force w root w1 seq w2 tr2 incl w3,
       tmap_GetSignedMapRoot svc (mapID s) w = (inr root, w1) →
       newMutations svc (GetHighestFullyCompletedSeq (GetMetadata root)) w1
         = (Ret (pre ++ m :: post, seq), w2, tr2) →
       tmap_GetLeaves svc (mapID s)
         (map (fun m => key m) (pre ++ m :: post)) (-1) w2 = (inr incl, w3) →
       map Leaf incl = Some <$> ls →
       (length incl <= length (pre ++ m :: post))%nat →
       ∃ resp w4 rest,
         tmap_SetLeaves svc (mapID s) ret (mkMapperMetadata seq) w3
           = (resp, w4) ∧
         trace_of (CreateEpoch svc s force w)
         = EvGetSignedMapRoot (mapID s) (inr root) :: tr2
           ++ EvGetLeaves (mapID s)
                (map (fun m => key m) (pre ++ m :: post)) (-1) (inr incl)
           :: EvSetLeaves (mapID s) ret (mkMapperMetadata seq) resp :: rest ∧
         outcome_of (CreateEpoch svc s force w) ≠ Panic ∧
         (∀ e, resp = inl e →
               outcome_of (CreateEpoch svc s force w) = Fail e)).
Proof.
  intros Hp Hm.
  assert (Hacc : acc ls m = None).
  { unfold accepted. by rewrite Hp, Hm. }
  assert (Hw : written (entry_FromLeafValue svc) (mutator_Mutate svc)
                 (leafMap_of ls) m = None).
  { by rewrite written_accepted. }
  eexists. split; [apply applyMutations_eq|].
  split; [intros leaves e; apply applyMutations_never_fails|].
  rewrite (retMap_loop_drop _ _ _ _ _ _ _ Hw).
  split_and!.
  - etrans; [by apply final_length|]. rewrite !length_app. simpl. lia.
  - rewrite run_eq. cbn [snd]. rewrite omap_app, !mutator_call_fetched.
    f_equal. cbn [omap list_omap]. unfold fetched_call at 1. by rewrite Hp.
  - intros leaf. by apply returned_iff.
  - intros force w root w1 seq w2 tr2 incl w3 Hroot Hnew Hget Hls Hlen.
    destruct (CreateEpoch svc s force w) as [[out w'] tr] eqn:Hrun.
    unfold trace_of, outcome_of. cbn [fst snd].
    rewrite (CreateEpoch_run svc s force _ _ _ _ _ _ _ Hroot Hnew) in Hrun.
    assert (Hc : (length (pre ++ m :: post) =? 0)%nat && negb force = false).
    { rewrite length_app. simpl.
      destruct (Nat.eqb_spec (length pre + S (length post)) 0); [lia|done]. }
    rewrite Hc in Hrun. clear Hc. revert Hrun.
    unfold buildEpoch. unfold bind at 1. unfold call at 1.
    rewrite Hget. simpl.
    destruct (bind_proofs _ incl) as [bound|] eqn:Hb.
    2:{ apply bind_proofs_facts in Hb. rewrite length_map in Hb. lia. }
    rewrite Hls, (applyMutations_eq _ _ _ (pre ++ m :: post) ls).
    rewrite (retMap_loop_drop _ _ _ _ _ _ _ Hw).
    unfold bind at 1. unfold call at 1.
    destruct (tmap_SetLeaves _ _ _ _ _) as [[e|smr] w4]; simpl.
    { intros [= <- <- <-]. eexists _, _, _. split; [done|]. split; [done|].
      split; [done|]. by intros e' [= <-]. }
    unfold bind at 1. rewrite queueLogLeaf_run.
    destruct (json_Marshal svc smr) as [e|js] eqn:Hj; simpl.
    { intros [= <- <- <-]. eexists _, _, _. split; [done|]. split; [done|].
      by split. }
    destruct (tlog_QueueLeaf _ _ _ _ _) as [[e|u] w5]; simpl.
    { intros [= <- <- <-]. eexists _, _, _. split; [done|]. split; [done|].
      by split. }
    unfold bind at 1.
    destruct (logProofs _ _ _ _ _) as [[po w6] ptr] eqn:Hlp.
    destruct (logProofs_shape0 _ _ _ _ _ _ _ Hlp)
      as [(? & -> & ->)|[(? & ? & -> & ->)|(? & ? & -> & ->)]]; simpl;
      intros [= <- <- <-];
      eexists _, _, _; (split; [done|]); (split; [done|]); by split.
Qed.

End SkipInvalid.


(** ** The further properties on the sample directory *)

Section MoreSampleRuns.

Import Sample.

Local Abbreviation mA1 := (kv keyA [Byte.x01]).
Local Abbreviation mA2 := (kv keyA [Byte.x02]).
Local Abbreviation mB0 := (kv keyB []).
Local Abbreviation mB1 := (kv keyB [Byte.x03]).
Local Abbreviation leafA := (mkMapLeaf keyA [Byte.x05]).
Local Abbreviation leafA' := (mkMapLeaf keyA [Byte.x06]).
Local Abbreviation leafB := (mkMapLeaf keyB [Byte.x07]).
Local Abbreviation root0 := (Some (mkSignedMapRoot 0 [] None 1 0)).
Local Abbreviation root1 :=
  (Some (mkSignedMapRoot 0 [] (Some (mkMapperMetadata 9)) 1 1)).
Local Abbreviation json1 := [Byte.x7b; Byte.x31; Byte.x7d].
Local Abbreviation busy := (fresh [mA1; mA2] 9).

Lemma toArray_idempotent_witness :
  length (replicate 32 Byte.x0c) = 32%nat ∧
  toArray (replicate 32 Byte.x0c) = replicate 32 Byte.x0c.
Proof.
  split; [reflexivity|].
  apply (proj2 (toArray_idempotent (replicate 32 Byte.x0c))). reflexivity.
Defined.

Lemma applyMutations_panics_iff_nil_leaf_witness :
  None ∈ [Some leafA; None] ∧
  applyMutations FromLeafValue Mutate range_order [mA1] [Some leafA; None] = Panic.
Proof.
  assert (Hin : None ∈ [Some leafA; (None : option MapLeaf)]).
  { apply list_elem_of_further, list_elem_of_here. }
  split; [exact Hin|].
  exact (proj2 (proj1 (applyMutations_panics_iff_nil_leaf FromLeafValue Mutate
                         range_order [mA1] [Some leafA; None])) Hin).
Defined.

Lemma prior_from_last_fetched_leaf_witness :
  toArray (Index leafA') = toArray (GetKey (GetKeyValue mA1)) ∧
  Forall (fun l' => toArray (Index l') ≠ toArray (GetKey (GetKeyValue mA1)))
         [leafB] ∧
  prior_of FromLeafValue (leafMap_of ([leafA] ++ leafA' :: [leafB])) mA1
  = FromLeafValue (GetLeafValue leafA').
Proof.
  assert (Hne : Forall (fun l' => toArray (Index l')
                                  ≠ toArray (GetKey (GetKeyValue mA1))) [leafB]).
  { constructor; [|constructor]. vm_compute. intros H. discriminate H. }
  split; [reflexivity|]. split; [exact Hne|].
  exact (proj1 (prior_from_last_fetched_leaf FromLeafValue Mutate mA1)
           [leafA] leafA' [leafB] eq_refl Hne).
Defined.

Lemma applyMutations_concat_witness :
  (∀ l, range_order l ≡ₚ l) ∧
  ∃ ret1 ret2 ret,
    applyMutations FromLeafValue Mutate range_order [mA1; mB1] (Some <$> [leafA])
      = Ret ret1 ∧
    applyMutations FromLeafValue Mutate range_order [mA2] (Some <$> [leafA])
      = Ret ret2 ∧
    applyMutations FromLeafValue Mutate range_order ([mA1; mB1] ++ [mA2])
      (Some <$> [leafA]) = Ret ret.
Proof.
  split; [intros l; reflexivity|].
  destruct (applyMutations_concat FromLeafValue Mutate range_order
              sample_range_order_perm [mA1; mB1] [mA2] [leafA])
    as (ret1 & ret2 & ret & H1 & H2 & H3 & _).
  exists ret1, ret2, ret. split; [exact H1|]. split; [exact H2|exact H3].
Defined.

Lemma applyMutations_swap_witness :
  toArray (GetKey (GetKeyValue mA1)) ≠ toArray (GetKey (GetKeyValue mB1)) ∧
  applyMutations FromLeafValue Mutate range_order ([] ++ mA1 :: mB1 :: [mA2])
    (Some <$> [leafA])
  = applyMutations FromLeafValue Mutate range_order ([] ++ mB1 :: mA1 :: [mA2])
      (Some <$> [leafA]).
Proof.
  assert (Hne : toArray (GetKey (GetKeyValue mA1))
                ≠ toArray (GetKey (GetKeyValue mB1))).
  { vm_compute. intros H. discriminate H. }
  split; [exact Hne|].
  exact (applyMutations_swap FromLeafValue Mutate range_order [] mA1 mB1 [mA2]
           [leafA] Hne).
Defined.

Lemma applyMutations_written_indexes_witness :
  (∀ l, range_order l ≡ₚ l) ∧
  ∃ ret,
    applyMutations FromLeafValue Mutate range_order [mA1; mB0; mA2; mB1]
      (Some <$> [leafA]) = Ret ret ∧
    length ret
    = length (remove_dups
                (accepted_indexes FromLeafValue Mutate (leafMap_of [leafA])
                   [mA1; mB0; mA2; mB1])).
Proof.
  split; [intros l; reflexivity|].
  destruct (applyMutations_written_indexes FromLeafValue Mutate range_order
              sample_range_order_perm [mA1; mB0; mA2; mB1] [leafA])
    as (ret & H1 & _ & H3).
  exists ret. split; [exact H1|exact H3].
Defined.

Lemma applyMutations_unrelated_leaf_witness :
  Forall (fun m => toArray (GetKey (GetKeyValue m)) ≠ toArray (Index leafB))
         [mA1; mA2] ∧
  applyMutations_run FromLeafValue Mutate range_order [mA1; mA2]
    (Some <$> ([leafA] ++ leafB :: []))
  = applyMutations_run FromLeafValue Mutate range_order [mA1; mA2]
      (Some <$> ([leafA] ++ [])).
Proof.
  assert (Hall : Forall (fun m => toArray (GetKey (GetKeyValue m))
                                  ≠ toArray (Index leafB)) [mA1; mA2]).
  { repeat constructor; vm_compute; intros H; discriminate H. }
  split; [exact Hall|].
  exact (applyMutations_unrelated_leaf FromLeafValue Mutate range_order
           [mA1; mA2] [leafA] leafB [] Hall).
Defined.

Local Abbreviation no_read :=
  (Faulty.svc (Faulty.mkFaults false true false false false false)).
Local Abbreviation no_set :=
  (Faulty.svc (Faulty.mkFaults false false true false false false)).
Local Abbreviation no_queue :=
  (Faulty.svc (Faulty.mkFaults false false false true false false)).
Local Abbreviation no_logroot :=
  (Faulty.svc (Faulty.mkFaults false false false false true false)).
Local Abbreviation no_root :=
  (Faulty.svc (Faulty.mkFaults true false false false false false)).
Local Abbreviation too_long :=
  (Faulty.svc (Faulty.mkFaults false false false false false true)).

Lemma newMutations_transaction_witness :
  newMutations no_read 0 busy
    = (Fail (ErrWrap "ReadAll" Faulty.down), busy,
       [EvNewTxn (inr tt); EvReadAll 0 (inl Faulty.down); EvRollback (inr tt)]) ∧
  (length (List.filter is_Commit
             [EvNewTxn (inr tt); EvReadAll 0 (inl Faulty.down);
              EvRollback (inr tt)])
   + length (List.filter is_Rollback
               [EvNewTxn (inr tt); EvReadAll 0 (inl Faulty.down);
                EvRollback (inr tt)]) <= 1)%nat.
Proof.
  split; [reflexivity|].
  exact (proj1 (proj2 (newMutations_transaction no_read 0 busy _ _ _ eq_refl))).
Defined.

Lemma newMutations_sequence_roundtrip_witness :
  newMutations svc 0 busy
    = (Ret ([mA1; mA2], 9), busy,
       [EvNewTxn (inr tt); EvReadAll 0 (inr (9, [mA1; mA2])); EvCommit (inr tt)]) ∧
  ∃ maxSequence,
    EvReadAll (to_uint64 0) (inr (maxSequence, [mA1; mA2]))
      ∈ [EvNewTxn (inr tt); EvReadAll 0 (inr (9, [mA1; mA2])); EvCommit (inr tt)] ∧
    (0 <= maxSequence < 2 ^ 64 → to_uint64 9 = maxSequence).
Proof.
  split; [vm_compute; reflexivity|].
  destruct (newMutations_sequence_roundtrip svc 0 busy [mA1; mA2] 9 busy
              [EvNewTxn (inr tt); EvReadAll 0 (inr (9, [mA1; mA2]));
               EvCommit (inr tt)])
    as (maxSequence & H1 & _ & _ & _ & H5).
  - vm_compute. reflexivity.
  - exists maxSequence. split; [exact H1|exact H5].
Defined.

Lemma logProofs_errors_masked_witness :
  logProofs no_logroot seq1 0 0 busy
    = (Fail (ErrGrpcInternal "Cannot fetch SignedLogRoot"), busy,
       [EvGetLatestSignedLogRoot 2 (inl Faulty.down)]) ∧
  (Fail (ErrGrpcInternal "Cannot fetch SignedLogRoot")
     : outcome (option SignedLogRoot * list bytes * list bytes)) ≠ Panic.
Proof.
  split; [reflexivity|].
  exact (proj1 (logProofs_errors_masked no_logroot seq1 0 0 busy _ _ _ eq_refl)).
Defined.

Lemma logProofs_requests_witness :
  logProofs svc seq1 0 0 busy
    = (Ret (Some (mkSignedLogRoot 0 [] 0), [], []), busy,
       [EvGetLatestSignedLogRoot 2 (inr (Some (mkSignedLogRoot 0 [] 0)));
        EvGetInclusionProof 2 0 0 (inr [])]) ∧
  List.filter is_GetConsistencyProof
    [EvGetLatestSignedLogRoot 2 (inr (Some (mkSignedLogRoot 0 [] 0)));
     EvGetInclusionProof 2 0 0 (inr [])] = [].
Proof.
  split; [reflexivity|].
  exact (proj1 (logProofs_requests svc seq1 0 0 busy _ _ _ eq_refl) eq_refl).
Defined.

Lemma CreateEpoch_SetLeaves_request_witness :
  ∃ before after,
    trace_of (CreateEpoch svc seq1 false busy)
    = before ++ EvSetLeaves 1 [mkMapLeaf keyA [Byte.x02]] (mkMapperMetadata 9)
                  (inr root1) :: after ∧
    1 = mapID seq1 ∧
    ∃ root maxSequence mRange incl,
      before
      = [EvGetSignedMapRoot 1 (inr root); EvNewTxn (inr tt);
         EvReadAll (to_uint64 (GetHighestFullyCompletedSeq (GetMetadata root)))
           (inr (maxSequence, mRange));
         EvCommit (inr tt);
         EvGetLeaves 1 (map (fun m => GetKey (GetKeyValue m)) mRange) (-1)
           (inr incl)] ∧
      applyMutations FromLeafValue Mutate range_order mRange (map Leaf incl)
        = Ret [mkMapLeaf keyA [Byte.x02]].
Proof.
  exists (take 5 (trace_of (CreateEpoch svc seq1 false busy))),
         (drop 6 (trace_of (CreateEpoch svc seq1 false busy))).
  assert (Hin : trace_of (CreateEpoch svc seq1 false busy)
                = take 5 (trace_of (CreateEpoch svc seq1 false busy))
                  ++ EvSetLeaves 1 [mkMapLeaf keyA [Byte.x02]]
                       (mkMapperMetadata 9) (inr root1)
                  :: drop 6 (trace_of (CreateEpoch svc seq1 false busy))).
  { vm_compute. reflexivity. }
  split; [exact Hin|].
  destruct (CreateEpoch_SetLeaves_request svc seq1 false busy _ _ _ _ _ 1
              [mkMapLeaf keyA [Byte.x02]] (mkMapperMetadata 9) (inr root1)
              eq_refl Hin)
    as (Hid & root & maxSequence & mRange & incl & H1 & H2 & _).
  split; [exact Hid|]. exists root, maxSequence, mRange, incl.
  split; [exact H1|exact H2].
Defined.

Lemma CreateEpoch_writes_once_witness :
  (length (List.filter is_SetLeaves (trace_of (CreateEpoch svc seq1 false busy)))
   <= 1)%nat ∧
  (length (List.filter is_QueueLeaf (trace_of (CreateEpoch svc seq1 false busy)))
   <= 1)%nat ∧
  ∃ before after v h,
    trace_of (CreateEpoch svc seq1 false busy)
    = before ++ EvQueueLeaf 2 v h (inr tt) :: after ∧
    ∃ leaves mapper smr,
      last before = Some (EvSetLeaves 1 leaves mapper (inr smr)) ∧
      marshal smr = inr v.
Proof.
  destruct (CreateEpoch_writes_once svc seq1 false busy _ _ _ eq_refl)
    as (_ & H2 & H3 & H4).
  split; [exact H2|]. split; [exact H3|].
  eexists (take 6 (trace_of (CreateEpoch svc seq1 false busy))),
          (drop 7 (trace_of (CreateEpoch svc seq1 false busy))), _, _.
  assert (Hin : trace_of (CreateEpoch svc seq1 false busy)
                = take 6 (trace_of (CreateEpoch svc seq1 false busy))
                  ++ EvQueueLeaf 2 json1 (digest json1) (inr tt)
                  :: drop 7 (trace_of (CreateEpoch svc seq1 false busy))).
  { vm_compute. reflexivity. }
  split; [exact Hin|].
  destruct (H4 _ _ _ _ _ _ Hin) as (leaves & mapper & smr & Hl & _ & Hj & _).
  exists leaves, mapper, smr. split; [exact Hl|exact Hj].
Defined.

Lemma CreateEpoch_summary_witness :
  ∃ resp w' tr,
    CreateEpoch svc seq1 false busy = (Ret (Some resp), w', tr) ∧
    Epoch resp = 1 ∧ LogConsistency resp = [] ∧
    length (Mutations resp) = 2%nat.
Proof.
  eexists _, _, _. split; [vm_compute; reflexivity|].
  match goal with
  | |- Epoch ?r = _ ∧ _ =>
      destruct (CreateEpoch_summary svc seq1 false busy _ _ r eq_refl)
        as (start & ms & mRange & incl & leaves & smr & js & lr & li &
            H1 & _ & _ & _ & _ & _ & _ & _ & _ & Hc & _ & _)
  end.
  split; [reflexivity|]. split; [exact Hc|reflexivity].
Defined.

Lemma CreateEpoch_no_consistency_proof_witness :
  List.filter is_GetConsistencyProof (trace_of (CreateEpoch svc seq1 true busy))
  = [].
Proof.
  exact (CreateEpoch_no_consistency_proof svc seq1 true busy _ _ _ eq_refl).
Defined.

Lemma CreateEpoch_write_failures_witness :
  EvSetLeaves 1 [mkMapLeaf keyA [Byte.x02]] (mkMapperMetadata 9)
    (inl Faulty.down) ∈ trace_of (CreateEpoch no_set seq1 false busy) ∧
  outcome_of (CreateEpoch no_set seq1 false busy) = Fail Faulty.down ∧
  List.filter is_QueueLeaf (trace_of (CreateEpoch no_set seq1 false busy)) = [].
Proof.
  assert (Hin : EvSetLeaves 1 [mkMapLeaf keyA [Byte.x02]] (mkMapperMetadata 9)
                  (inl Faulty.down)
                ∈ trace_of (CreateEpoch no_set seq1 false busy)).
  { vm_compute. do 5 apply list_elem_of_further. apply list_elem_of_here. }
  split; [exact Hin|].
  destruct (proj1 (CreateEpoch_write_failures no_set seq1 false busy _ _ _ eq_refl)
              1 [mkMapLeaf keyA [Byte.x02]] (mkMapperMetadata 9) Faulty.down Hin)
    as (H1 & _ & H3).
  split; [exact H1|exact H3].
Defined.

Lemma CreateEpoch_bad_GetLeaves_answer_witness :
  EvGetLeaves 1 [] (-1) (inr [mkMapLeafInclusion None []])
    ∈ trace_of (CreateEpoch too_long seq1 true (fresh [] 0)) ∧
  ((length ([] : list bytes) < length [mkMapLeafInclusion None []])%nat
   ∨ None ∈ map Leaf [mkMapLeafInclusion None []]) ∧
  outcome_of (CreateEpoch too_long seq1 true (fresh [] 0)) = Panic ∧
  List.filter is_SetLeaves (trace_of (CreateEpoch too_long seq1 true (fresh [] 0)))
  = [].
Proof.
  assert (Hin : EvGetLeaves 1 [] (-1) (inr [mkMapLeafInclusion None []])
                ∈ trace_of (CreateEpoch too_long seq1 true (fresh [] 0))).
  { vm_compute. do 4 apply list_elem_of_further. apply list_elem_of_here. }
  assert (Hbad : (length ([] : list bytes) < length [mkMapLeafInclusion None []])%nat
                 ∨ None ∈ map Leaf [mkMapLeafInclusion None []]).
  { left. simpl. lia. }
  split; [exact Hin|]. split; [exact Hbad|].
  destruct (CreateEpoch_bad_GetLeaves_answer too_long seq1 true (fresh [] 0)
              _ _ _ 1 [] (-1) [mkMapLeafInclusion None []] eq_refl Hin Hbad)
    as (H1 & _ & H3).
  split; [exact H1|exact H3].
Defined.

Lemma epochTick_fanout_witness :
  outcome_of (CreateEpoch no_set seq1 false busy) ≠ Panic ∧
  List.filter is_ChanSend (trace_of (epochTick no_set seq1 false busy))
  = [EvChanSend 0 None; EvChanSend 1 None].
Proof.
  assert (Hnp : outcome_of (CreateEpoch no_set seq1 false busy) ≠ Panic).
  { vm_compute. intros H. discriminate H. }
  split; [exact Hnp|].
  exact (proj2 (proj2 (proj2 (epochTick_fanout no_set seq1 false busy _ _ _
                                eq_refl)) Hnp)).
Defined.

Lemma epochTicks_fanout_witness :
  ∃ w' tr,
    epochTicks svc seq1 [false; true] (fresh [] 0) = (Ret tt, w', tr) ∧
    length (List.filter is_ChanSend tr) = (2 * 2)%nat.
Proof.
  eexists _, _. split; [vm_compute; reflexivity|].
  destruct (epochTicks_fanout svc seq1 [false; true] (fresh [] 0) _ _ eq_refl)
    as (ms & _ & _ & H3).
  exact H3.
Defined.

Lemma ticks_all_forced_witness :
  (30 <= 50) ∧ (0 <= 50 <= 2 ^ 61) ∧
  StronglySorted Z.le (100 :: [150; 200]) ∧
  Forall (fun t => t <= 100 + 2 ^ 61) [150; 200] ∧
  ticks_loop 100 [150; 200] 50 30 = ([true; true], 200).
Proof.
  assert (H1 : 30 <= 50) by lia.
  assert (H2 : 0 <= 50 <= 2 ^ 61) by lia.
  assert (H3 : StronglySorted Z.le (100 :: [150; 200])).
  { repeat constructor; lia. }
  assert (H4 : Forall (fun t => t <= 100 + 2 ^ 61) [150; 200]).
  { repeat constructor; lia. }
  split; [exact H1|]. split; [exact H2|]. split; [exact H3|]. split; [exact H4|].
  exact (ticks_all_forced 100 [150; 200] 50 30 H1 H2 H3 H4).
Defined.

Lemma ticks_none_forced_witness :
  (0 <= 50 <= 2 ^ 61) ∧
  Forall (fun t => 0 <= t - 100 <= 2 ^ 61 ∧ t - 100 + 50 < 300) [150; 200] ∧
  ticks_loop 100 [150; 200] 50 300 = ([false; false], 100).
Proof.
  assert (H1 : 0 <= 50 <= 2 ^ 61) by lia.
  assert (H2 : Forall (fun t => 0 <= t - 100 <= 2 ^ 61 ∧ t - 100 + 50 < 300)
                      [150; 200]).
  { repeat constructor; lia. }
  split; [exact H1|]. split; [exact H2|].
  exact (ticks_none_forced 100 [150; 200] 50 300 H1 H2).
Defined.

Lemma ticks_forced_every_p_witness :
  (1 <= 2)%nat ∧ 0 < 10 ∧ Z.of_nat (6 + 2 + 1) * 10 <= 2 ^ 61 ∧
  (ticks_loop 0 (regular_ticks 0 10 6) 10 (Z.of_nat 3 * 10)).1
  = map (fun i => bool_decide (i mod 2 = 0)%nat) (seq 1 6).
Proof.
  assert (H1 : (1 <= 2)%nat) by lia.
  assert (H2 : 0 < 10) by lia.
  assert (H3 : Z.of_nat (6 + 2 + 1) * 10 <= 2 ^ 61) by (simpl; lia).
  split; [exact H1|]. split; [exact H2|]. split; [exact H3|].
  exact (ticks_forced_every_p 2 0 10 6 H1 H2 H3).
Defined.

(** The ticker of X26 on the sample: every second firing is forced. *)
Example ticks_every_second :
  (ticks_loop 0 (regular_ticks 0 10 6) 10 30).1
  = [false; true; false; true; false; true].
Proof. vm_compute. reflexivity. Qed.

Lemma StartSigning_never_fails_witness :
  Initialize svc seq1 (fresh [] 0)
    = (Ret tt, mkWorld root0 [[Byte.x7b; Byte.x7d]] [] 0,
       [EvGetLatestSignedLogRoot 2 (inr (Some (mkSignedLogRoot 0 [] 0)));
        EvGetSignedMapRoot 1 (inr root0);
        EvQueueLeaf 2 [Byte.x7b; Byte.x7d] (digest [Byte.x7b; Byte.x7d]) (inr tt)]) ∧
  0 < 50 ∧
  trace_of (StartSigning svc seq1 Now 0 [] 50 120 (fresh [] 0))
  = [EvGetLatestSignedLogRoot 2 (inr (Some (mkSignedLogRoot 0 [] 0)));
     EvGetSignedMapRoot 1 (inr root0);
     EvQueueLeaf 2 [Byte.x7b; Byte.x7d] (digest [Byte.x7b; Byte.x7d]) (inr tt);
     EvGetSignedMapRoot 1 (inr root0)] ∧
  0 ≤ 0 ∧
  StartSigning svc seq1 Now 0 [1; 2] 0 120 (fresh [] 0)
  = (Panic, mkWorld root0 [[Byte.x7b; Byte.x7d]] [] 0,
     [EvGetLatestSignedLogRoot 2 (inr (Some (mkSignedLogRoot 0 [] 0)));
      EvGetSignedMapRoot 1 (inr root0);
      EvQueueLeaf 2 [Byte.x7b; Byte.x7d] (digest [Byte.x7b; Byte.x7d]) (inr tt);
      EvGetSignedMapRoot 1 (inr root0)]).
Proof.
  split; [vm_compute; reflexivity|].
  split; [lia|]. split.
  - rewrite (proj1 (proj2 (StartSigning_never_fails svc seq1 Now 0 [] 50 120
                             (fresh [] 0))
                      _ _ _ root0 _ eq_refl eq_refl) eq_refl).
    vm_compute. reflexivity.
  - split; [lia|].
    rewrite (proj2 (proj2 (StartSigning_never_fails svc seq1 Now 0 [1; 2] 0 120
                             (fresh [] 0))
                      _ _ _ root0 _ eq_refl eq_refl) (Z.le_refl 0)).
    vm_compute. reflexivity.
Defined.

Lemma StartSigning_bootstrap_witness :
  tmap_GetSignedMapRoot no_root (mapID seq1) (fresh [] 0)
    = (inl Faulty.down, fresh [] 0) ∧
  outcome_of (CreateEpoch no_root seq1 true (fresh [] 0)) ≠ Panic ∧
  0 < 50 ∧
  outcome_of (StartSigning no_root seq1 Now 0 [] 50 120 (fresh [] 0)) = Ret tt ∧
  0 ≤ 0 ∧
  outcome_of (StartSigning no_root seq1 Now 0 [] 0 120 (fresh [] 0)) = Panic ∧
  List.filter is_ChanSend
    (trace_of (Initialize no_root seq1 (fresh [] 0))
     ++ EvGetSignedMapRoot (mapID seq1) (inl Faulty.down)
     :: trace_of (CreateEpoch no_root seq1 true (fresh [] 0))
     ++ [EvGetSignedMapRoot (mapID seq1) (inl Faulty.down)]) = [].
Proof.
  assert (Hnp : outcome_of (CreateEpoch no_root seq1 true (fresh [] 0)) ≠ Panic).
  { vm_compute. intros H. discriminate H. }
  split; [reflexivity|]. split; [exact Hnp|].
  split; [lia|]. split.
  { rewrite (proj1 (StartSigning_bootstrap no_root seq1 Now 0 [] 50 120
                      (fresh [] 0) _ _ _ Faulty.down _ _ _ _
                      (inl Faulty.down) _
                      eq_refl eq_refl eq_refl Hnp eq_refl) eq_refl).
    vm_compute. reflexivity. }
  split; [lia|]. split.
  { rewrite (proj1 (proj2 (StartSigning_bootstrap no_root seq1 Now 0 [] 0 120
                      (fresh [] 0) _ _ _ Faulty.down _ _ _ _
                      (inl Faulty.down) _
                      eq_refl eq_refl eq_refl Hnp eq_refl)) (Z.le_refl 0)).
    reflexivity. }
  exact (proj2 (proj2 (StartSigning_bootstrap no_root seq1 Now 0 [] 50 120
                  (fresh [] 0)
                  _ _ _ Faulty.down _ _ _ _ (inl Faulty.down) _
                  eq_refl eq_refl eq_refl Hnp eq_refl))).
Defined.

(** The leaves that the sample map answers for the batch A, B, A. *)
Local Abbreviation fetched3 :=
  [mkMapLeaf keyA []; mkMapLeaf keyB []; mkMapLeaf keyA []].
(** A fetched leaf under the zero-padded key A. *)
Local Abbreviation leafPadA :=
  (mkMapLeaf (keyA ++ replicate 31 Byte.x00) [Byte.x05]).
Local Abbreviation mL1 := (kv keyLong1 [Byte.x01]).
Local Abbreviation mL2 := (kv keyLong2 [Byte.x02]).

Lemma applyMutations_skip_invalid_witness :
  (∀ l, range_order l ≡ₚ l) ∧
  fetched_prior FromLeafValue fetched3 mB0 = inr None ∧
  Mutate None mB0 = inl (ErrExternal "invalid mutation") ∧
  ∃ ret,
    applyMutations FromLeafValue Mutate range_order ([mA1] ++ mB0 :: [mA2])
      (Some <$> fetched3) = Ret ret ∧
    (length ret <= length ([mA1] ++ mB0 :: [mA2]) - 1)%nat ∧
    snd (applyMutations_run FromLeafValue Mutate range_order
           ([mA1] ++ mB0 :: [mA2]) (Some <$> fetched3))
    = [(None, mA1); (None, mB0); (None, mA2)] ∧
    mkMapLeaf keyA [Byte.x02] ∈ ret ∧
    ∃ resp rest,
      trace_of (CreateEpoch svc seq1 false (fresh [mA1; mB0; mA2] 9))
      = EvGetSignedMapRoot 1 (inr root0)
        :: [EvNewTxn (inr tt); EvReadAll 0 (inr (9, [mA1; mB0; mA2]));
            EvCommit (inr tt)]
        ++ EvGetLeaves 1 [keyA; keyB; keyA] (-1)
             (inr (map (fun i => mkMapLeafInclusion (Some (mkMapLeaf i [])) [])
                     [keyA; keyB; keyA]))
        :: EvSetLeaves 1 ret (mkMapperMetadata 9) resp :: rest.
Proof.
  split; [intros l; reflexivity|].
  split; [vm_compute; reflexivity|]. split; [reflexivity|].
  destruct (applyMutations_skip_invalid svc seq1 (fun l => reflexivity l)
              [mA1] mB0 [mA2] fetched3 None (ErrExternal "invalid mutation"))
    as (ret & H1 & _ & H3 & H4 & H5 & H6).
  - vm_compute. reflexivity.
  - reflexivity.
  - exists ret. split; [exact H1|]. split; [exact H3|].
    split; [etrans; [exact H4|vm_compute; reflexivity]|]. split.
    + apply H5. exists [mA1], mA2, []. split; [reflexivity|].
      split; [vm_compute; reflexivity|]. constructor.
    + destruct (H6 false (fresh [mA1; mB0; mA2] 9) root0 _ 9 _ _ _ _
                  eq_refl eq_refl eq_refl eq_refl (le_n 3))
        as (resp & w4 & rest & _ & Htr & _).
      exists resp, rest. exact Htr.
Defined.

Lemma index_normalization_witness :
  (∀ l, range_order l ≡ₚ l) ∧
  prior_of FromLeafValue (leafMap_of [leafPadA]) mA1
    = inr (Some (mkEntry [Byte.x05] [] [])) ∧
  snd (applyMutations_run FromLeafValue Mutate range_order [mL1; mL2]
         (Some <$> [leafPadA]))
  = [(None, mL1); (None, mL2)] ∧
  ∃ ret,
    applyMutations FromLeafValue Mutate range_order [mL1; mL2]
      (Some <$> [leafPadA]) = Ret ret ∧
    mkMapLeaf keyLong2 [Byte.x02] ∈ ret ∧
    ∀ l, l ∈ ret →
         toArray (Index l) = toArray keyLong1
         ∨ toArray (Index l) = toArray keyLong2 →
         l = mkMapLeaf keyLong2 [Byte.x02].
Proof.
  split; [intros l; reflexivity|].
  destruct (index_normalization FromLeafValue Mutate range_order
              (fun l => reflexivity l) [mL1; mL2] [leafPadA])
    as (_ & _ & _ & Hcalls & Hfound & _ & ret & H1 & _ & _ & _ & Hcol).
  split.
  { assert (Hshort : (length (GetKey (GetKeyValue mA1)) <= 32)%nat)
      by (simpl; lia).
    etrans; [exact (proj1 (Hfound mA1 [] leafPadA [] eq_refl
                             (or_intror (or_introl (conj Hshort eq_refl)))
                             (Forall_nil_2 _)))|].
    reflexivity. }
  split; [etrans; [exact Hcalls|vm_compute; reflexivity]|].
  exists ret. split; [exact H1|].
  assert (Heq : toArray (GetKey (GetKeyValue mL1))
                = toArray (GetKey (GetKeyValue mL2)))
    by (vm_compute; reflexivity).
  exact (Hcol [] mL1 [] mL2 [] None [Byte.x02] eq_refl Heq
           ltac:(vm_compute; reflexivity) eq_refl (Forall_nil_2 _)).
Defined.

End MoreSampleRuns.

